(** * json-c: a lazily materialised JSON tree over one shared buffer

    A shallow embedding of [src/json.c] (validator, lazy tree builder,
    path resolver, escape decoder, public accessors, release of the
    tree) and the properties of its specification that can be settled on
    that embedding.

    Conventions of the embedding.
    - A [char] is the value of a byte, kept in [Z].
    - A [char*] into a NUL-terminated buffer is the list of the bytes from
      the pointed position up to (not including) the terminator, so that
      [[]] is the position of the terminator itself, [deref s] is [*s],
      [tl s] is [s+1], and two cursors into one buffer compare by the
      reverse order of their lengths.
    - A [NULL] result is [None]. *)

From Stdlib Require Import ZArith List String Ascii Bool Lia.
From stdpp Require Import base list relations.
Import ListNotations.

Local Open Scope Z_scope.

(** ** Characters and C strings *)

Abbreviation char := Z (only parsing).

Definition chr (a : ascii) : char := Z.of_N (N_of_ascii a).

(** The bytes of a string literal. *)
Definition cs (s : string) : list char := List.map chr (list_ascii_of_string s).

(** The double quote (code 34) and the backslash (code 92). *)
Definition quote : char := 34.
Definition backslash : char := 92.

(** Documents are easier to read with an apostrophe standing for each
    double quote: [dq "{'a':1 }"] is the text [{"a":1 }]. *)
Definition dq (s : string) : list char :=
  List.map (fun c => if c =? chr "'" then quote else c) (cs s).

(** [*s] *)
Definition deref (s : list char) : char := hd 0 s.

(** [strstr(s, lit) == s]: [lit] is a prefix of [s]. *)
Fixpoint starts_with (lit s : list char) : bool :=
  match lit, s with
  | [], _ => true
  | _ :: _, [] => false
  | a :: lit', b :: s' => (a =? b) && starts_with lit' s'
  end.

(** The C string held by a buffer: its bytes before the first NUL. *)
Fixpoint c_str (buf : list char) : list char :=
  match buf with
  | [] => []
  | c :: buf' => if c =? 0 then [] else c :: c_str buf'
  end.

(** ** Whitespace *)

Definition p_is_whitespace (c : char) : bool :=
  (c =? chr " ") || (c =? 13) || (c =? 10) || (c =? 9).

Fixpoint p_eat_whitespace (s : list char) : option (list char) :=
  match s with
  | [] => None
  | c :: s' =>
      if c =? 0 then None
      else if p_is_whitespace c then p_eat_whitespace s'
      else Some s
  end.

(** ** String literals *)

Definition is_simple_escape (c : char) : bool :=
  (c =? backslash) || (c =? quote) || (c =? chr "/") || (c =? chr "b")
  || (c =? chr "f") || (c =? chr "n") || (c =? chr "r") || (c =? chr "t").

Definition is_hex (c : char) : bool :=
  ((chr "0" <=? c) && (c <=? chr "9"))
  || ((chr "a" <=? c) && (c <=? chr "f"))
  || ((chr "A" <=? c) && (c <=? chr "F")).

(** The [while(1)] loop of [p_is_valid_string]; the argument is the cursor
    right after the [s++] that opens an iteration. *)
Fixpoint string_body (s : list char) : option (list char) :=
  match s with
  | [] => None
  | c :: s1 =>
      if c =? 0 then None
      else if c =? quote then
        (* break; jump over the closing quote; something must follow *)
        if deref s1 =? 0 then None else Some s1
      else if c =? backslash then
        match s1 with
        | [] => None
        | e :: s2 =>
            if e =? 0 then None
            else if is_simple_escape e then string_body s2
            else if e =? chr "u" then
              match s2 with
              | h1 :: h2 :: h3 :: h4 :: s6 =>
                  if (h1 =? 0) || (h2 =? 0) || (h3 =? 0) || (h4 =? 0) then None
                  else if is_hex h1 && is_hex h2 && is_hex h3 && is_hex h4
                       then string_body s6
                       else None
              | _ => None
              end
            else None
        end
      else string_body s1
  end.

Definition p_is_valid_string (s : list char) : option (list char) :=
  if negb (deref s =? quote) then None else string_body (tl s).

(** ** Number literals *)

Definition is_digit (c : char) : bool := (chr "0" <=? c) && (c <=? chr "9").

(** The digit loop: advance while the current byte is in ['0'..'9']. *)
Fixpoint eat_digits (s : list char) : list char :=
  match s with
  | [] => []
  | c :: s' => if is_digit c then eat_digits s' else s
  end.

Definition is_number_end (c : char) : bool := (c =? chr ",") || p_is_whitespace c.

Definition p_is_valid_number (s : list char) : option (list char) :=
  (* A number may begin with a -. *)
  let s := if deref s =? chr "-" then tl s else s in
  if deref s =? 0 then None
  else if (deref s =? chr "0") && negb (deref (tl s) =? chr ".") then None
  else
    let s := eat_digits s in
    if deref s =? 0 then None
    else if is_number_end (deref s) then Some s
    else
      (* The fractional part: the digit loop starts on the '.' itself. *)
      let frac :=
        if deref s =? chr "." then
          let s := eat_digits s in
          if deref s =? 0 then inl None
          else if is_number_end (deref s) then inl (Some s)
          else inr s
        else inr s in
      match frac with
      | inl r => r
      | inr s =>
          if (deref s =? chr "e") || (deref s =? chr "E") then
            let s := tl s in
            if deref s =? 0 then None
            else
              let sign :=
                if (deref s =? chr "-") || (deref s =? chr "+") then
                  let s := tl s in
                  if deref s =? 0 then None else Some s
                else Some s in
              match sign with
              | None => None
              | Some s =>
                  let s := eat_digits s in
                  if deref s =? 0 then None
                  else if is_number_end (deref s) then Some s
                  else None
              end
          else None
      end.

(** ** Containers: the recursive-descent validator *)

Inductive json_node_type_t :=
| JSON_INVALID
| JSON_OBJECT
| JSON_ARRAY
| JSON_TRUE
| JSON_FALSE
| JSON_NULL
| JSON_NUMBER
| JSON_STRING.

Definition node_type_eqb (a b : json_node_type_t) : bool :=
  match a, b with
  | JSON_INVALID, JSON_INVALID | JSON_OBJECT, JSON_OBJECT
  | JSON_ARRAY, JSON_ARRAY | JSON_TRUE, JSON_TRUE | JSON_FALSE, JSON_FALSE
  | JSON_NULL, JSON_NULL | JSON_NUMBER, JSON_NUMBER
  | JSON_STRING, JSON_STRING => true
  | _, _ => false
  end.

(** Recursion of the C code that is not structural is driven by a fuel
    counter; [OutOfFuel] is kept apart from every result of the code. *)
Inductive run (A : Type) :=
| Done (a : A)
| OutOfFuel.
Arguments Done {A} a.
Arguments OutOfFuel {A}.

(** What follows a value inside a container: optional whitespace, then the
    closing character (return the cursor past it), or a comma, whitespace
    and something that is not the closing character (go round the loop). *)
Inductive after_value :=
| Closed (s : list char)
| Continue (s : list char)
| Malformed.

Definition p_after_value (close : char) (s : option (list char)) : after_value :=
  match s with
  | None => Malformed
  | Some s =>
      match p_eat_whitespace s with
      | None => Malformed
      | Some s =>
          if deref s =? close then Closed (tl s)
          else if deref s =? chr "," then
            match p_eat_whitespace (tl s) with
            | None => Malformed
            | Some s => if deref s =? close then Malformed else Continue s
            end
          else Malformed
      end
  end.

Fixpoint p_is_valid_json_fuel (n : nat) (s : list char) (t : json_node_type_t)
  {struct n} : run (option (list char)) :=
  match n with
  | O => OutOfFuel
  | S n =>
      match t with
      | JSON_OBJECT =>
          if negb (deref s =? chr "{") then Done None
          else match p_eat_whitespace (tl s) with
               | None => Done None
               | Some s => object_members n s
               end
      | JSON_ARRAY =>
          if negb (deref s =? chr "[") then Done None
          else match p_eat_whitespace (tl s) with
               | None => Done None
               | Some s => array_elements n s
               end
      | _ => Done None
      end
  end

with p_is_valid_value (n : nat) (s : list char) {struct n}
  : run (option (list char)) :=
  match n with
  | O => OutOfFuel
  | S n =>
      if deref s =? chr "{" then p_is_valid_json_fuel n s JSON_OBJECT
      else if deref s =? chr "[" then p_is_valid_json_fuel n s JSON_ARRAY
      else if starts_with (cs "true") s || starts_with (cs "null") s
           then Done (Some (drop 4 s))
      else if starts_with (cs "false") s then Done (Some (drop 5 s))
      else if deref s =? quote then Done (p_is_valid_string s)
      else Done (p_is_valid_number s)
  end

with object_members (n : nat) (s : list char) {struct n}
  : run (option (list char)) :=
  match n with
  | O => OutOfFuel
  | S n =>
      if deref s =? chr "}" then Done (Some (tl s))
      else if deref s =? quote then
        match p_is_valid_string s with
        | None => Done None
        | Some s =>
            match p_eat_whitespace s with
            | None => Done None
            | Some s =>
                if negb (deref s =? chr ":") then Done None
                else match p_eat_whitespace (tl s) with
                     | None => Done None
                     | Some s =>
                         match p_is_valid_value n s with
                         | OutOfFuel => OutOfFuel
                         | Done v =>
                             match p_after_value (chr "}") v with
                             | Closed s => Done (Some s)
                             | Continue s => object_members n s
                             | Malformed => Done None
                             end
                         end
                     end
            end
        end
      else Done None
  end

with array_elements (n : nat) (s : list char) {struct n}
  : run (option (list char)) :=
  match n with
  | O => OutOfFuel
  | S n =>
      if deref s =? chr "]" then Done (Some (tl s))
      else
        match p_is_valid_value n s with
        | OutOfFuel => OutOfFuel
        | Done v =>
            match p_after_value (chr "]") v with
            | Closed s => Done (Some s)
            | Continue s => array_elements n s
            | Malformed => Done None
            end
        end
  end.

(** Every call spends at most three units of fuel per byte of its input. *)
Definition json_fuel (s : list char) : nat := (3 * length s + 3)%nat.

Definition p_is_valid_json (s : list char) (t : json_node_type_t)
  : option (list char) :=
  match p_is_valid_json_fuel (json_fuel s) s t with
  | Done r => r
  | OutOfFuel => None
  end.

(** ** Escape decoder *)

(** libc's [strtol(hex, NULL, 16)], after C11 7.22.1.4: leading white
    space, an optional sign, an optional [0x] prefix, then the longest run
    of hexadecimal digits (value 0 when there is none). The decoder calls
    it on four bytes, so the result never overflows. *)
Definition hex_value (c : char) : option Z :=
  if (chr "0" <=? c) && (c <=? chr "9") then Some (c - chr "0")
  else if (chr "a" <=? c) && (c <=? chr "f") then Some (c - chr "a" + 10)
  else if (chr "A" <=? c) && (c <=? chr "F") then Some (c - chr "A" + 10)
  else None.

Fixpoint hex_digits (acc : Z) (s : list char) : Z :=
  match s with
  | [] => acc
  | c :: s' =>
      match hex_value c with
      | Some v => hex_digits (acc * 16 + v) s'
      | None => acc
      end
  end.

Definition isspace (c : char) : bool := (c =? 32) || ((9 <=? c) && (c <=? 13)).

Fixpoint skip_space (s : list char) : list char :=
  match s with
  | [] => []
  | c :: s' => if isspace c then skip_space s' else s
  end.

Definition strtol16 (s : list char) : Z :=
  let s := skip_space s in
  let neg := deref s =? chr "-" in
  let s := if neg || (deref s =? chr "+") then tl s else s in
  let s := if (deref s =? chr "0")
              && ((deref (tl s) =? chr "x") || (deref (tl s) =? chr "X"))
              && is_hex (deref (tl (tl s)))
           then tl (tl s) else s in
  let v := hex_digits 0 s in
  if neg then - v else v.

(** A value stored into a [char] keeps its low eight bits. *)
Definition to_char (x : Z) : char := x mod 256.

(** The [switch] of the simple escapes; any other byte leaves the
    backslash in place. *)
Definition simple_escape (e : char) : char :=
  if e =? backslash then backslash
  else if e =? quote then quote
  else if e =? chr "/" then chr "/"
  else if e =? chr "b" then 8
  else if e =? chr "f" then 12
  else if e =? chr "n" then 10
  else if e =? chr "r" then 13
  else if e =? chr "t" then 9
  else backslash.

(** The bytes written for a [\u] escape, as the three branches of the
    code write them. *)
Definition unicode_bytes (code : Z) : list char :=
  if code <=? 0x7F then [to_char code]
  else if code <=? 0x7FF then
    [to_char (Z.lor 0xC0 (Z.shiftr code 6));
     to_char (Z.lor 0x80 (Z.land code 0x3F))]
  else
    [to_char (Z.lor 0xE0 (Z.shiftr code 12));
     to_char (Z.lor 0x80 (Z.land (Z.shiftr code 6) 0x3F));
     to_char (Z.lor 0x80 (Z.land code 0x3F))].

(** [p_unescape_string] rewrites its buffer in place; the model returns the
    bytes the buffer holds up to its final terminator. The argument is the
    unread part at [it]; what is returned is written at [it] and after.
    (The decoder also prints a debugging line per [\u] escape, which is
    not part of the model.) *)
Fixpoint p_unescape_string (it : list char) : list char :=
  match it with
  | [] => []
  | c :: s1 =>
      if c =? 0 then []
      else if c =? backslash then
        let simple :=
          match s1 with
          | [] => [c]
          | e :: s2 =>
              if e =? 0 then [c] else simple_escape e :: p_unescape_string s2
          end in
        match s1 with
        | u :: h1 :: h2 :: h3 :: h4 :: rest =>
            if (u =? chr "u") && negb (h1 =? 0) && negb (h2 =? 0)
               && negb (h3 =? 0) && negb (h4 =? 0)
            then unicode_bytes (strtol16 [h1; h2; h3; h4]) ++ p_unescape_string rest
            else simple
        | _ => simple
        end
      else c :: p_unescape_string s1
  end.

(** ** The node store *)

(** A [json_t*] is the index of a node in the store; [calloc] appends. The
    store never loses a node before [json_free] ends the life of the tree. *)
Abbreviation ptr := nat (only parsing).

(** Results of libc's [atof] and [round] are kept symbolic: [atof number]
    stands for the double libc returns for the C string [number], and
    [round d] for [round(d)] stored into an [int64_t]. That conversion is
    only defined when the rounded value lies in the range of [int64_t];
    what is proved of these values assumes a numeral in that range, and
    uses no more of the constructors than that equal arguments give
    equal results. *)
Inductive double :=
| D_zero
| D_nan
| atof (number : list char).

Inductive int64_t :=
| Int (z : Z)
| round (d : double).

Record json := mk_json {
  root : ptr;
  parent : option ptr;
  node_type : json_node_type_t;
  backing_data : list char;
  path_name : option (list char);
  children_count : Z;
  children : list ptr;
  value_string : option (list char);
  value_double : double;
  value_int : int64_t
}.

Abbreviation heap := (list json) (only parsing).

(** Outcome of an operation on the store: a value and the new store, the
    process ended by [abort()], a read through a pointer that is not valid
    or outside the object it points into ([Fault]), or no fuel left. *)
Inductive res (A : Type) :=
| Ok (a : A) (h : heap)
| Abort
| Fault
| NoFuel.
Arguments Ok {A} a h.
Arguments Abort {A}.
Arguments Fault {A}.
Arguments NoFuel {A}.

Definition p_build_root_json_node (self : ptr) (data : list char)
  (type : json_node_type_t) : json :=
  {| root := self; parent := None; node_type := type; backing_data := data;
     path_name := None; children_count := -1; children := [];
     value_string := None; value_double := D_zero; value_int := Int 0 |}.

Definition p_build_child_json_node (parent_root : ptr) (parent : ptr)
  (data : list char) (path_name : option (list char))
  (type : json_node_type_t) : json :=
  {| root := parent_root; parent := Some parent; node_type := type;
     backing_data := data; path_name := path_name; children_count := -1;
     children := []; value_string := None; value_double := D_zero;
     value_int := Int 0 |}.

Definition set_children_count (z : Z) (j : json) : json :=
  {| root := root j; parent := parent j; node_type := node_type j;
     backing_data := backing_data j; path_name := path_name j;
     children_count := z; children := children j;
     value_string := value_string j; value_double := value_double j;
     value_int := value_int j |}.

Definition set_children (l : list ptr) (j : json) : json :=
  {| root := root j; parent := parent j; node_type := node_type j;
     backing_data := backing_data j; path_name := path_name j;
     children_count := children_count j; children := l;
     value_string := value_string j; value_double := value_double j;
     value_int := value_int j |}.

Definition set_value_string (s : list char) (j : json) : json :=
  {| root := root j; parent := parent j; node_type := node_type j;
     backing_data := backing_data j; path_name := path_name j;
     children_count := children_count j; children := children j;
     value_string := Some s; value_double := value_double j;
     value_int := value_int j |}.

Definition set_value_number (d : double) (i : int64_t) (j : json) : json :=
  {| root := root j; parent := parent j; node_type := node_type j;
     backing_data := backing_data j; path_name := path_name j;
     children_count := children_count j; children := children j;
     value_string := value_string j; value_double := d; value_int := i |}.

(** ** Lazy loading *)

(** The kind of the value at [start], by the chain of tests of the loader. *)
Definition value_type (start : list char) : json_node_type_t :=
  if deref start =? chr "{" then JSON_OBJECT
  else if deref start =? chr "[" then JSON_ARRAY
  else if starts_with (cs "true") start then JSON_TRUE
  else if starts_with (cs "null") start then JSON_NULL
  else if starts_with (cs "false") start then JSON_FALSE
  else if deref start =? quote then JSON_STRING
  else JSON_NUMBER.

(** The cursor past the value of kind [t] at [start]. *)
Definition value_end (t : json_node_type_t) (start : list char)
  : option (list char) :=
  match t with
  | JSON_OBJECT => p_is_valid_json start JSON_OBJECT
  | JSON_ARRAY => p_is_valid_json start JSON_ARRAY
  | JSON_TRUE | JSON_NULL => Some (drop 4 start)
  | JSON_FALSE => Some (drop 5 start)
  | JSON_STRING => p_is_valid_string start
  | _ => p_is_valid_number start
  end.

(** [j->children_count++], the [realloc] of [j->children], and the new
    child stored in the last slot. *)
Definition add_child (j : ptr) (data : list char)
  (path_name : option (list char)) (type : json_node_type_t) (h : heap)
  : res unit :=
  match h !! j with
  | None => Fault
  | Some nd =>
      let c := length h in
      let nd' := set_children (children nd ++ [c])
                   (set_children_count (children_count nd + 1) nd) in
      Ok tt (<[j := nd']> h
             ++ [p_build_child_json_node (root nd) j data path_name type])
  end.

(** The test [start < end] on two cursors into one buffer. *)
Definition before (start end_ : list char) : bool :=
  (length end_ <? length start)%nat.

(** The bytes of [from] that lie before the cursor [to]. *)
Definition span (from to : list char) : list char :=
  take (length from - length to) from.

(** What the loader does after a child's value: whitespace, then the
    closing character (step over it), or a comma and the next value; in
    every case the loop goes on from the cursor returned. *)
Definition load_after_value (close : char) (start : option (list char))
  : option (list char) :=
  match start with
  | None => None
  | Some start =>
      match p_eat_whitespace start with
      | None => None
      | Some start =>
          if deref start =? close then Some (tl start)
          else if deref start =? chr "," then
            match p_eat_whitespace (tl start) with
            | None => None
            | Some start => if deref start =? close then None else Some start
            end
          else Some start
      end
  end.

Fixpoint load_object (n : nat) (j : ptr) (end_ start : list char) (h : heap)
  : res unit :=
  match n with
  | O => NoFuel
  | S n =>
      if negb (before start end_) then Ok tt h
      else if deref start =? chr "}" then Ok tt h
      else if deref start =? quote then
        let name_start := tl start in
        match p_is_valid_string start with
        | None => Abort
        | Some start =>
            (* name_end = start - 2; the copy takes name_end - name_start + 1 bytes *)
            let path_name :=
              p_unescape_string
                (take (length name_start - length start - 1) name_start) in
            if negb (deref start =? chr ":") then Abort
            else
              match p_eat_whitespace (tl start) with
              | None => Abort
              | Some start =>
                  let t := value_type start in
                  match add_child j start (Some path_name) t h with
                  | Ok _ h =>
                      match load_after_value (chr "}") (value_end t start) with
                      | None => Abort
                      | Some start => load_object n j end_ start h
                      end
                  | r => r
                  end
              end
        end
      else Abort
  end.

Fixpoint load_array (n : nat) (j : ptr) (end_ start : list char) (h : heap)
  : res unit :=
  match n with
  | O => NoFuel
  | S n =>
      if negb (before start end_) then Ok tt h
      else if deref start =? chr "]" then Ok tt h
      else
        match p_eat_whitespace start with
        | None => Abort
        | Some start =>
            let t := value_type start in
            match add_child j start None t h with
            | Ok _ h =>
                match load_after_value (chr "]") (value_end t start) with
                | None => Abort
                | Some start => load_array n j end_ start h
                end
            | r => r
            end
        end
  end.

Definition p_lazy_load (j : option ptr) (h : heap) : res unit :=
  match j with
  | None => Ok tt h
  | Some j =>
      match h !! j with
      | None => Fault
      | Some nd =>
          if negb (children_count nd =? -1) then Ok tt h
          else
            (* Start with the assumption that j has no children. *)
            let nd := set_children_count 0 nd in
            let h := <[j := nd]> h in
            let data := backing_data nd in
            match node_type nd with
            | JSON_NUMBER =>
                match p_is_valid_number data with
                | None => Abort
                | Some end_ =>
                    let d := atof (span data end_) in
                    Ok tt (<[j := set_value_number d (round d) nd]> h)
                end
            | JSON_STRING =>
                match p_is_valid_string data with
                | None => Abort
                | Some end_ =>
                    let s := take (length (tl data) - length end_ - 1) (tl data) in
                    Ok tt (<[j := set_value_string (p_unescape_string s) nd]> h)
                end
            | JSON_OBJECT =>
                match p_is_valid_json data JSON_OBJECT with
                | None => Abort
                | Some end_ =>
                    match p_eat_whitespace (tl data) with
                    | None => Abort
                    | Some start => load_object (S (length start)) j end_ start h
                    end
                end
            | JSON_ARRAY =>
                match p_is_valid_json data JSON_ARRAY with
                | None => Abort
                | Some end_ =>
                    match p_eat_whitespace (tl data) with
                    | None => Abort
                    | Some start => load_array (S (length start)) j end_ start h
                    end
                end
            | _ => Ok tt h
            end
      end
  end.

(** ** Path resolver *)

(** The scan for the end of an object key: stop on ['/'], ['['] or the
    terminator. The result is the cursor on that delimiter. *)
Fixpoint name_end (end_ : list char) : list char :=
  match end_ with
  | [] => []
  | c :: rest =>
      if negb (c =? chr "/") && negb (c =? chr "[") && negb (c =? 0)
      then name_end rest
      else end_
  end.

(** The scan for the end of an array index. Its loop runs while the
    current byte differs from [']'] or differs from the terminator; on the
    terminator the test still holds and the cursor leaves the string,
    which is the result [None]. *)
Fixpoint index_end (end_ : list char) : option (list char) :=
  match end_ with
  | [] => if negb (0 =? chr "]") || negb (0 =? 0) then None else Some []
  | c :: rest =>
      if negb (c =? chr "]") || negb (c =? 0) then index_end rest
      else Some end_
  end.

(** [strcmp(a, b) == 0] on two buffers. *)
Fixpoint list_eqb (a b : list char) : bool :=
  match a, b with
  | [], [] => true
  | x :: a', y :: b' => (x =? y) && list_eqb a' b'
  | _, _ => false
  end.

Definition strcmp_eq (a b : list char) : bool := list_eqb (c_str a) (c_str b).

(** libc's [atoi]: white space, an optional sign, decimal digits. *)
Fixpoint dec_digits (acc : Z) (s : list char) : Z :=
  match s with
  | [] => acc
  | c :: s' => if is_digit c then dec_digits (acc * 10 + (c - chr "0")) s' else acc
  end.

Definition atoi (s : list char) : Z :=
  let s := skip_space s in
  let neg := deref s =? chr "-" in
  let s := if neg || (deref s =? chr "+") then tl s else s in
  let v := dec_digits 0 s in
  if neg then - v else v.

Inductive child_search :=
| Found (c : ptr)
| Missing
| BadRead.

(** The [for] loop over the first [count] children of an object: the first
    child whose name equals [name]. *)
Fixpoint find_child (h : heap) (name : list char) (kids : list ptr)
  (count : nat) : child_search :=
  match count with
  | O => Missing
  | S count =>
      match kids with
      | [] => BadRead
      | c :: kids =>
          match h !! c with
          | None => BadRead
          | Some cn =>
              match path_name cn with
              | None => BadRead
              | Some pn =>
                  if strcmp_eq name pn then Found c
                  else find_child h name kids count
              end
          end
      end
  end.

Fixpoint p_traverse_json_fuel (n : nat) (j : option ptr) (path : list char)
  (h : heap) : res (option ptr) :=
  match n with
  | O => NoFuel
  | S n =>
      if deref path =? 0 then Ok j h
      else
        match j with
        | None => Ok None h
        | Some j =>
            match h !! j with
            | None => Fault
            | Some nd =>
                if strcmp_eq path (cs "..") then Ok (parent nd) h
                else if starts_with (cs "../") path || starts_with (cs "..[") path
                then p_traverse_json_fuel n (parent nd) (drop 3 path) h
                else
                  match (if children_count nd =? -1
                         then p_lazy_load (Some j) h else Ok tt h) with
                  | Ok _ h =>
                      match h !! j with
                      | None => Fault
                      | Some nd =>
                          match children nd with
                          | [] => Ok None h
                          | _ :: _ =>
                              match node_type nd with
                              | JSON_OBJECT =>
                                  let delim := name_end path in
                                  let name := span path delim in
                                  match find_child h name (children nd)
                                          (Z.to_nat (children_count nd)) with
                                  | Found c =>
                                      if deref delim =? 0 then Ok (Some c) h
                                      else p_traverse_json_fuel n (Some c) (tl delim) h
                                  | Missing => Ok None h
                                  | BadRead => Fault
                                  end
                              | JSON_ARRAY =>
                                  match index_end path with
                                  | None => Fault
                                  | Some end_ =>
                                      if deref end_ =? 0 then Ok None h
                                      else if negb (deref (tl end_) =? chr "[")
                                              && negb (deref (tl end_) =? chr "/")
                                              && negb (deref (tl end_) =? 0)
                                      then Ok None h
                                      else
                                        let idx := atoi (span path end_) in
                                        if idx >=? children_count nd then Ok None h
                                        else if idx <? 0 then Fault
                                        else
                                          match children nd !! Z.to_nat idx with
                                          | None => Fault
                                          | Some c =>
                                              if deref (tl end_) =? 0 then Ok (Some c) h
                                              else p_traverse_json_fuel n (Some c)
                                                     (tl (tl end_)) h
                                          end
                                  end
                              | _ => Ok None h
                              end
                          end
                      end
                  | Abort => Abort
                  | Fault => Fault
                  | NoFuel => NoFuel
                  end
            end
        end
  end.

(** Every recursive call is on a strictly shorter path. *)
Definition p_traverse_json (j : option ptr) (path : list char) (h : heap)
  : res (option ptr) :=
  p_traverse_json_fuel (S (length path)) j path h.

(** ** Public interface *)

(** The first loop and the second loop of [p_trim_whitespace] have one
    shape: drop white bytes from one end, giving up when none is left. *)
Fixpoint trim_loop (it : list char) : option (list char) :=
  match it with
  | [] => None
  | c :: it' =>
      if p_is_whitespace c then
        match it' with
        | [] => None
        | _ :: _ => trim_loop it'
        end
      else Some it
  end.

(** The caller's memory at [s] is the list [s] followed by NUL bytes. The
    function is only called with [length] not zero, and the model is that
    of the function for such a [length] only: with [length] zero the C
    code reads the byte before [s]. *)
Definition p_trim_whitespace (s : list char) (length : nat)
  : option (list char) :=
  match trim_loop (take length (s ++ repeat 0 length)) with
  | None => None
  | Some it =>
      match trim_loop (rev it) with
      | None => None
      | Some rit => Some (c_str (rev rit))
      end
  end.

(** The scan from [s + i] down to [s] for a NUL byte. *)
Fixpoint has_inner_nul (s : list char) (i : nat) : bool :=
  match i with
  | O => false
  | S i' => if nth i s 0 =? 0 then true else has_inner_nul s i'
  end.

Definition json_parse (s : list char) (length : nat) : option (heap * ptr) :=
  if (length =? 0)%nat then None
  else if negb (nth length s 0 =? 0) then None
  else if has_inner_nul s (length - 1) then None
  else
    match p_trim_whitespace s length with
    | None => None
    | Some data =>
        if negb (deref data =? chr "{") && negb (deref data =? chr "[") then None
        else
          let type := if deref data =? chr "[" then JSON_ARRAY else JSON_OBJECT in
          match p_is_valid_json data type with
          | None => None
          | Some _ => Some ([p_build_root_json_node 0%nat data type], 0%nat)
          end
    end.

Definition json_traverse (j : option ptr) (path : list char) (h : heap)
  : res (option ptr) :=
  match j with
  | None => Ok None h
  | Some j =>
      match h !! j with
      | None => Fault
      | Some nd =>
          if deref path =? chr "/"
          then p_traverse_json (Some (root nd)) (tl path) h
          else p_traverse_json (Some j) path h
      end
  end.

(** Reads [j] after loading it when its children are still unknown. *)
Definition loaded (j : ptr) (h : heap) : res json :=
  match h !! j with
  | None => Fault
  | Some nd =>
      match (if children_count nd =? -1
             then p_lazy_load (Some j) h else Ok tt h) with
      | Ok _ h =>
          match h !! j with
          | None => Fault
          | Some nd => Ok nd h
          end
      | Abort => Abort
      | Fault => Fault
      | NoFuel => NoFuel
      end
  end.

Definition json_value_as_string (j : option ptr) (h : heap)
  : res (option (list char)) :=
  match j with
  | None => Ok None h
  | Some j =>
      match h !! j with
      | None => Fault
      | Some nd =>
          if negb (node_type_eqb (node_type nd) JSON_STRING) then Ok None h
          else match loaded j h with
               | Ok nd h => Ok (option_map c_str (value_string nd)) h
               | Abort => Abort
               | Fault => Fault
               | NoFuel => NoFuel
               end
      end
  end.

Definition json_value_as_double (j : option ptr) (h : heap) : res double :=
  match j with
  | None => Ok D_nan h
  | Some j =>
      match h !! j with
      | None => Fault
      | Some nd =>
          if negb (node_type_eqb (node_type nd) JSON_NUMBER) then Ok D_nan h
          else match loaded j h with
               | Ok nd h => Ok (value_double nd) h
               | Abort => Abort
               | Fault => Fault
               | NoFuel => NoFuel
               end
      end
  end.

Definition json_value_as_int (j : option ptr) (h : heap) : res int64_t :=
  match j with
  | None => Ok (Int 0) h
  | Some j =>
      match h !! j with
      | None => Fault
      | Some nd =>
          if node_type_eqb (node_type nd) JSON_TRUE then Ok (Int 1) h
          else if negb (node_type_eqb (node_type nd) JSON_NUMBER) then Ok (Int 0) h
          else match loaded j h with
               | Ok nd h => Ok (value_int nd) h
               | Abort => Abort
               | Fault => Fault
               | NoFuel => NoFuel
               end
      end
  end.

(** The conversion of an [int64_t] to [int]. *)
Definition to_int (z : Z) : Z := (z + 2 ^ 31) mod 2 ^ 32 - 2 ^ 31.

Definition json_children_count (j : option ptr) (h : heap) : res Z :=
  match j with
  | None => Ok 0 h
  | Some j =>
      match loaded j h with
      | Ok nd h => Ok (to_int (children_count nd)) h
      | Abort => Abort
      | Fault => Fault
      | NoFuel => NoFuel
      end
  end.

Definition json_get_child (j : option ptr) (n : Z) (h : heap)
  : res (option ptr) :=
  match j with
  | None => Ok None h
  | Some j =>
      match loaded j h with
      | Ok nd h =>
          if (n <? 0) || (n >=? children_count nd) then Ok None h
          else match children nd !! Z.to_nat n with
               | None => Fault
               | Some c => Ok (Some c) h
               end
      | Abort => Abort
      | Fault => Fault
      | NoFuel => NoFuel
      end
  end.

(** The name is a C string or a null pointer; a null node has the empty
    string for a name. *)
Definition json_get_name (j : option ptr) (h : heap)
  : res (option (list char)) :=
  match j with
  | None => Ok (Some []) h
  | Some j =>
      match h !! j with
      | None => Fault
      | Some nd => Ok (option_map c_str (path_name nd)) h
      end
  end.

Definition json_get_data (j : option ptr) (h : heap) : res (list char) :=
  match j with
  | None => Ok [] h
  | Some j =>
      match h !! j with
      | None => Fault
      | Some nd =>
          match h !! root nd with
          | None => Fault
          | Some r => Ok (backing_data r) h
          end
      end
  end.

Definition json_get_type (j : option ptr) (h : heap) : res json_node_type_t :=
  match j with
  | None => Ok JSON_INVALID h
  | Some j =>
      match h !! j with
      | None => Fault
      | Some nd => Ok (node_type nd) h
      end
  end.

(** ** Freeing the tree *)

(** [free] on the block of a node ends the life of that node: reading it
    afterwards, or freeing it again, is a fault. The model carries the
    list of the node blocks freed so far, in the order of the calls. The
    other blocks (the name, the string value and the array of children of
    a node, the text of the root) belong to one node each and are freed
    right before that node. *)
Definition is_freed (j : ptr) (freed : list ptr) : bool :=
  existsb (Nat.eqb j) freed.

(** The loop [for(int i = 0; i < j->children_count; i++)
    p_free_json_node(j->children[i]);] of both functions: each test reads
    the count from node [j], each round reads the next slot of the array. *)
Fixpoint free_children
  (free_node : ptr -> list ptr -> run (option (list ptr)))
  (j : ptr) (kids : list ptr) (count : nat) (freed : list ptr)
  : run (option (list ptr)) :=
  if is_freed j freed then Done None
  else
    match count with
    | O => Done (Some freed)
    | S count =>
        match kids with
        | [] => Done None
        | c :: kids =>
            match free_node c freed with
            | Done (Some freed) => free_children free_node j kids count freed
            | r => r
            end
        end
    end.

Fixpoint p_free_json_node_fuel (n : nat) (h : heap) (j : ptr)
  (freed : list ptr) : run (option (list ptr)) :=
  match n with
  | O => OutOfFuel
  | S n =>
      match h !! j with
      | None => Done None
      | Some nd =>
          match free_children (p_free_json_node_fuel n h) j (children nd)
                  (Z.to_nat (children_count nd)) freed with
          | Done (Some freed) => Done (Some (freed ++ [j]))
          | r => r
          end
      end
  end.

(** A chain of children is never longer than the store. *)
Definition p_free_json_node (h : heap) (j : ptr) (freed : list ptr)
  : run (option (list ptr)) :=
  p_free_json_node_fuel (length h) h j freed.

(** The value returned and the node blocks freed, in order. *)
Definition json_free (j : option ptr) (h : heap)
  : run (option (Z * list ptr)) :=
  match j with
  | None => Done (Some (0, []))
  | Some j =>
      match h !! j with
      | None => Done None
      | Some nd =>
          if negb (root nd =? j)%nat then Done (Some (0, []))
          else
            match free_children (p_free_json_node h) j (children nd)
                    (Z.to_nat (children_count nd)) [] with
            | Done (Some freed) => Done (Some (1, freed ++ [j]))
            | Done None => Done None
            | OutOfFuel => OutOfFuel
            end
      end
  end.

(** * Notions used to state the properties *)

(** A run of white space. *)
Definition white (ws : list char) : Prop :=
  Forall (fun c => p_is_whitespace c = true) ws.

(** A run of the validator that ends with an outcome of the code, whose
    cursor (if any) is a later position of the input [s]. *)
Definition ends_later (strict : bool) (s : list char)
  (r : run (option (list char))) : Prop :=
  exists v, r = Done v /\
    forall e, v = Some e ->
      e `suffix_of` s /\ (if strict then length e < length s else length e <= length s)%nat.

(** The cursor on the integer part of a number: past the optional ['-']. *)
Definition integer_part (s : list char) : list char :=
  if deref s =? chr "-" then tl s else s.

(** UTF-8 as the specification words it: one byte for code points up to
    0x7F, two bytes up to 0x7FF, three bytes otherwise. *)
Definition utf8_encode (cp : Z) : list char :=
  if cp <=? 0x7F then [cp]
  else if cp <=? 0x7FF then [0xC0 + cp / 64; 0x80 + cp mod 64]
  else [0xE0 + cp / 4096; 0x80 + (cp / 64) mod 64; 0x80 + cp mod 64].

(** The value of one hexadecimal digit. *)
Definition hex_digit (c : char) : Z :=
  match hex_value c with
  | Some v => v
  | None => 0
  end.

(** The code point written by four hexadecimal digits. *)
Definition code_point (h1 h2 h3 h4 : char) : Z :=
  4096 * hex_digit h1 + 256 * hex_digit h2 + 16 * hex_digit h3 + hex_digit h4.

(** The operations of the public interface on a live tree, and the store
    each leaves behind when it returns. *)
Inductive op :=
| Traverse (j : option ptr) (path : list char)
| ValueAsString (j : option ptr)
| ValueAsDouble (j : option ptr)
| ValueAsInt (j : option ptr)
| ChildrenCount (j : option ptr)
| GetChild (j : option ptr) (n : Z)
| GetName (j : option ptr)
| GetData (j : option ptr)
| GetType (j : option ptr).

(** The store an operation leaves when it returns. *)
Definition store_of {A} (r : res A) : option heap :=
  match r with
  | Ok _ h => Some h
  | _ => None
  end.

Definition exec (o : op) (h : heap) : option heap :=
  match o with
  | Traverse j path => store_of (json_traverse j path h)
  | ValueAsString j => store_of (json_value_as_string j h)
  | ValueAsDouble j => store_of (json_value_as_double j h)
  | ValueAsInt j => store_of (json_value_as_int j h)
  | ChildrenCount j => store_of (json_children_count j h)
  | GetChild j n => store_of (json_get_child j n h)
  | GetName j => store_of (json_get_name j h)
  | GetData j => store_of (json_get_data j h)
  | GetType j => store_of (json_get_type j h)
  end.

(** One operation of the interface that returns. *)
Definition step (h h' : heap) : Prop := exists o, exec o h = Some h'.

(** The stores a program can see: that of a successful [json_parse], then
    any number of operations that return. *)
Definition reachable (rt : ptr) (h : heap) : Prop :=
  exists s len h0, json_parse s len = Some (h0, rt) /\ rtc step h0 h.

(** What ties a child to its parent: under an object, the child's name is
    the decoding of the string literal that stands, with a colon and white
    space, right before the child's own text; elsewhere it has no name. *)
Definition member_key (p c : json) : Prop :=
  match node_type p with
  | JSON_OBJECT =>
      exists pre raw ws,
        backing_data p
        = pre ++ quote :: raw ++ quote :: chr ":" :: ws ++ backing_data c
        /\ white ws
        /\ p_is_valid_string (quote :: raw ++ quote :: chr ":" :: ws ++ backing_data c)
           = Some (chr ":" :: ws ++ backing_data c)
        /\ path_name c = Some (p_unescape_string raw)
  | _ => path_name c = None
  end.

(** The shape of a store: the root has neither parent nor name, and each
    child listed by a node is a node whose parent is that node and whose
    name follows [member_key]. *)
Record wf (rt : ptr) (h : heap) : Prop := {
  wf_root : exists r, h !! rt = Some r /\ parent r = None /\ path_name r = None;
  wf_children : forall j nd c,
    h !! j = Some nd -> elem_of c (children nd) ->
    exists cn, h !! c = Some cn /\ parent cn = Some j /\ member_key nd cn
}.

(** Two states of one node: everything but the lazily filled fields. *)
Definition same_id (a b : json) : Prop :=
  root a = root b /\ parent a = parent b /\ node_type a = node_type b
  /\ backing_data a = backing_data b /\ path_name a = path_name b.

(** Nodes whose children are known stay as they are. *)
Definition keeps_loaded (h h' : heap) : Prop :=
  forall k x, h !! k = Some x -> children_count x <> -1 -> h' !! k = Some x.

(** The condition under which a child may be added below a node of kind
    [T] whose text is [D]. *)
Definition key_cond (T : json_node_type_t) (D data : list char)
  (pn : option (list char)) : Prop :=
  match T with
  | JSON_OBJECT =>
      exists pre raw ws,
        D = pre ++ quote :: raw ++ quote :: chr ":" :: ws ++ data
        /\ white ws
        /\ p_is_valid_string (quote :: raw ++ quote :: chr ":" :: ws ++ data)
           = Some (chr ":" :: ws ++ data)
        /\ pn = Some (p_unescape_string raw)
  | _ => pn = None
  end.

(** The invariant of the two loops of [p_lazy_load] on node [j], started
    in store [h0]. *)
Definition loading (rt j : ptr) (T : json_node_type_t) (D : list char)
  (h0 h : list json) : Prop :=
  wf rt h
  /\ (forall k x, k <> j -> h0 !! k = Some x -> h !! k = Some x)
  /\ exists nd, h !! j = Some nd /\ 0 <= children_count nd
                /\ node_type nd = T /\ backing_data nd = D.

(** What each operation guarantees of the store it leaves. *)
Definition preserved (rt : ptr) (h h' : list json) : Prop :=
  wf rt h' /\ keeps_loaded h h'.

(** A path made of one object key: not empty, not [..], and free of the
    separators ['/'] and ['[']. *)
Definition plain_key (seg : list char) : bool :=
  negb (deref seg =? 0)
  && negb (strcmp_eq seg (cs ".."))
  && forallb (fun c => negb (c =? chr "/") && negb (c =? chr "[") && negb (c =? 0)) seg.

(** A tree to try the operations on: the document [{"a":1 ,"b":[true ] }],
    parsed, then its root and its member [b] loaded. *)
Definition sample_doc : list char := dq "{'a':1 ,'b':[true ] }".

Definition sample_parsed : list json :=
  match json_parse sample_doc (length sample_doc) with
  | Some (h, _) => h
  | None => []
  end.

Definition sample_root_loaded : list json :=
  match json_children_count (Some 0%nat) sample_parsed with
  | Ok _ h => h
  | _ => []
  end.

Definition sample_store : list json :=
  match json_children_count (Some 2%nat) sample_root_loaded with
  | Ok _ h => h
  | _ => []
  end.

(** One call of the loader that returns. *)
Definition lazy_step (h h' : heap) : Prop :=
  exists j, p_lazy_load (Some j) h = Ok tt h'.

(** The values a loaded leaf holds: for a string the decoding of the
    bytes between its quotes, for a number what libc makes of the bytes
    of the numeral. *)
Definition cached (nd : json) : Prop :=
  match node_type nd with
  | JSON_STRING =>
      exists e, p_is_valid_string (backing_data nd) = Some e
        /\ value_string nd
           = Some (p_unescape_string
                     (take (length (tl (backing_data nd)) - length e - 1)
                        (tl (backing_data nd))))
  | JSON_NUMBER =>
      exists e, p_is_valid_number (backing_data nd) = Some e
        /\ value_double nd = atof (span (backing_data nd) e)
        /\ value_int nd = round (atof (span (backing_data nd) e))
  | _ => True
  end.

(** What holds of node [j] in a store of [n] nodes built over the text [D]
    with root [rt]: its root field, its text as a position of [D] that
    passes the validator of its kind, its kind as the first bytes of its
    text give it, its count next to its children, children allocated after
    it, a parent allocated before it, and its values once it is loaded. *)
Definition node_ok (rt : ptr) (D : list char) (n : nat) (j : ptr) (nd : json)
  : Prop :=
  root nd = rt
  /\ backing_data nd `suffix_of` D
  /\ is_Some (value_end (node_type nd) (backing_data nd))
  /\ node_type nd = value_type (backing_data nd)
  /\ (children_count nd = -1 /\ children nd = []
      \/ children_count nd = Z.of_nat (length (children nd)))
  /\ Forall (fun c => (j < c < n)%nat) (children nd)
  /\ match parent nd with
     | Some p => (p < j)%nat
     | None => j = rt
     end
  /\ (children_count nd <> -1 -> cached nd).

(** The store of a tree over the text [D]. *)
Definition shape (rt : ptr) (D : list char) (h : heap) : Prop :=
  (exists r, h !! rt = Some r /\ backing_data r = D)
  /\ forall j nd, h !! j = Some nd -> node_ok rt D (length h) j nd.

(** The same while the loader fills node [j]: the count of [j] follows
    its children at each round of the loop. *)
Definition filling (rt : ptr) (D : list char) (j : ptr) (h : heap) : Prop :=
  shape rt D h
  /\ exists nd, h !! j = Some nd
                /\ children_count nd = Z.of_nat (length (children nd)).

(** The name [json_get_name] returns for [c] is the C string [name]. *)
Definition named (h : list json) (name : list char) (c : ptr) : Prop :=
  json_get_name (Some c) h = Ok (Some (c_str name)) h.

(** Each node is listed once by its parent: the array of children of a
    node holds no pointer twice, and a node that has a parent is among
    the children of that parent. *)
Definition linked (h : heap) : Prop :=
  forall k nd, h !! k = Some nd ->
    NoDup (children nd)
    /\ forall p, parent nd = Some p ->
         exists pn, h !! p = Some pn /\ elem_of k (children pn).

(** [up h k a]: following the [parent] fields from node [k] leads to [a];
    [k] is [a] or lies below it. *)
Inductive up (h : heap) : ptr -> ptr -> Prop :=
| up_refl k : up h k k
| up_step k nd p a :
    h !! k = Some nd -> parent nd = Some p -> up h p a -> up h k a.

(** [a] is a position of the buffer after the position [b]. *)
Definition strictly_later (a b : list char) : Prop :=
  a `suffix_of` b /\ (length a < length b)%nat.

(** The children of each node stand in the order of the text: the text
    of a child lies inside the text of its node, and after the start of
    the text of every child listed before it. *)
Definition ordered (h : heap) : Prop :=
  forall j nd, h !! j = Some nd ->
    forall i c cn, children nd !! i = Some c -> h !! c = Some cn ->
      strictly_later (backing_data cn) (backing_data nd)
      /\ forall i' c' cn', (i < i')%nat ->
           children nd !! i' = Some c' -> h !! c' = Some cn' ->
           strictly_later (backing_data cn') (backing_data cn).

(** The same while the loader fills node [j], its cursor on [s]: the
    cursor is inside the text of [j], past the start of every child that
    [j] has so far. *)
Definition ordering (j : ptr) (s : list char) (h : heap) : Prop :=
  ordered h
  /\ exists nd, h !! j = Some nd
       /\ strictly_later s (backing_data nd)
       /\ forall c cn, elem_of c (children nd) -> h !! c = Some cn ->
            strictly_later s (backing_data cn).

(** The bytes between the quotes of a string literal, as a sequence of
    items: a byte that is no NUL, quote or backslash; a backslash and one
    of the eight simple escapes; a backslash, [u] and four hexadecimal
    digits. *)
Inductive string_chars : list char -> Prop :=
| chars_nil : string_chars []
| chars_plain c s :
    c <> 0 -> c <> quote -> c <> backslash ->
    string_chars s -> string_chars (c :: s)
| chars_escape e s :
    is_simple_escape e = true ->
    string_chars s -> string_chars (backslash :: e :: s)
| chars_unicode h1 h2 h3 h4 s :
    is_hex h1 = true -> is_hex h2 = true -> is_hex h3 = true -> is_hex h4 = true ->
    string_chars s -> string_chars (backslash :: chr "u" :: h1 :: h2 :: h3 :: h4 :: s).

(** The decoder as the specification words it: each simple escape maps
    to its single byte, each [\u] escape with four hexadecimal digits to
    the UTF-8 encoding of its code point, every other byte to itself. *)
Definition spec_escape (e : char) : option char :=
  if e =? backslash then Some 92
  else if e =? quote then Some 34
  else if e =? chr "/" then Some 47
  else if e =? chr "b" then Some 8
  else if e =? chr "f" then Some 12
  else if e =? chr "n" then Some 10
  else if e =? chr "r" then Some 13
  else if e =? chr "t" then Some 9
  else None.

Fixpoint spec_decode (s : list char) : list char :=
  match s with
  | [] => []
  | c :: s1 =>
      if c =? backslash then
        match s1 with
        | [] => []
        | e :: s2 =>
            match spec_escape e with
            | Some b => b :: spec_decode s2
            | None =>
                if e =? chr "u" then
                  match s2 with
                  | h1 :: h2 :: h3 :: h4 :: rest =>
                      utf8_encode (code_point h1 h2 h3 h4) ++ spec_decode rest
                  | _ => []
                  end
                else []
            end
        end
      else c :: spec_decode s1
  end.





(** The bytes of the numeral at the start of a text, and the numerals
    whose value lies within the range of [int64_t] for certain: an
    optional minus sign and at most eighteen digits. *)
Definition numeral (data : list char) : list char :=
  match p_is_valid_number data with
  | Some e => span data e
  | None => data
  end.

Definition small_numeral (txt : list char) : bool :=
  forallb is_digit (integer_part txt)
  && (length (integer_part txt) <=? 18)%nat.






(** A run of decimal digits, possibly empty. *)
Definition digits (ds : list char) : Prop :=
  Forall (fun c => is_digit c = true) ds.

(** Nothing, or [e] or [E], an optional sign and a run of digits. *)
Definition exponent_part (ex : list char) : Prop :=
  ex = []
  \/ exists e sg ds,
       ex = e :: sg ++ ds
       /\ (e = chr "e" \/ e = chr "E")
       /\ (sg = [] \/ sg = [chr "+"] \/ sg = [chr "-"])
       /\ digits ds.

(** * Properties *)

(** ** Cursors only move forward *)

(** Folds the character constants of a goal into their codes. *)
Ltac chars :=
  repeat match goal with
         | |- context [chr ?a] =>
             let v := eval vm_compute in (chr a) in change (chr a) with v
         | H : context [chr ?a] |- _ =>
             let v := eval vm_compute in (chr a) in change (chr a) with v in H
         end;
  unfold quote, backslash in *.

Lemma eat_whitespace_spec s r :
  p_eat_whitespace s = Some r ->
  exists ws, s = ws ++ r /\ white ws /\ deref r <> 0 /\ p_is_whitespace (deref r) = false.
Proof.
  induction s as [|c s IH]; simpl; [discriminate|].
  destruct (c =? 0) eqn:E0; [discriminate|].
  destruct (p_is_whitespace c) eqn:Ew.
  - intros H. destruct (IH H) as (ws & -> & Hw & Hr).
    exists (c :: ws). split; [reflexivity|]. split; [|exact Hr].
    constructor; assumption.
  - intros [= <-]. exists []. simpl. repeat split; [constructor| |assumption].
    apply Z.eqb_neq. assumption.
Qed.

Lemma string_body_spec_len n : forall s r,
  (length s <= n)%nat -> string_body s = Some r ->
  exists body, s = body ++ quote :: r /\ deref r <> 0.
Proof.
  induction n as [|n IH]; intros s r Hn.
  - destruct s; [discriminate|simpl in Hn; lia].
  - destruct s as [|c s1]; [discriminate|]. simpl in Hn. simpl.
    destruct (c =? 0); [discriminate|].
    destruct (c =? quote) eqn:Eq.
    { apply Z.eqb_eq in Eq. subst c.
      destruct (deref s1 =? 0) eqn:E; [discriminate|].
      intros [= <-]. exists []. split; [reflexivity|]. apply Z.eqb_neq. assumption. }
    destruct (c =? backslash).
    2:{ intros H. apply IH in H; [|lia]. destruct H as (b & -> & Hr).
        exists (c :: b). split; [reflexivity|assumption]. }
    destruct s1 as [|e s2]; [discriminate|]. simpl in Hn.
    destruct (e =? 0); [discriminate|].
    destruct (is_simple_escape e).
    { intros H. apply IH in H; [|lia]. destruct H as (b & -> & Hr).
      exists (c :: e :: b). split; [reflexivity|assumption]. }
    destruct (e =? chr "u"); [|discriminate].
    destruct s2 as [|h1 [|h2 [|h3 [|h4 s6]]]]; try discriminate. simpl in Hn.
    destruct ((h1 =? 0) || (h2 =? 0) || (h3 =? 0) || (h4 =? 0)); [discriminate|].
    destruct (is_hex h1 && is_hex h2 && is_hex h3 && is_hex h4); [|discriminate].
    intros H. apply IH in H; [|lia]. destruct H as (b & -> & Hr).
    exists (c :: e :: h1 :: h2 :: h3 :: h4 :: b). split; [reflexivity|assumption].
Qed.

Lemma valid_string_spec s r :
  p_is_valid_string s = Some r ->
  exists body, s = quote :: body ++ quote :: r /\ deref r <> 0.
Proof.
  unfold p_is_valid_string. destruct (deref s =? quote) eqn:E; [|discriminate].
  simpl. intros H. apply Z.eqb_eq in E.
  destruct s as [|c t]; [discriminate|]. simpl in E. subst c. simpl in H.
  apply (string_body_spec_len (length t)) in H; [|lia].
  destruct H as (b & -> & Hr). exists b. split; [reflexivity|assumption].
Qed.

Lemma eat_digits_suffix s : exists ds, s = ds ++ eat_digits s.
Proof.
  induction s as [|c s [ds IH]]; [exists []; reflexivity|]. simpl.
  destruct (is_digit c).
  - exists (c :: ds). simpl. congruence.
  - exists []. reflexivity.
Qed.

Lemma tl_suffix (s : list char) : exists pre, s = pre ++ tl s.
Proof. destruct s as [|c t]; [exists []|exists [c]]; reflexivity. Qed.

(** A number that validates ends on a comma or on white space, and the
    cursor returned is a later position of the same buffer. *)
Lemma valid_number_spec s r :
  p_is_valid_number s = Some r ->
  is_number_end (deref r) = true /\ exists pre, s = pre ++ r.
Proof.
  unfold p_is_valid_number.
  set (s0 := if deref s =? chr "-" then tl s else s).
  assert (H0 : exists p0, s = p0 ++ s0).
  { unfold s0. destruct (deref s =? chr "-"); [apply tl_suffix|exists []; reflexivity]. }
  destruct H0 as [p0 H0].
  destruct (deref s0 =? 0); [discriminate|].
  destruct ((deref s0 =? chr "0") && negb (deref (tl s0) =? chr ".")); [discriminate|].
  destruct (eat_digits_suffix s0) as [d1 H1].
  set (s1 := eat_digits s0) in *.
  destruct (deref s1 =? 0); [discriminate|].
  destruct (is_number_end (deref s1)) eqn:E1.
  { intros [= <-]. split; [assumption|]. exists (p0 ++ d1). rewrite <- app_assoc. congruence. }
  assert (Hexp : forall s2, (exists p2, s1 = p2 ++ s2) ->
    (if (deref s2 =? chr "e") || (deref s2 =? chr "E")
     then let s3 := tl s2 in
          if deref s3 =? 0 then None
          else match (if (deref s3 =? chr "-") || (deref s3 =? chr "+")
                      then let s4 := tl s3 in if deref s4 =? 0 then None else Some s4
                      else Some s3) with
               | None => None
               | Some s4 => let s5 := eat_digits s4 in
                            if deref s5 =? 0 then None
                            else if is_number_end (deref s5) then Some s5 else None
               end
     else None) = Some r ->
    is_number_end (deref r) = true /\ exists pre, s = pre ++ r).
  { intros s2 [p2 H2].
    destruct ((deref s2 =? chr "e") || (deref s2 =? chr "E")); [|discriminate].
    cbv zeta. destruct (tl_suffix s2) as [p3 H3].
    set (s3 := tl s2) in *.
    destruct (deref s3 =? 0); [discriminate|].
    assert (Hs : forall s4, (exists p4, s3 = p4 ++ s4) ->
      (let s5 := eat_digits s4 in
       if deref s5 =? 0 then None
       else if is_number_end (deref s5) then Some s5 else None) = Some r ->
      is_number_end (deref r) = true /\ exists pre, s = pre ++ r).
    { intros s4 [p4 H4]. cbv zeta.
      destruct (eat_digits_suffix s4) as [d5 H5].
      set (s5 := eat_digits s4) in *.
      destruct (deref s5 =? 0); [discriminate|].
      destruct (is_number_end (deref s5)) eqn:E5; [|discriminate].
      intros [= <-]. split; [assumption|].
      exists (p0 ++ d1 ++ p2 ++ p3 ++ p4 ++ d5).
      rewrite H0 at 1. rewrite H1 at 1. rewrite H2 at 1. rewrite H3 at 1.
      rewrite H4 at 1. rewrite H5 at 1. rewrite <- !app_assoc. reflexivity. }
    destruct ((deref s3 =? chr "-") || (deref s3 =? chr "+")).
    - cbv zeta. destruct (tl_suffix s3) as [p4 H4].
      destruct (deref (tl s3) =? 0); [discriminate|].
      apply Hs. exists p4. assumption.
    - apply Hs. exists []. reflexivity. }
  destruct (deref s1 =? chr ".").
  - cbv zeta. destruct (eat_digits_suffix s1) as [d2 H2].
    set (s2 := eat_digits s1) in *.
    destruct (deref s2 =? 0); [discriminate|].
    destruct (is_number_end (deref s2)) eqn:E2.
    + intros [= <-]. split; [assumption|].
      exists (p0 ++ d1 ++ d2). rewrite H0 at 1. rewrite H1 at 1. rewrite H2 at 1.
      rewrite <- !app_assoc. reflexivity.
    + apply Hexp. exists d2. assumption.
  - apply Hexp. exists []. reflexivity.
Qed.

Lemma eat_whitespace_suffix s r :
  p_eat_whitespace s = Some r -> r `suffix_of` s.
Proof. intros H. destruct (eat_whitespace_spec _ _ H) as (ws & -> & _). by exists ws. Qed.

Lemma valid_string_suffix s r :
  p_is_valid_string s = Some r -> r `suffix_of` s /\ (length r < length s)%nat.
Proof.
  intros H. destruct (valid_string_spec _ _ H) as (b & -> & _). split.
  - exists (quote :: b ++ [quote]). simpl. by rewrite <- app_assoc.
  - simpl. rewrite length_app. simpl. lia.
Qed.

Lemma valid_number_suffix s r :
  p_is_valid_number s = Some r -> r `suffix_of` s.
Proof. intros H. destruct (valid_number_spec _ _ H) as (_ & pre & ->). by exists pre. Qed.

Lemma tl_suffix_of (s : list char) : tl s `suffix_of` s.
Proof. destruct (tl_suffix s) as [pre H]. by exists pre. Qed.

Lemma drop_suffix_of (k : nat) (s : list char) : drop k s `suffix_of` s.
Proof. exists (take k s). by rewrite take_drop. Qed.

Lemma tl_length_lt (s : list char) : deref s <> 0 -> (length (tl s) < length s)%nat.
Proof. destruct s; simpl; [congruence|lia]. Qed.

Lemma after_value_spec close v :
  match p_after_value close v with
  | Closed e | Continue e =>
      exists x, v = Some x /\ e `suffix_of` x /\ (length e < length x)%nat
  | Malformed => True
  end.
Proof.
  unfold p_after_value. destruct v as [x|]; [|exact I].
  destruct (p_eat_whitespace x) as [s1|] eqn:E1; [|exact I].
  destruct (eat_whitespace_spec _ _ E1) as (ws & -> & _ & Hnz & _).
  assert (Hs1 : s1 `suffix_of` ws ++ s1) by (by exists ws).
  pose proof (tl_length_lt _ Hnz) as Hlt.
  pose proof (tl_suffix_of s1) as Htl.
  pose proof (suffix_length _ _ Hs1) as Hl1.
  destruct (deref s1 =? close).
  { exists (ws ++ s1). split; [reflexivity|]. split; [by etrans|lia]. }
  destruct (deref s1 =? chr ","); [|exact I].
  destruct (p_eat_whitespace (tl s1)) as [s2|] eqn:E2; [|exact I].
  pose proof (eat_whitespace_suffix _ _ E2) as Hs2.
  pose proof (suffix_length _ _ Hs2) as Hl2.
  destruct (deref s2 =? close); [exact I|].
  exists (ws ++ s1). split; [reflexivity|]. split; [|lia].
  etrans; [exact Hs2|]. by etrans.
Qed.

(** One unfolding of each function of the validator. *)
Lemma valid_json_fuel_S n s t :
  p_is_valid_json_fuel (S n) s t =
  match t with
  | JSON_OBJECT =>
      if negb (deref s =? chr "{") then Done None
      else match p_eat_whitespace (tl s) with
           | None => Done None
           | Some s => object_members n s
           end
  | JSON_ARRAY =>
      if negb (deref s =? chr "[") then Done None
      else match p_eat_whitespace (tl s) with
           | None => Done None
           | Some s => array_elements n s
           end
  | _ => Done None
  end.
Proof. reflexivity. Qed.

Lemma valid_value_S n s :
  p_is_valid_value (S n) s =
  if deref s =? chr "{" then p_is_valid_json_fuel n s JSON_OBJECT
  else if deref s =? chr "[" then p_is_valid_json_fuel n s JSON_ARRAY
  else if starts_with (cs "true") s || starts_with (cs "null") s
       then Done (Some (drop 4 s))
  else if starts_with (cs "false") s then Done (Some (drop 5 s))
  else if deref s =? quote then Done (p_is_valid_string s)
  else Done (p_is_valid_number s).
Proof. reflexivity. Qed.

Lemma object_members_S n s :
  object_members (S n) s =
  if deref s =? chr "}" then Done (Some (tl s))
  else if deref s =? quote then
    match p_is_valid_string s with
    | None => Done None
    | Some s =>
        match p_eat_whitespace s with
        | None => Done None
        | Some s =>
            if negb (deref s =? chr ":") then Done None
            else match p_eat_whitespace (tl s) with
                 | None => Done None
                 | Some s =>
                     match p_is_valid_value n s with
                     | OutOfFuel => OutOfFuel
                     | Done v =>
                         match p_after_value (chr "}") v with
                         | Closed s => Done (Some s)
                         | Continue s => object_members n s
                         | Malformed => Done None
                         end
                     end
                 end
        end
    end
  else Done None.
Proof. reflexivity. Qed.

Lemma array_elements_S n s :
  array_elements (S n) s =
  if deref s =? chr "]" then Done (Some (tl s))
  else
    match p_is_valid_value n s with
    | OutOfFuel => OutOfFuel
    | Done v =>
        match p_after_value (chr "]") v with
        | Closed s => Done (Some s)
        | Continue s => array_elements n s
        | Malformed => Done None
        end
    end.
Proof. reflexivity. Qed.

(** The validator of containers never runs out of the fuel it is given,
    and a cursor it returns is a strictly later position of its input. *)
Lemma valid_json_fuel_spec n :
  (forall s t, (3 * length s + 1 <= n)%nat ->
     ends_later true s (p_is_valid_json_fuel n s t))
  /\ (forall s, (3 * length s + 2 <= n)%nat ->
        ends_later false s (p_is_valid_value n s))
  /\ (forall s, (3 * length s + 3 <= n)%nat ->
        ends_later false s (object_members n s))
  /\ (forall s, (3 * length s + 3 <= n)%nat ->
        ends_later false s (array_elements n s)).
Proof.
  assert (Hnone : forall b s, ends_later b s (Done None)).
  { intros b s. exists None. split; [reflexivity|discriminate]. }
  assert (Htl : forall s, ends_later false s (Done (Some (tl s)))).
  { intros s. eexists. split; [reflexivity|]. intros e [= <-].
    split; [apply tl_suffix_of|]. apply suffix_length, tl_suffix_of. }
  assert (Hloop : forall close (loop : list char -> run (option (list char))) s v,
    (Done v = Done v -> forall e, v = Some e -> e `suffix_of` s /\ (length e <= length s)%nat) ->
    (forall e, (length e < length s)%nat -> e `suffix_of` s -> ends_later false e (loop e)) ->
    ends_later false s
      match p_after_value close v with
      | Closed e => Done (Some e)
      | Continue e => loop e
      | Malformed => Done None
      end).
  { intros close loop s v Hv Hl. pose proof (after_value_spec close v) as Ha.
    destruct (p_after_value close v) as [e|e|]; [| |apply Hnone].
    - destruct Ha as (x & -> & Hs & Hlt). destruct (Hv eq_refl x eq_refl) as [Hxs Hxl].
      eexists. split; [reflexivity|]. intros ? [= <-]. split; [by etrans|lia].
    - destruct Ha as (x & -> & Hs & Hlt). destruct (Hv eq_refl x eq_refl) as [Hxs Hxl].
      destruct (Hl e) as (w & Hw & Hpost); [lia|by etrans|].
      exists w. split; [assumption|]. intros e' He'. destruct (Hpost e' He') as [H1 H2].
      split; [|lia]. etrans; [exact H1|]. by etrans. }
  induction n as [|n (IHj & IHv & IHo & IHa)].
  { repeat split; intros; lia. }
  repeat split.
  - (* containers *)
    intros s t Hn. rewrite valid_json_fuel_S.
    assert (Hopen : forall (loop : nat -> list char -> run (option (list char))),
      (forall e, (3 * length e + 3 <= n)%nat -> ends_later false e (loop n e)) ->
      deref s <> 0 ->
      ends_later true s
        match p_eat_whitespace (tl s) with
        | Some s0 => loop n s0
        | None => Done None
        end).
    { intros loop Hl Hnz. destruct (p_eat_whitespace (tl s)) as [s0|] eqn:E; [|apply Hnone].
      pose proof (eat_whitespace_suffix _ _ E) as H0.
      pose proof (suffix_length _ _ H0) as L0.
      pose proof (tl_length_lt _ Hnz) as L1.
      destruct (Hl s0) as (w & Hw & Hpost); [lia|].
      exists w. split; [assumption|]. intros e He. destruct (Hpost e He) as [H1 H2].
      split; [|lia]. etrans; [exact H1|]. etrans; [exact H0|]. apply tl_suffix_of. }
    destruct t; try apply Hnone.
    + destruct (deref s =? chr "{") eqn:E; simpl; [|apply Hnone].
      apply Hopen; [exact IHo|]. apply Z.eqb_eq in E. rewrite E. discriminate.
    + destruct (deref s =? chr "[") eqn:E; simpl; [|apply Hnone].
      apply Hopen; [exact IHa|]. apply Z.eqb_eq in E. rewrite E. discriminate.
  - (* values *)
    intros s Hn. rewrite valid_value_S.
    assert (Hw : forall t, ends_later false s (p_is_valid_json_fuel n s t)).
    { intros t. destruct (IHj s t) as (w & Hw & Hpost); [lia|].
      exists w. split; [assumption|]. intros e He. destruct (Hpost e He). split; [assumption|lia]. }
    assert (Hd : forall k, ends_later false s (Done (Some (drop k s)))).
    { intros k. eexists. split; [reflexivity|]. intros e [= <-].
      split; [apply drop_suffix_of|]. apply suffix_length, drop_suffix_of. }
    destruct (deref s =? chr "{"); [apply Hw|].
    destruct (deref s =? chr "["); [apply Hw|].
    destruct (starts_with (cs "true") s || starts_with (cs "null") s); [apply Hd|].
    destruct (starts_with (cs "false") s); [apply Hd|].
    destruct (deref s =? quote).
    + eexists. split; [reflexivity|]. intros e He.
      destruct (valid_string_suffix _ _ He). split; [assumption|lia].
    + eexists. split; [reflexivity|]. intros e He.
      pose proof (valid_number_suffix _ _ He) as H. split; [assumption|].
      by apply suffix_length.
  - (* members of an object *)
    intros s Hn. rewrite object_members_S.
    destruct (deref s =? chr "}"); [apply Htl|].
    destruct (deref s =? quote); [|apply Hnone].
    destruct (p_is_valid_string s) as [s1|] eqn:E1; [|apply Hnone].
    destruct (valid_string_suffix _ _ E1) as [H1 L1].
    destruct (p_eat_whitespace s1) as [s2|] eqn:E2; [|apply Hnone].
    pose proof (eat_whitespace_suffix _ _ E2) as H2.
    pose proof (suffix_length _ _ H2) as L2.
    destruct (deref s2 =? chr ":"); simpl; [|apply Hnone].
    destruct (p_eat_whitespace (tl s2)) as [s3|] eqn:E3; [|apply Hnone].
    pose proof (eat_whitespace_suffix _ _ E3) as H3.
    pose proof (suffix_length _ _ H3) as L3.
    pose proof (tl_suffix_of s2) as H2'.
    pose proof (suffix_length _ _ H2') as L2'.
    assert (Hs3 : s3 `suffix_of` s).
    { etrans; [exact H3|]. etrans; [exact H2'|]. by etrans. }
    destruct (IHv s3) as (v & -> & Hpost); [lia|].
    assert (Hgoal : ends_later false s3
      match p_after_value (chr "}") v with
      | Closed e => Done (Some e)
      | Continue e => object_members n e
      | Malformed => Done None
      end).
    { apply Hloop; [intros _; exact Hpost|]. intros e He _. apply IHo. lia. }
    destruct Hgoal as (w & Hw & Hp). exists w. split; [assumption|].
    intros e He. destruct (Hp e He). split; [by etrans|lia].
  - (* elements of an array *)
    intros s Hn. rewrite array_elements_S.
    destruct (deref s =? chr "]"); [apply Htl|].
    destruct (IHv s) as (v & -> & Hpost); [lia|].
    apply Hloop; [intros _; exact Hpost|]. intros e He _. apply IHa. lia.
Qed.

Lemma valid_json_total s t :
  p_is_valid_json_fuel (json_fuel s) s t = Done (p_is_valid_json s t).
Proof.
  unfold p_is_valid_json.
  destruct (proj1 (valid_json_fuel_spec (json_fuel s)) s t) as (v & -> & _);
    [unfold json_fuel; lia|reflexivity].
Qed.

Lemma valid_json_suffix s t e :
  p_is_valid_json s t = Some e -> e `suffix_of` s /\ (length e < length s)%nat.
Proof.
  unfold p_is_valid_json.
  destruct (proj1 (valid_json_fuel_spec (json_fuel s)) s t) as (v & -> & Hp);
    [unfold json_fuel; lia|]. apply Hp.
Qed.

(** ** Number literals *)

(** Once the digits of the integer part are followed by ['.'], the number
    is refused: the digit loop of the fractional part starts on the ['.'],
    which is no digit, and what follows only accepts an exponent. *)
Lemma number_with_fraction_rejected s :
  deref (eat_digits (integer_part s)) = chr "." -> p_is_valid_number s = None.
Proof.
  unfold p_is_valid_number, integer_part.
  set (s0 := if deref s =? chr "-" then tl s else s). intros Hdot.
  destruct (deref s0 =? 0); [reflexivity|].
  destruct ((deref s0 =? chr "0") && negb (deref (tl s0) =? chr ".")); [reflexivity|].
  set (s1 := eat_digits s0) in *.
  assert (Hstay : eat_digits s1 = s1).
  { destruct s1 as [|c t]; [reflexivity|]. simpl in Hdot. subst c. reflexivity. }
  rewrite Hstay, Hdot.
  change (chr "." =? 0) with false. change (is_number_end (chr ".")) with false.
  change (chr "." =? chr ".") with true. cbv iota beta.
  rewrite Hdot. reflexivity.
Qed.

(** C6: A number whose integer part (after an optional ['-']) starts with
    the digit ['0'] is refused unless the byte right after that ['0'] is
    ['.']: validation succeeds only if a ['.'] follows the leading zero. *)
Theorem leading_zero_needs_dot s :
  deref (integer_part s) = chr "0" ->
  deref (tl (integer_part s)) <> chr "." ->
  p_is_valid_number s = None.
Proof.
  unfold p_is_valid_number, integer_part.
  set (s0 := if deref s =? chr "-" then tl s else s). intros H0 Hdot.
  rewrite H0. apply Z.eqb_neq in Hdot. rewrite Hdot. reflexivity.
Qed.

Lemma leading_zero_needs_dot_witness :
  deref (integer_part (cs "-01,")) = chr "0"
  /\ deref (tl (integer_part (cs "-01,"))) <> chr "."
  /\ p_is_valid_number (cs "-01,") = None.
Proof.
  split; [reflexivity|]. split; [discriminate|].
  apply (leading_zero_needs_dot (cs "-01,")); [reflexivity|discriminate].
Defined.

(** C4: a numeral with a fractional part followed by a comma is refused.
    The validator returns no cursor for "1.5," (it never accepts a
    fractional part), while "15," validates with the cursor on the comma. *)
Theorem number_fraction_comma_rejected :
  p_is_valid_number (cs "1.5,") = None
  /\ p_is_valid_number (cs "15,") = Some (cs ",").
Proof. split; reflexivity. Qed.

(** ** String literals *)

(** C5: When a string literal validates, the cursor returned is the byte
    after its closing quote and that byte exists: at least one more
    character remains in the buffer, so a string whose closing quote is
    the last character of the buffer is refused. *)
Theorem valid_string_needs_follower s r :
  p_is_valid_string s = Some r ->
  r <> [] /\ deref r <> 0 /\ exists body, s = quote :: body ++ quote :: r.
Proof.
  intros H. destruct (valid_string_spec _ _ H) as (b & Hs & Hr).
  split; [|split; [assumption|by exists b]].
  intros ->. apply Hr. reflexivity.
Qed.

Lemma valid_string_needs_follower_witness :
  p_is_valid_string (dq "'key':") = Some (cs ":")
  /\ cs ":" <> []
  /\ p_is_valid_string (dq "'key'") = None.
Proof.
  split; [reflexivity|]. split; [|reflexivity].
  exact (proj1 (valid_string_needs_follower (dq "'key':") (cs ":") eq_refl)).
Defined.

(** ** Escape decoder *)

Lemma is_hex_range h :
  is_hex h = true -> 48 <= h <= 57 \/ 97 <= h <= 102 \/ 65 <= h <= 70.
Proof.
  unfold is_hex. chars.
  rewrite !orb_true_iff, !andb_true_iff, !Z.leb_le. lia.
Qed.

Lemma hex_value_hex h :
  is_hex h = true -> exists v, hex_value h = Some v /\ 0 <= v < 16.
Proof.
  intros H. apply is_hex_range in H. unfold hex_value. chars.
  destruct (Z.leb_spec 48 h), (Z.leb_spec h 57); simpl;
    try (eexists; split; [reflexivity|lia]);
  destruct (Z.leb_spec 97 h), (Z.leb_spec h 102); simpl;
    try (eexists; split; [reflexivity|lia]);
  destruct (Z.leb_spec 65 h), (Z.leb_spec h 70); simpl;
    try (eexists; split; [reflexivity|lia]); lia.
Qed.

Lemma strtol16_hex h1 h2 h3 h4 :
  is_hex h1 = true -> is_hex h2 = true -> is_hex h3 = true -> is_hex h4 = true ->
  strtol16 [h1; h2; h3; h4] = code_point h1 h2 h3 h4
  /\ 0 <= code_point h1 h2 h3 h4 < 65536.
Proof.
  intros H1 H2 H3 H4.
  destruct (hex_value_hex _ H1) as (v1 & E1 & R1).
  destruct (hex_value_hex _ H2) as (v2 & E2 & R2).
  destruct (hex_value_hex _ H3) as (v3 & E3 & R3).
  destruct (hex_value_hex _ H4) as (v4 & E4 & R4).
  pose proof (is_hex_range _ H1) as G1. pose proof (is_hex_range _ H2) as G2.
  unfold code_point, hex_digit. rewrite E1, E2, E3, E4. split; [|lia].
  unfold strtol16. simpl skip_space.
  assert (Hsp : isspace h1 = false).
  { unfold isspace. destruct (Z.eqb_spec h1 32); [lia|].
    destruct (Z.leb_spec 9 h1), (Z.leb_spec h1 13); simpl; try reflexivity; lia. }
  rewrite Hsp. cbv zeta. cbn [deref hd]. chars.
  assert (Hm : (h1 =? 45) = false) by (apply Z.eqb_neq; lia).
  assert (Hp : (h1 =? 43) = false) by (apply Z.eqb_neq; lia).
  assert (Hx : (h2 =? 120) = false) by (apply Z.eqb_neq; lia).
  assert (HX : (h2 =? 88) = false) by (apply Z.eqb_neq; lia).
  rewrite Hm, Hp. cbn [orb tl hd]. unfold deref. cbn [hd]. rewrite Hx, HX. cbn [orb andb].
  rewrite andb_false_r. cbn [andb hex_digits].
  rewrite E1, E2, E3, E4. lia.
Qed.

(** [Z.lor] adds when the operands share no bit: checked on the small
    ranges the decoder uses. *)
Lemma small_range (P : Z -> bool) (n : nat) :
  forallb (fun k => P (Z.of_nat k)) (seq 0 n) = true ->
  forall x, 0 <= x < Z.of_nat n -> P x = true.
Proof.
  intros Hall x Hx. rewrite forallb_forall in Hall.
  specialize (Hall (Z.to_nat x)). rewrite Z2Nat.id in Hall by lia.
  apply Hall, in_seq. lia.
Qed.

Lemma lor_continuation x : 0 <= x < 64 -> Z.lor 0x80 x = 0x80 + x.
Proof.
  intros Hx. apply Z.eqb_eq.
  apply (small_range (fun x => Z.lor 0x80 x =? 0x80 + x) 64); [reflexivity|lia].
Qed.

Lemma lor_lead2 x : 0 <= x < 32 -> Z.lor 0xC0 x = 0xC0 + x.
Proof.
  intros Hx. apply Z.eqb_eq.
  apply (small_range (fun x => Z.lor 0xC0 x =? 0xC0 + x) 32); [reflexivity|lia].
Qed.

Lemma lor_lead3 x : 0 <= x < 16 -> Z.lor 0xE0 x = 0xE0 + x.
Proof.
  intros Hx. apply Z.eqb_eq.
  apply (small_range (fun x => Z.lor 0xE0 x =? 0xE0 + x) 16); [reflexivity|lia].
Qed.

Lemma unicode_bytes_utf8 code :
  0 <= code < 65536 -> unicode_bytes code = utf8_encode code.
Proof.
  intros Hc. unfold unicode_bytes, utf8_encode, to_char.
  assert (Hlow : Z.land code 0x3F = code mod 64) by (apply (Z.land_ones code 6); lia).
  assert (Hmid : Z.land (Z.shiftr code 6) 0x3F = (code / 64) mod 64).
  { rewrite (Z.land_ones _ 6) by lia. by rewrite (Z.shiftr_div_pow2 code 6) by lia. }
  assert (H6 : Z.shiftr code 6 = code / 64) by (apply (Z.shiftr_div_pow2 code 6); lia).
  assert (H12 : Z.shiftr code 12 = code / 4096) by (apply (Z.shiftr_div_pow2 code 12); lia).
  rewrite Hlow, Hmid, H6, H12.
  pose proof (Z.mod_pos_bound code 64 ltac:(lia)).
  pose proof (Z.mod_pos_bound (code / 64) 64 ltac:(lia)).
  destruct (Z.leb_spec code 127); [by rewrite Z.mod_small by lia|].
  destruct (Z.leb_spec code 2047).
  - assert (0 <= code / 64 < 32)
      by (split; [apply Z.div_pos; lia|apply Z.div_lt_upper_bound; lia]).
    rewrite lor_lead2, lor_continuation by lia.
    f_equal; [|f_equal]; apply Z.mod_small; lia.
  - assert (0 <= code / 4096 < 16)
      by (split; [apply Z.div_pos; lia|apply Z.div_lt_upper_bound; lia]).
    rewrite lor_lead3, !lor_continuation by lia.
    f_equal; [|f_equal; [|f_equal]]; apply Z.mod_small; lia.
Qed.

(** A run of bytes without backslash or NUL is copied as it is. *)
Lemma unescape_plain pre s :
  Forall (fun c => c <> 0 /\ c <> backslash) pre ->
  p_unescape_string (pre ++ s) = pre ++ p_unescape_string s.
Proof.
  induction 1 as [|c pre [Hz Hb] _ IH]; [reflexivity|].
  simpl. apply Z.eqb_neq in Hz, Hb. rewrite Hz, Hb. by rewrite IH.
Qed.

Lemma unescape_cons c s1 :
  p_unescape_string (c :: s1) =
  if c =? 0 then []
  else if c =? backslash then
    let simple :=
      match s1 with
      | [] => [c]
      | e :: s2 =>
          if e =? 0 then [c] else simple_escape e :: p_unescape_string s2
      end in
    match s1 with
    | u :: h1 :: h2 :: h3 :: h4 :: rest =>
        if (u =? chr "u") && negb (h1 =? 0) && negb (h2 =? 0)
           && negb (h3 =? 0) && negb (h4 =? 0)
        then unicode_bytes (strtol16 [h1; h2; h3; h4]) ++ p_unescape_string rest
        else simple
    | _ => simple
    end
  else c :: p_unescape_string s1.
Proof. reflexivity. Qed.

Lemma unescape_simple e s2 :
  is_simple_escape e = true ->
  p_unescape_string (backslash :: e :: s2)
  = simple_escape e :: p_unescape_string s2
  /\ spec_escape e = Some (simple_escape e).
Proof.
  intros He.
  assert (Hcases : e = backslash \/ e = quote \/ e = chr "/" \/ e = chr "b"
                   \/ e = chr "f" \/ e = chr "n" \/ e = chr "r" \/ e = chr "t").
  { unfold is_simple_escape in He. rewrite !orb_true_iff, !Z.eqb_eq in He. tauto. }
  assert (Hz : (e =? 0) = false /\ (e =? chr "u") = false).
  { destruct Hcases as [->|[->|[->|[->|[->|[->|[->| ->]]]]]]]; by split. }
  destruct Hz as [Hz Hu]. split.
  - rewrite unescape_cons. change (backslash =? 0) with false.
    rewrite Z.eqb_refl. cbv zeta. rewrite Hz.
    destruct s2 as [|h1 [|h2 [|h3 [|h4 rest]]]]; try reflexivity.
    by rewrite Hu.
  - destruct Hcases as [->|[->|[->|[->|[->|[->|[->| ->]]]]]]]; reflexivity.
Qed.

Lemma unescape_unicode h1 h2 h3 h4 rest :
  is_hex h1 = true -> is_hex h2 = true -> is_hex h3 = true -> is_hex h4 = true ->
  p_unescape_string (backslash :: chr "u" :: h1 :: h2 :: h3 :: h4 :: rest)
  = utf8_encode (code_point h1 h2 h3 h4) ++ p_unescape_string rest.
Proof.
  intros H1 H2 H3 H4.
  destruct (strtol16_hex _ _ _ _ H1 H2 H3 H4) as [Hcode Hrange].
  pose proof (is_hex_range _ H1). pose proof (is_hex_range _ H2).
  pose proof (is_hex_range _ H3). pose proof (is_hex_range _ H4).
  assert (E1 : (h1 =? 0) = false) by (apply Z.eqb_neq; lia).
  assert (E2 : (h2 =? 0) = false) by (apply Z.eqb_neq; lia).
  assert (E3 : (h3 =? 0) = false) by (apply Z.eqb_neq; lia).
  assert (E4 : (h4 =? 0) = false) by (apply Z.eqb_neq; lia).
  rewrite unescape_cons. change (backslash =? 0) with false.
  rewrite !Z.eqb_refl. cbv zeta. rewrite E1, E2, E3, E4. cbn [andb negb].
  by rewrite Hcode, unicode_bytes_utf8.
Qed.

(** On the body of a string literal the decoder of the code does what
    the specification says of it, and carries on with what follows. *)
Lemma unescape_follows_spec s :
  string_chars s ->
  forall x, p_unescape_string (s ++ x) = spec_decode s ++ p_unescape_string x.
Proof.
  induction 1 as [|c s Hz Hq Hb _ IH|e s He _ IH|h1 h2 h3 h4 s H1 H2 H3 H4 _ IH];
    intros x.
  - reflexivity.
  - change (p_unescape_string (c :: (s ++ x))
            = spec_decode (c :: s) ++ p_unescape_string x).
    rewrite unescape_cons. cbn [spec_decode].
    apply Z.eqb_neq in Hz, Hb. by rewrite Hz, Hb, IH.
  - change (p_unescape_string (backslash :: e :: (s ++ x))
            = spec_decode (backslash :: e :: s) ++ p_unescape_string x).
    destruct (unescape_simple e (s ++ x) He) as [-> Hspec].
    cbn [spec_decode]. rewrite Z.eqb_refl, Hspec. by rewrite IH.
  - change (p_unescape_string
              (backslash :: chr "u" :: h1 :: h2 :: h3 :: h4 :: (s ++ x))
            = spec_decode (backslash :: chr "u" :: h1 :: h2 :: h3 :: h4 :: s)
              ++ p_unescape_string x).
    rewrite unescape_unicode by done. cbn [spec_decode].
    rewrite Z.eqb_refl. change (spec_escape (chr "u")) with (@None Z).
    rewrite Z.eqb_refl. by rewrite IH, app_assoc.
Qed.

(** Proves [string_chars] of a literal body given byte by byte. *)
Ltac literal_body :=
  repeat first
    [ apply chars_nil
    | apply chars_unicode; [reflexivity|reflexivity|reflexivity|reflexivity|]
    | apply chars_escape; [reflexivity|]
    | apply chars_plain; [discriminate|discriminate|discriminate|] ].

(** C7: For every string the decoder is given, the body of a string
    literal, its result is what the specification says: each simple
    escape becomes its byte and each [\uXXXX] escape the UTF-8 encoding of
    its code point (one byte up to 0x7F, two bytes up to 0x7FF, three
    bytes otherwise), whatever escapes come before it. After an escape
    the decoder carries on with the bytes that follow it, which land
    six minus the number of bytes written further left; the escape of
    U+0041 decodes to [A] and the escape of U+00E9 to the two bytes
    0xC3 0xA9. *)
Theorem unescape_unicode_utf8 :
  (forall pre h1 h2 h3 h4 rest,
      string_chars pre ->
      is_hex h1 = true -> is_hex h2 = true ->
      is_hex h3 = true -> is_hex h4 = true ->
      let escape := [backslash; chr "u"; h1; h2; h3; h4] in
      let bytes := utf8_encode (code_point h1 h2 h3 h4) in
      p_unescape_string (pre ++ escape ++ rest)
      = p_unescape_string pre ++ bytes ++ p_unescape_string rest
      /\ p_unescape_string pre = spec_decode pre
      /\ (length (p_unescape_string (pre ++ escape))
          = length (p_unescape_string pre) + 6 - (6 - length bytes))%nat
      /\ (1 <= length bytes <= 3)%nat)
  /\ (forall s, string_chars s -> p_unescape_string s = spec_decode s)
  /\ p_unescape_string (cs "\u0041") = cs "A"
  /\ p_unescape_string (cs "\u00e9") = [0xC3; 0xA9].
Proof.
  assert (Hspec : forall s, string_chars s -> p_unescape_string s = spec_decode s).
  { intros s Hs. pose proof (unescape_follows_spec s Hs []) as H.
    by rewrite !app_nil_r in H. }
  split; [|split; [exact Hspec|split; reflexivity]].
  intros pre h1 h2 h3 h4 rest Hpre H1 H2 H3 H4 escape bytes.
  assert (Hlen : (1 <= length bytes <= 3)%nat).
  { unfold bytes, utf8_encode.
    destruct (code_point h1 h2 h3 h4 <=? 127); [simpl; lia|].
    destruct (code_point h1 h2 h3 h4 <=? 2047); simpl; lia. }
  assert (Hesc : forall x, p_unescape_string (pre ++ escape ++ x)
                           = p_unescape_string pre ++ bytes ++ p_unescape_string x).
  { intros x. rewrite (unescape_follows_spec pre Hpre), (Hspec pre Hpre).
    f_equal. by apply unescape_unicode. }
  split; [apply Hesc|]. split; [by apply Hspec|]. split; [|exact Hlen].
  pose proof (Hesc []) as H. rewrite app_nil_r in H. rewrite H.
  rewrite !length_app. simpl. lia.
Qed.

Lemma unescape_unicode_utf8_witness :
  p_unescape_string (cs "a\n\u00e9s")
  = p_unescape_string (cs "a\n") ++ [0xC3; 0xA9] ++ cs "s"
  /\ p_unescape_string (cs "a\n") = [chr "a"; 10].
Proof.
  destruct (proj1 unescape_unicode_utf8 (cs "a\n") (chr "0") (chr "0")
              (chr "e") (chr "9") (cs "s")
              ltac:(literal_body) eq_refl eq_refl eq_refl eq_refl)
    as (Hesc & Hpre & _).
  split; [exact Hesc|]. rewrite Hpre. reflexivity.
Defined.

(** ** The tree in the store *)

Lemma same_id_refl a : same_id a a.
Proof. by repeat split. Qed.

Lemma member_key_same p p' c c' :
  same_id p p' -> same_id c c' -> member_key p c -> member_key p' c'.
Proof.
  intros (_ & _ & Ht & Hd & _) (_ & _ & _ & Hcd & Hcn). unfold member_key.
  rewrite <- Ht, <- Hd, <- Hcd, <- Hcn. done.
Qed.

Lemma keeps_loaded_refl h : keeps_loaded h h.
Proof. by intros k x. Qed.

Lemma keeps_loaded_trans h1 h2 h3 :
  keeps_loaded h1 h2 -> keeps_loaded h2 h3 -> keeps_loaded h1 h3.
Proof. intros H12 H23 k x Hk Hx. apply H23; [by apply H12|done]. Qed.

(** Writing node [j] and appending fresh nodes. *)
Lemma lookup_update_old (h new : heap) (j k : ptr) (nd' x : json) :
  h !! k = Some x ->
  (<[j := nd']> h ++ new) !! k = Some (if decide (k = j) then nd' else x).
Proof.
  intros Hk. pose proof (lookup_lt_Some _ _ _ Hk) as Hlt.
  rewrite lookup_app_l by (by rewrite length_insert).
  destruct (decide (k = j)) as [->|Hne].
  - by rewrite list_lookup_insert_eq.
  - by rewrite list_lookup_insert_ne.
Qed.

Lemma lookup_update_inv (h new : heap) (j k : ptr) (nd' x : json) :
  (<[j := nd']> h ++ new) !! k = Some x ->
  (k = j /\ x = nd' /\ (j < length h)%nat)
  \/ (k <> j /\ h !! k = Some x)
  \/ ((length h <= k)%nat /\ new !! (k - length h)%nat = Some x).
Proof.
  intros Hk. destruct (decide (k < length h)%nat) as [Hlt|Hge].
  - rewrite lookup_app_l in Hk by (by rewrite length_insert).
    destruct (decide (k = j)) as [->|Hne].
    + rewrite list_lookup_insert_eq in Hk by done. left. by inversion Hk.
    + rewrite list_lookup_insert_ne in Hk by done. right. by left.
  - rewrite lookup_app_r in Hk by (rewrite length_insert; lia).
    rewrite length_insert in Hk. right. right. split; [lia|done].
Qed.

Lemma wf_update rt (h new : heap) j nd nd' :
  wf rt h -> h !! j = Some nd -> same_id nd nd' ->
  Forall (fun cn => children cn = []) new ->
  (forall c, elem_of c (children nd') ->
     elem_of c (children nd)
     \/ exists cn, (length h <= c)%nat /\ new !! (c - length h)%nat = Some cn
                   /\ parent cn = Some j /\ member_key nd' cn) ->
  wf rt (<[j := nd']> h ++ new).
Proof.
  intros [Hroot Hkids] Hj Hid Hnew Hch.
  assert (Hold : forall c cn p (pn : json), h !! c = Some cn -> parent cn = Some p ->
            member_key pn cn ->
            exists cn', (<[j := nd']> h ++ new) !! c = Some cn'
                        /\ parent cn' = Some p /\ member_key pn cn').
  { intros c cn p pn Hc Hp Hm. eexists. split; [by apply lookup_update_old|].
    destruct (decide (c = j)) as [->|_]; [|done].
    rewrite Hj in Hc. inversion Hc; subst cn.
    destruct Hid as (? & Hpar & ? & ? & ?). split; [congruence|].
    eapply member_key_same; [apply same_id_refl| |exact Hm]. by repeat split. }
  split.
  - destruct Hroot as (r & Hr & Hp & Hn). eexists. split; [by apply lookup_update_old|].
    destruct (decide (rt = j)) as [->|_]; [|done].
    rewrite Hj in Hr. inversion Hr; subst r.
    destruct Hid as (_ & Hpar & _ & _ & Hpn). split; congruence.
  - intros k x c Hk Hc.
    destruct (lookup_update_inv _ _ _ _ _ _ Hk) as [(-> & -> & _)|[(Hne & Hk')|(Hge & Hk')]].
    + destruct (Hch c Hc) as [Hin|(cn & Hge & Hn & Hp & Hm)].
      * destruct (Hkids _ _ _ Hj Hin) as (cn & Hcn & Hp & Hm).
        apply (Hold c cn j nd'); [done|done|].
        eapply member_key_same; [exact Hid|apply same_id_refl|exact Hm].
      * exists cn. split; [|done].
        rewrite lookup_app_r by (rewrite length_insert; lia).
        by rewrite length_insert.
    + destruct (Hkids _ _ _ Hk' Hc) as (cn & Hcn & Hp & Hm). by apply (Hold c cn k x).
    + rewrite Forall_lookup in Hnew. rewrite (Hnew _ _ Hk') in Hc. by apply elem_of_nil in Hc.
Qed.

Lemma keeps_loaded_update (h new : heap) j nd nd' :
  h !! j = Some nd -> children_count nd = -1 ->
  keeps_loaded h (<[j := nd']> h ++ new).
Proof.
  intros Hj Hc k x Hk Hx. rewrite (lookup_update_old _ _ _ _ _ _ Hk).
  destruct (decide (k = j)) as [->|_]; [|done]. congruence.
Qed.

(** *** The loader's loops *)

Lemma add_child_loading rt j T D h0 h h' data pn t :
  loading rt j T D h0 h -> key_cond T D data pn ->
  add_child j data pn t h = Ok tt h' ->
  loading rt j T D h0 h'.
Proof.
  intros (Hwf & Hframe & nd & Hj & Hc & HT & HD) Hkey. unfold add_child.
  rewrite Hj. intros [= <-].
  set (nd' := set_children _ _).
  set (child := p_build_child_json_node _ _ _ _ _).
  split; [|split].
  - apply (wf_update rt h [child] j nd nd'); [done|done|by repeat split| |].
    + by repeat constructor.
    + intros c Hin. apply elem_of_app in Hin as [Hin|Hin]; [by left|].
      apply list_elem_of_singleton in Hin. subst c. right. exists child.
      split; [lia|]. rewrite Nat.sub_diag. split; [done|]. split; [done|].
      unfold member_key. simpl node_type. simpl backing_data. simpl path_name.
      rewrite HT, HD. exact Hkey.
  - intros k x Hne Hk. rewrite (lookup_update_old _ _ _ _ _ x (Hframe _ _ Hne Hk)).
    by destruct (decide (k = j)).
  - exists nd'. split; [|split; [simpl; lia|done]].
    rewrite (lookup_update_old _ _ _ _ _ nd Hj). by destruct (decide (j = j)).
Qed.

Lemma value_end_suffix t s e : value_end t s = Some e -> e `suffix_of` s.
Proof.
  destruct t; simpl; intros H;
    try (by apply valid_number_suffix);
    try (by apply (valid_json_suffix _ _ _ H));
    try (inversion H; apply drop_suffix_of).
  by apply valid_string_suffix.
Qed.

Lemma load_after_value_suffix close x y :
  load_after_value close (Some x) = Some y -> y `suffix_of` x.
Proof.
  simpl. destruct (p_eat_whitespace x) as [s1|] eqn:E1; [|discriminate].
  pose proof (eat_whitespace_suffix _ _ E1) as H1.
  pose proof (tl_suffix_of s1) as Htl.
  destruct (deref s1 =? close); [intros [= <-]; by etrans|].
  destruct (deref s1 =? chr ","); [|intros [= <-]; done].
  destruct (p_eat_whitespace (tl s1)) as [s2|] eqn:E2; [|discriminate].
  pose proof (eat_whitespace_suffix _ _ E2) as H2.
  destruct (deref s2 =? close); [discriminate|]. intros [= <-].
  etrans; [exact H2|]. by etrans.
Qed.

Lemma load_object_loading rt j D h0 n : forall e s h h',
  s `suffix_of` D -> loading rt j JSON_OBJECT D h0 h ->
  load_object n j e s h = Ok tt h' ->
  loading rt j JSON_OBJECT D h0 h'.
Proof.
  induction n as [|n IH]; intros e s h h' Hs Hl; [discriminate|]. simpl.
  destruct (before s e); simpl; [|by intros [= <-]].
  destruct (deref s =? chr "}"); [by intros [= <-]|].
  destruct (deref s =? quote); [|discriminate].
  destruct (p_is_valid_string s) as [s1|] eqn:E1; [|discriminate].
  destruct (valid_string_spec _ _ E1) as (body & Hbody & _).
  destruct (deref s1 =? chr ":") eqn:Ecolon; simpl; [|discriminate].
  destruct (p_eat_whitespace (tl s1)) as [s2|] eqn:E2; [|discriminate].
  destruct (eat_whitespace_spec _ _ E2) as (ws & Hws & Hwhite & _).
  assert (Hs1 : s1 = chr ":" :: ws ++ s2).
  { apply Z.eqb_eq in Ecolon. destruct s1 as [|c t]; [discriminate|].
    simpl in Ecolon, Hws. by subst. }
  destruct (add_child j s2 _ (value_type s2) h) as [[] h1| | |] eqn:Eadd;
    try discriminate.
  assert (Hl1 : loading rt j JSON_OBJECT D h0 h1).
  { eapply add_child_loading; [exact Hl| |exact Eadd].
    destruct Hs as [pre Hpre]. exists pre, body, ws.
    split; [by rewrite Hpre, Hbody, Hs1|]. split; [done|].
    split; [by rewrite <- Hs1, <- Hbody|].
    f_equal. f_equal. rewrite Hbody. simpl tl.
    rewrite length_app. simpl length.
    replace (length body + S (length s1) - length s1 - 1)%nat with (length body) by lia.
    by rewrite take_app_length. }
  destruct (value_end (value_type s2) s2) as [s3|] eqn:E3; [|discriminate].
  destruct (load_after_value (chr "}") (Some s3)) as [s4|] eqn:E4; [|discriminate].
  apply IH; [|done].
  etrans; [exact (load_after_value_suffix _ _ _ E4)|].
  etrans; [exact (value_end_suffix _ _ _ E3)|].
  etrans; [|exact Hs]. rewrite Hbody, Hs1.
  exists (quote :: body ++ quote :: chr ":" :: ws). simpl.
  rewrite <- app_assoc. simpl. done.
Qed.

Lemma load_array_loading rt j D h0 n : forall e s h h',
  loading rt j JSON_ARRAY D h0 h ->
  load_array n j e s h = Ok tt h' ->
  loading rt j JSON_ARRAY D h0 h'.
Proof.
  induction n as [|n IH]; intros e s h h' Hl; [discriminate|]. simpl.
  destruct (before s e); simpl; [|by intros [= <-]].
  destruct (deref s =? chr "]"); [by intros [= <-]|].
  destruct (p_eat_whitespace s) as [s1|]; [|discriminate].
  destruct (add_child j s1 None (value_type s1) h) as [[] h1| | |] eqn:Eadd;
    try discriminate.
  assert (Hl1 : loading rt j JSON_ARRAY D h0 h1)
    by (eapply add_child_loading; [exact Hl|reflexivity|exact Eadd]).
  destruct (load_after_value (chr "]") (value_end (value_type s1) s1)) as [s4|];
    [|discriminate].
  by apply IH.
Qed.

(** What a call of [p_lazy_load] that returns leaves behind. *)
Lemma lazy_load_spec rt j h h' :
  wf rt h -> p_lazy_load (Some j) h = Ok tt h' ->
  wf rt h' /\ keeps_loaded h h'
  /\ exists nd, h' !! j = Some nd /\ children_count nd <> -1.
Proof.
  intros Hwf. unfold p_lazy_load.
  destruct (h !! j) as [nd|] eqn:Hj; [|discriminate].
  destruct (children_count nd =? -1) eqn:Ec; cbn [negb].
  2:{ intros [= <-]. split; [done|]. split; [apply keeps_loaded_refl|].
      exists nd. split; [done|]. by apply Z.eqb_neq. }
  apply Z.eqb_eq in Ec.
  set (nd0 := set_children_count 0 nd).
  assert (Hlt : (j < length h)%nat) by (by eapply lookup_lt_Some).
  assert (H0 : forall x, same_id nd x -> children x = children nd ->
            wf rt (<[j := x]> h)).
  { intros x Hid Hch. rewrite <- (app_nil_r (<[j := x]> h)).
    apply (wf_update rt h [] j nd x); [done|done|done|constructor|].
    intros c Hc. left. by rewrite <- Hch. }
  assert (Hk0 : forall x, keeps_loaded h (<[j := x]> h)).
  { intros x. rewrite <- (app_nil_r (<[j := x]> h)). by eapply keeps_loaded_update. }
  assert (Hj0 : forall x, <[j := x]> h !! j = Some x)
    by (intros x; by apply list_lookup_insert_eq).
  assert (Hloop : forall h1,
            loading rt j (node_type nd) (backing_data nd) (<[j := nd0]> h) h1 ->
            wf rt h1 /\ keeps_loaded h h1
            /\ exists x, h1 !! j = Some x /\ children_count x <> -1).
  { intros h1 (Hw1 & Hf1 & x & Hx & Hcx & _). split; [done|]. split.
    - intros k y Hk Hy. destruct (decide (k = j)) as [->|Hne]; [congruence|].
      apply Hf1; [done|]. by rewrite list_lookup_insert_ne.
    - exists x. split; [done|lia]. }
  assert (Hstart : loading rt j (node_type nd) (backing_data nd)
                     (<[j := nd0]> h) (<[j := nd0]> h)).
  { split; [by apply H0|]. split; [done|].
    exists nd0. split; [apply Hj0|]. by repeat split. }
  assert (Hset : forall x, same_id nd x -> children x = children nd ->
            children_count x = 0 ->
            wf rt (<[j := x]> (<[j := nd0]> h))
            /\ keeps_loaded h (<[j := x]> (<[j := nd0]> h))
            /\ exists y, <[j := x]> (<[j := nd0]> h) !! j = Some y
                         /\ children_count y <> -1).
  { intros x Hid Hch Hcx. rewrite list_insert_insert_eq.
    split; [by apply H0|]. split; [apply Hk0|].
    exists x. split; [apply Hj0|lia]. }
  change (node_type nd0) with (node_type nd).
  change (backing_data nd0) with (backing_data nd).
  destruct (node_type nd) eqn:HT;
    try (intros [= <-]; by apply Hloop).
  - destruct (p_is_valid_json _ _) as [e|]; [|discriminate].
    destruct (p_eat_whitespace _) as [s|] eqn:Ews; [|discriminate].
    intros Hload. apply Hloop.
    eapply load_object_loading; [|exact Hstart|exact Hload].
    etrans; [exact (eat_whitespace_suffix _ _ Ews)|]. apply tl_suffix_of.
  - destruct (p_is_valid_json _ _) as [e|]; [|discriminate].
    destruct (p_eat_whitespace _) as [s|]; [|discriminate].
    intros Hload. apply Hloop.
    eapply load_array_loading; [exact Hstart|exact Hload].
  - destruct (p_is_valid_number _) as [e|]; [|discriminate].
    intros [= <-]. by apply Hset.
  - destruct (p_is_valid_string _) as [e|]; [|discriminate].
    intros [= <-]. by apply Hset.
Qed.

(** *** Every operation keeps the tree well formed *)

Lemma preserved_refl rt h : wf rt h -> preserved rt h h.
Proof. intros H. split; [done|apply keeps_loaded_refl]. Qed.

Lemma preserved_trans rt h1 h2 h3 :
  preserved rt h1 h2 -> preserved rt h2 h3 -> preserved rt h1 h3.
Proof. intros [_ H12] [H3 H23]. split; [done|by eapply keeps_loaded_trans]. Qed.

Lemma lazy_load_if_spec rt j (nd : json) h h' :
  wf rt h ->
  (if children_count nd =? -1 then p_lazy_load (Some j) h else Ok tt h) = Ok tt h' ->
  preserved rt h h'
  /\ ((children_count nd =? -1) = true ->
      exists x, h' !! j = Some x /\ children_count x <> -1).
Proof.
  intros Hwf. destruct (children_count nd =? -1).
  - intros H. destruct (lazy_load_spec _ _ _ _ Hwf H) as (? & ? & ?).
    split; [by split|done].
  - intros [= <-]. split; [by apply preserved_refl|discriminate].
Qed.

Lemma loaded_spec rt j h nd h' :
  wf rt h -> loaded j h = Ok nd h' ->
  preserved rt h h' /\ h' !! j = Some nd /\ children_count nd <> -1.
Proof.
  intros Hwf. unfold loaded.
  destruct (h !! j) as [x|] eqn:Hj; [|discriminate].
  destruct (if children_count x =? -1 then _ else _) as [[] h1| | |] eqn:El;
    try discriminate.
  destruct (lazy_load_if_spec _ _ _ _ _ Hwf El) as [Hp Hc].
  destruct (h1 !! j) as [y|] eqn:Hy; [|discriminate].
  intros [= <- <-]. split; [done|]. split; [done|].
  destruct (children_count x =? -1) eqn:Ec.
  - destruct (Hc eq_refl) as (z & Hz & Hcz). congruence.
  - inversion El; subst h1. apply Z.eqb_neq in Ec. congruence.
Qed.

Lemma traverse_fuel_spec rt n : forall j path h v h',
  wf rt h -> p_traverse_json_fuel n j path h = Ok v h' -> preserved rt h h'.
Proof.
  induction n as [|n IH]; intros j path h v h' Hwf; [discriminate|].
  cbn [p_traverse_json_fuel].
  destruct (deref path =? 0); [intros [= <- <-]; by apply preserved_refl|].
  destruct j as [j|]; [|intros [= <- <-]; by apply preserved_refl].
  destruct (h !! j) as [nd|] eqn:Hj; [|discriminate].
  destruct (strcmp_eq path (cs "..")); [intros [= <- <-]; by apply preserved_refl|].
  destruct (starts_with (cs "../") path || starts_with (cs "..[") path);
    [by apply IH|].
  destruct (if children_count nd =? -1 then _ else _) as [[] h1| | |] eqn:El;
    try discriminate.
  destruct (lazy_load_if_spec _ _ _ _ _ Hwf El) as [Hp _].
  assert (Hrec : forall c p, p_traverse_json_fuel n c p h1 = Ok v h' ->
            preserved rt h h').
  { intros c p H. eapply preserved_trans; [exact Hp|]. eapply IH; [apply Hp|exact H]. }
  destruct (h1 !! j) as [nd1|]; [|discriminate].
  destruct (children nd1) as [|c0 kids]; [intros [= <- <-]; done|].
  destruct (node_type nd1); try (intros [= <- <-]; done).
  - destruct (find_child _ _ _ _); [|intros [= <- <-]; done|discriminate].
    destruct (deref (name_end path) =? 0); [intros [= <- <-]; done|apply Hrec].
  - destruct (index_end path) as [e|]; [|discriminate].
    destruct (deref e =? 0); [intros [= <- <-]; done|].
    destruct (negb _ && negb _ && negb _); [intros [= <- <-]; done|].
    cbv zeta.
    destruct (_ >=? _); [intros [= <- <-]; done|].
    destruct (_ <? 0); [discriminate|].
    destruct ((c0 :: kids) !! _); [|discriminate].
    destruct (deref (tl e) =? 0); [intros [= <- <-]; done|apply Hrec].
Qed.

Lemma json_traverse_spec rt j path h v h' :
  wf rt h -> json_traverse j path h = Ok v h' -> preserved rt h h'.
Proof.
  intros Hwf. unfold json_traverse, p_traverse_json.
  destruct j as [j|]; [|intros [= <- <-]; by apply preserved_refl].
  destruct (h !! j); [|discriminate].
  destruct (deref path =? chr "/"); by apply traverse_fuel_spec.
Qed.

Lemma exec_spec rt o h h' :
  wf rt h -> exec o h = Some h' -> preserved rt h h'.
Proof.
  intros Hwf.
  assert (Hl : forall A j (f : json -> A) (r : res A),
            match loaded j h with
            | Ok nd h1 => Ok (f nd) h1
            | Abort => Abort
            | Fault => Fault
            | NoFuel => NoFuel
            end = r -> store_of r = Some h' -> preserved rt h h').
  { intros A j f r <-. destruct (loaded j h) as [nd h1| | |] eqn:E; try discriminate.
    intros [= <-]. by destruct (loaded_spec _ _ _ _ _ Hwf E). }
  assert (Hsame : forall A (v : A), store_of (Ok v h) = Some h' -> preserved rt h h').
  { intros A v [= <-]. by apply preserved_refl. }
  destruct o as [j path|j|j|j|j|j n|j|j|j]; simpl.
  - destruct (json_traverse j path h) as [v h1| | |] eqn:E; try discriminate.
    intros [= <-]. by eapply json_traverse_spec.
  - unfold json_value_as_string. destruct j as [j|]; [|apply Hsame].
    destruct (h !! j) as [nd|]; [|discriminate].
    destruct (negb _); [apply Hsame|]. by eapply Hl.
  - unfold json_value_as_double. destruct j as [j|]; [|apply Hsame].
    destruct (h !! j) as [nd|]; [|discriminate].
    destruct (negb _); [apply Hsame|]. by eapply Hl.
  - unfold json_value_as_int. destruct j as [j|]; [|apply Hsame].
    destruct (h !! j) as [nd|]; [|discriminate].
    destruct (node_type_eqb _ _); [apply Hsame|].
    destruct (negb _); [apply Hsame|]. by eapply Hl.
  - unfold json_children_count. destruct j as [j|]; [|apply Hsame]. by eapply Hl.
  - unfold json_get_child. destruct j as [j|]; [|apply Hsame].
    destruct (loaded j h) as [nd h1| | |] eqn:E; try discriminate.
    destruct (loaded_spec _ _ _ _ _ Hwf E) as [Hp _].
    destruct (_ || _); [by intros [= <-]|].
    destruct (_ !! _); [by intros [= <-]|discriminate].
  - unfold json_get_name. destruct j as [j|]; [|apply Hsame].
    destruct (h !! j); [apply Hsame|discriminate].
  - unfold json_get_data. destruct j as [j|]; [|apply Hsame].
    destruct (h !! j) as [nd|]; [|discriminate].
    destruct (h !! root nd); [apply Hsame|discriminate].
  - unfold json_get_type. destruct j as [j|]; [|apply Hsame].
    destruct (h !! j); [apply Hsame|discriminate].
Qed.

Lemma json_parse_spec s len h rt :
  json_parse s len = Some (h, rt) ->
  rt = 0%nat
  /\ exists data type e,
       p_trim_whitespace s len = Some data
       /\ p_is_valid_json data type = Some e
       /\ (type = JSON_OBJECT \/ type = JSON_ARRAY)
       /\ h = [p_build_root_json_node 0%nat data type].
Proof.
  unfold json_parse.
  destruct (len =? 0)%nat; [discriminate|].
  destruct (negb (nth len s 0 =? 0)); [discriminate|].
  destruct (has_inner_nul s (len - 1)); [discriminate|].
  destruct (p_trim_whitespace s len) as [data|]; [|discriminate].
  destruct (negb _ && negb _); [discriminate|].
  destruct (p_is_valid_json data _) as [e|] eqn:E; [|discriminate].
  intros [= <- <-]. split; [done|]. exists data. eexists. exists e.
  split; [done|]. split; [exact E|]. split; [|done].
  destruct (deref data =? chr "["); [by right|by left].
Qed.

Lemma json_parse_wf s len h rt : json_parse s len = Some (h, rt) -> wf rt h.
Proof.
  intros H. destruct (json_parse_spec _ _ _ _ H) as (-> & data & type & e & _ & _ & _ & ->).
  split.
  - eexists. by split.
  - intros j nd c Hj Hc. destruct j as [|j]; [|done].
    inversion Hj; subst nd. by apply elem_of_nil in Hc.
Qed.

Lemma steps_preserved rt h h' : wf rt h -> rtc step h h' -> preserved rt h h'.
Proof.
  intros Hwf Hsteps. induction Hsteps as [h|h1 h2 h3 [o Ho] _ IH].
  - by apply preserved_refl.
  - pose proof (exec_spec _ _ _ _ Hwf Ho) as Hp.
    eapply preserved_trans; [exact Hp|]. apply IH, Hp.
Qed.

Lemma reachable_wf rt h : reachable rt h -> wf rt h.
Proof.
  intros (s & len & h0 & Hparse & Hsteps).
  by apply (steps_preserved rt h0 h (json_parse_wf _ _ _ _ Hparse)).
Qed.

(** ** Path resolution *)

(** The scan for the end of an array index never stops inside the path:
    no byte is both [']'] and the terminator. *)
Lemma index_end_none path : index_end path = None.
Proof.
  induction path as [|c path IH]; [reflexivity|]. cbn [index_end].
  assert (H : negb (c =? chr "]") || negb (c =? 0) = true).
  { destruct (c =? chr "]") eqn:E; [|reflexivity].
    apply Z.eqb_eq in E. subst c. reflexivity. }
  rewrite H. exact IH.
Qed.

Lemma find_child_elem h name kids count c :
  find_child h name kids count = Found c -> elem_of c kids.
Proof.
  revert kids. induction count as [|count IH]; intros [|k kids]; simpl;
    try discriminate.
  destruct (h !! k) as [cn|]; [|discriminate].
  destruct (path_name cn) as [pn|]; [|discriminate].
  destruct (strcmp_eq name pn).
  - intros [= <-]. apply list_elem_of_here.
  - intros H. apply list_elem_of_further. by apply IH.
Qed.

Lemma name_end_plain seg :
  forallb (fun c => negb (c =? chr "/") && negb (c =? chr "[") && negb (c =? 0)) seg = true ->
  name_end seg = [].
Proof.
  induction seg as [|c seg IH]; [reflexivity|]. simpl.
  intros H. apply andb_true_iff in H as [Hc Hseg]. rewrite Hc. by apply IH.
Qed.

Lemma starts_with_app lit s :
  starts_with lit s = true -> exists rest, s = lit ++ rest.
Proof.
  revert s. induction lit as [|a lit IH]; intros s; [by exists s|].
  destruct s as [|b s]; simpl; [discriminate|].
  rewrite andb_true_iff, Z.eqb_eq. intros [-> H].
  destruct (IH _ H) as [rest ->]. by exists rest.
Qed.

Lemma plain_key_no_parent seg :
  forallb (fun c => negb (c =? chr "/") && negb (c =? chr "[") && negb (c =? 0)) seg = true ->
  starts_with (cs "../") seg || starts_with (cs "..[") seg = false.
Proof.
  intros H. apply orb_false_iff. split.
  - destruct (starts_with (cs "../") seg) eqn:E; [|reflexivity].
    apply starts_with_app in E as [rest ->]. rewrite forallb_app in H.
    apply andb_true_iff in H as [H _]. vm_compute in H. discriminate.
  - destruct (starts_with (cs "..[") seg) eqn:E; [|reflexivity].
    apply starts_with_app in E as [rest ->]. rewrite forallb_app in H.
    apply andb_true_iff in H as [H _]. vm_compute in H. discriminate.
Qed.

(** A plain key resolves to an immediate child of the node it starts at. *)
Lemma traverse_plain_key rt r seg h c h' :
  wf rt h -> plain_key seg = true ->
  json_traverse (Some r) seg h = Ok (Some c) h' ->
  exists nd, h' !! r = Some nd /\ elem_of c (children nd).
Proof.
  intros Hwf Hkey. unfold plain_key in Hkey.
  apply andb_true_iff in Hkey as [Hkey Hall].
  apply andb_true_iff in Hkey as [Hnz Hdots].
  apply negb_true_iff in Hnz, Hdots.
  unfold json_traverse, p_traverse_json.
  destruct (h !! r) as [nd|] eqn:Hr; [|discriminate].
  assert (Hslash : (deref seg =? chr "/") = false).
  { destruct seg as [|a seg]; [reflexivity|]. simpl in Hall |- *.
    apply andb_true_iff in Hall as [Ha _].
    apply andb_true_iff in Ha as [Ha _]. apply andb_true_iff in Ha as [Ha _].
    by apply negb_true_iff in Ha. }
  rewrite Hslash. cbn [p_traverse_json_fuel].
  rewrite Hnz, Hr, Hdots, (plain_key_no_parent _ Hall).
  destruct (if children_count nd =? -1 then _ else _) as [[] h1| | |];
    try discriminate.
  destruct (h1 !! r) as [nd1|] eqn:Hr1; [|discriminate].
  destruct (children nd1) as [|c0 kids] eqn:Hkids; [discriminate|].
  destruct (node_type nd1); try discriminate.
  - destruct (find_child _ _ _ _) as [c'| |] eqn:Hfind; try discriminate.
    rewrite (name_end_plain _ Hall). simpl. intros [= <- <-].
    exists nd1. split; [done|]. rewrite Hkids. by eapply find_child_elem.
  - by rewrite index_end_none.
Qed.

Lemma sample_reachable : reachable 0 sample_store.
Proof.
  exists sample_doc, (length sample_doc), sample_parsed. split; [reflexivity|].
  apply (rtc_l _ _ sample_root_loaded);
    [by exists (ChildrenCount (Some 0%nat))|].
  apply rtc_once. by exists (ChildrenCount (Some 2%nat)).
Qed.

(** C8: In every store a program can reach, resolving [..] from an
    immediate child of a node gives that node back, in particular from the
    child that a one-key path resolved to; resolving [..] from the root,
    which has no parent, finds nothing. *)
Theorem parent_path_returns_parent rt h :
  reachable rt h ->
  (forall r nd c, h !! r = Some nd -> elem_of c (children nd) ->
     json_traverse (Some c) (cs "..") h = Ok (Some r) h)
  /\ (forall r seg c h', plain_key seg = true ->
        json_traverse (Some r) seg h = Ok (Some c) h' ->
        json_traverse (Some c) (cs "..") h' = Ok (Some r) h')
  /\ json_traverse (Some rt) (cs "..") h = Ok None h.
Proof.
  assert (Hup : forall (g : list json) c cn,
            g !! c = Some cn ->
            json_traverse (Some c) (cs "..") g = Ok (parent cn) g).
  { intros g c cn Hc. unfold json_traverse, p_traverse_json. rewrite Hc.
    change (deref (cs "..") =? chr "/") with false. cbn [p_traverse_json_fuel].
    change (deref (cs "..") =? 0) with false. rewrite Hc.
    by change (strcmp_eq (cs "..") (cs "..")) with true. }
  assert (Hchild : forall (g : list json) r nd c, wf rt g ->
            g !! r = Some nd -> elem_of c (children nd) ->
            json_traverse (Some c) (cs "..") g = Ok (Some r) g).
  { intros g r nd c Hwf Hr Hc.
    destruct (wf_children _ _ Hwf _ _ _ Hr Hc) as (cn & Hcn & Hp & _).
    by rewrite (Hup _ _ _ Hcn), Hp. }
  intros Hreach. pose proof (reachable_wf _ _ Hreach) as Hwf.
  split; [|split].
  - intros r nd c. by apply Hchild.
  - intros r seg c h' Hkey Htr.
    destruct (traverse_plain_key _ _ _ _ _ _ Hwf Hkey Htr) as (nd & Hr & Hc).
    apply (Hchild h' r nd c); [|done|done].
    by apply (json_traverse_spec rt _ _ _ _ _ Hwf Htr).
  - destruct (wf_root _ _ Hwf) as (r & Hr & Hp & _).
    by rewrite (Hup _ _ _ Hr), Hp.
Qed.

Lemma parent_path_returns_parent_witness :
  json_traverse (Some 0%nat) (cs "b") sample_store = Ok (Some 2%nat) sample_store
  /\ json_traverse (Some 2%nat) (cs "..") sample_store = Ok (Some 0%nat) sample_store
  /\ json_traverse (Some 0%nat) (cs "..") sample_store = Ok None sample_store.
Proof.
  split; [vm_compute; reflexivity|].
  destruct (parent_path_returns_parent 0 sample_store sample_reachable)
    as (_ & Hseg & Hroot).
  split; [|exact Hroot].
  apply (Hseg 0%nat (cs "b") 2%nat sample_store); vm_compute; reflexivity.
Defined.

(** Resolution into an array that has children never returns: whatever
    the path, the scan for [']'] leaves the path string. *)
Lemma traverse_array_faults h j nd path :
  h !! j = Some nd -> node_type nd = JSON_ARRAY ->
  children_count nd <> -1 -> children nd <> [] ->
  deref path <> 0 -> strcmp_eq path (cs "..") = false ->
  starts_with (cs "../") path || starts_with (cs "..[") path = false ->
  p_traverse_json (Some j) path h = Fault.
Proof.
  intros Hj HT Hc Hk Hnz Hdots Hup. unfold p_traverse_json.
  cbn [p_traverse_json_fuel].
  apply Z.eqb_neq in Hnz, Hc. rewrite Hnz, Hj, Hdots, Hup, Hc, Hj, HT.
  destruct (children nd); [done|]. by rewrite index_end_none.
Qed.

(** C3: resolution of an array index does not continue with the child.
    On the array member b of the sample tree, whose first child
    [json_get_child] returns, the path "b[0]" from the root and the path
    "0]" from the array itself do not resolve to that child: the resolver
    leaves the path string while it looks for the end of the index. *)
Theorem array_index_never_resolves :
  json_get_child (Some 2%nat) 0 sample_store = Ok (Some 3%nat) sample_store
  /\ json_traverse (Some 0%nat) (cs "b[0]") sample_store = Fault
  /\ json_traverse (Some 2%nat) (cs "0]") sample_store = Fault.
Proof. repeat split; vm_compute; reflexivity. Qed.

(** ** Lazy loading happens once *)

(** C10: In every store a program can reach, a node whose children are
    known (its count is not the mark -1 of the unknown state) is left as
    it is by every later operation, together with its children; a call of
    [json_children_count] that returns leaves the node in that known
    state; so the count it returns for a node is returned again by any
    later call on that node. *)
Theorem children_settle_once rt h :
  reachable rt h ->
  (forall h' k nd, rtc step h h' ->
     h !! k = Some nd -> children_count nd <> -1 -> h' !! k = Some nd)
  /\ (forall k n h1, json_children_count (Some k) h = Ok n h1 ->
        exists nd, h1 !! k = Some nd /\ children_count nd <> -1
                   /\ n = to_int (children_count nd))
  /\ (forall j n h1 h2, json_children_count j h = Ok n h1 ->
        rtc step h1 h2 -> json_children_count j h2 = Ok n h2).
Proof.
  intros Hreach. pose proof (reachable_wf _ _ Hreach) as Hwf. split; [|split].
  - intros h' k nd Hsteps. by apply (steps_preserved rt h h' Hwf Hsteps).
  - intros k n h1 Hcount. unfold json_children_count in Hcount.
    destruct (loaded k h) as [nd h1'| | |] eqn:El; try discriminate.
    inversion Hcount; subst n h1'.
    destruct (loaded_spec _ _ _ _ _ Hwf El) as (_ & Hj & Hc). by exists nd.
  - intros j n h1 h2 Hcount Hsteps. unfold json_children_count in *.
    destruct j as [j|]; [|by inversion Hcount].
    destruct (loaded j h) as [nd h1'| | |] eqn:El; try discriminate.
    inversion Hcount; subst n h1'. clear Hcount.
    destruct (loaded_spec _ _ _ _ _ Hwf El) as ([Hwf1 _] & Hj & Hc).
    destruct (steps_preserved rt h1 h2 Hwf1 Hsteps) as [_ Hkeep].
    unfold loaded. rewrite (Hkeep _ _ Hj Hc).
    apply Z.eqb_neq in Hc. by rewrite Hc, (Hkeep _ _ Hj ltac:(by apply Z.eqb_neq)).
Qed.

Lemma children_settle_once_witness :
  json_children_count (Some 0%nat) sample_store = Ok 2 sample_store
  /\ sample_store !! 0%nat = sample_root_loaded !! 0%nat.
Proof.
  destruct (children_settle_once 0 sample_root_loaded) as (Hkeep & _ & Htwice).
  { exists sample_doc, (length sample_doc), sample_parsed. split; [reflexivity|].
    apply rtc_once. by exists (ChildrenCount (Some 0%nat)). }
  assert (Hstep : rtc step sample_root_loaded sample_store)
    by (apply rtc_once; by exists (ChildrenCount (Some 2%nat))).
  split.
  - apply (Htwice (Some 0%nat) 2 sample_root_loaded sample_store);
      [vm_compute; reflexivity|exact Hstep].
  - destruct (sample_root_loaded !! 0%nat) as [nd|] eqn:E; [|vm_compute in E; discriminate].
    apply (Hkeep sample_store 0%nat nd Hstep E).
    vm_compute in E. inversion E. discriminate.
Defined.

(** ** Parsing *)

(** C1: parsing does not require the validation to consume the whole
    trimmed content. The buffer "[]x" parses: [json_parse] returns a root
    node of kind array although the validation of the trimmed content
    stops before the trailing x. *)
Theorem parse_accepts_trailing_bytes :
  json_parse (cs "[]x") 3
  = Some ([p_build_root_json_node 0%nat (cs "[]x") JSON_ARRAY], 0%nat)
  /\ p_trim_whitespace (cs "[]x") 3 = Some (cs "[]x")
  /\ p_is_valid_json (cs "[]x") JSON_ARRAY = Some (cs "x").
Proof. repeat split; vm_compute; reflexivity. Qed.

(** C2: the document "[1,2,3]" does not parse. Its last element is a
    number followed by the closing bracket, which the number validator
    refuses. With a space before the bracket the document parses and has
    three children. *)
Theorem parse_rejects_one_two_three :
  json_parse (cs "[1,2,3]") 7 = None
  /\ p_is_valid_number (cs "3]") = None
  /\ json_parse (cs "[1,2,3 ]") 8
     = Some ([p_build_root_json_node 0%nat (cs "[1,2,3 ]") JSON_ARRAY], 0%nat)
  /\ match json_children_count (Some 0%nat)
            [p_build_root_json_node 0%nat (cs "[1,2,3 ]") JSON_ARRAY] with
     | Ok n _ => n
     | _ => -1
     end = 3.
Proof. repeat split; vm_compute; reflexivity. Qed.

(** ** The fuel given is enough *)

Lemma suffix_same_length (e s : list char) :
  e `suffix_of` s -> length e = length s -> e = s.
Proof.
  intros [pre ->] Hlen. rewrite length_app in Hlen.
  destruct pre; [done|simpl in Hlen; lia].
Qed.

Lemma eat_whitespace_fixed s :
  deref s <> 0 -> p_is_whitespace (deref s) = false -> p_eat_whitespace s = Some s.
Proof.
  destruct s as [|c t]; simpl; [congruence|]. intros Hz Hw.
  apply Z.eqb_neq in Hz. by rewrite Hz, Hw.
Qed.

(** A child's value and what follows it take at least one byte. *)
Lemma child_value_strict close t s s' :
  deref s <> 0 -> p_is_whitespace (deref s) = false -> close <> chr "," ->
  t = value_type s ->
  load_after_value close (value_end t s) = Some s' ->
  (length s' < length s)%nat.
Proof.
  intros Hnz Hnw Hclose Ht Hl.
  destruct (value_end t s) as [e|] eqn:Ee; [|discriminate].
  pose proof (load_after_value_suffix _ _ _ Hl) as Hs'.
  pose proof (suffix_length _ _ Hs') as Ls'.
  pose proof (value_end_suffix _ _ _ Ee) as He.
  pose proof (suffix_length _ _ He) as Le.
  destruct (decide (length e = length s)) as [Heq|Hne]; [|lia].
  apply suffix_same_length in Heq; [|done]. subst e.
  assert (Hnum : is_number_end (deref s) = true).
  { unfold value_type in Ht.
    assert (Hdrop : forall k lit, starts_with lit s = true -> length lit = k ->
              (0 < k)%nat -> Some (drop k s) = Some s -> False).
    { intros k lit Hsw Hk Hpos [= Hd]. apply starts_with_app in Hsw as [rest ->].
      apply (f_equal length) in Hd. rewrite length_drop, length_app in Hd. lia. }
    destruct (deref s =? chr "{").
    { subst t. simpl in Ee. apply valid_json_suffix in Ee. lia. }
    destruct (deref s =? chr "[").
    { subst t. simpl in Ee. apply valid_json_suffix in Ee. lia. }
    destruct (starts_with (cs "true") s) eqn:E1.
    { subst t. simpl in Ee. by destruct (Hdrop 4%nat _ E1 eq_refl ltac:(lia) Ee). }
    destruct (starts_with (cs "null") s) eqn:E2.
    { subst t. simpl in Ee. by destruct (Hdrop 4%nat _ E2 eq_refl ltac:(lia) Ee). }
    destruct (starts_with (cs "false") s) eqn:E3.
    { subst t. simpl in Ee. by destruct (Hdrop 5%nat _ E3 eq_refl ltac:(lia) Ee). }
    destruct (deref s =? quote).
    { subst t. simpl in Ee. apply valid_string_suffix in Ee. lia. }
    subst t. simpl in Ee. by apply valid_number_spec in Ee as [? _]. }
  unfold is_number_end in Hnum. rewrite Hnw, orb_false_r in Hnum.
  simpl in Hl. rewrite (eat_whitespace_fixed _ Hnz Hnw) in Hl.
  apply Z.eqb_eq in Hnum. rewrite Hnum in Hl.
  apply Z.eqb_neq in Hclose. rewrite Z.eqb_sym, Hclose, Z.eqb_refl in Hl.
  destruct (p_eat_whitespace (tl s)) as [s2|] eqn:E2; [|discriminate].
  destruct (deref s2 =? close); [discriminate|]. inversion Hl; subst s'.
  pose proof (suffix_length _ _ (eat_whitespace_suffix _ _ E2)).
  pose proof (tl_length_lt _ Hnz). lia.
Qed.

Lemma add_child_fuel j data pn t h : add_child j data pn t h <> NoFuel.
Proof. unfold add_child. by destruct (h !! j). Qed.

Lemma load_object_fuel n : forall j e s h,
  (length s < n)%nat -> load_object n j e s h <> NoFuel.
Proof.
  induction n as [|n IH]; intros j e s h Hn; [lia|]. simpl.
  destruct (negb (before s e)); [done|].
  destruct (deref s =? chr "}"); [done|].
  destruct (deref s =? quote); [|done].
  destruct (p_is_valid_string s) as [s1|] eqn:E1; [|done].
  destruct (valid_string_suffix _ _ E1) as [_ L1].
  destruct (negb (deref s1 =? chr ":")); [done|].
  destruct (p_eat_whitespace (tl s1)) as [s2|] eqn:E2; [|done].
  pose proof (suffix_length _ _ (eat_whitespace_suffix _ _ E2)) as L2.
  pose proof (suffix_length _ _ (tl_suffix_of s1)) as L1'.
  destruct (add_child j s2 _ (value_type s2) h) as [[] h1| | |] eqn:Ea; try done.
  { destruct (value_end (value_type s2) s2) as [s3|] eqn:E3; [|done].
    destruct (load_after_value (chr "}") (Some s3)) as [s4|] eqn:E4; [|done].
    apply IH.
    pose proof (suffix_length _ _ (load_after_value_suffix _ _ _ E4)).
    pose proof (suffix_length _ _ (value_end_suffix _ _ _ E3)). lia. }
  by apply add_child_fuel in Ea.
Qed.

Lemma load_array_fuel n : forall j e s h,
  (length s < n)%nat -> load_array n j e s h <> NoFuel.
Proof.
  induction n as [|n IH]; intros j e s h Hn; [lia|]. simpl.
  destruct (negb (before s e)); [done|].
  destruct (deref s =? chr "]"); [done|].
  destruct (p_eat_whitespace s) as [s1|] eqn:E1; [|done].
  destruct (eat_whitespace_spec _ _ E1) as (ws & Hs & _ & Hnz & Hnw).
  assert (L1 : (length s1 <= length s)%nat) by (subst s; rewrite length_app; lia).
  destruct (add_child j s1 None (value_type s1) h) as [[] h1| | |] eqn:Ea; try done.
  { destruct (load_after_value _ _) as [s4|] eqn:E4; [|done].
    apply IH.
    assert (Hclose : chr "]" <> chr ",") by (by vm_compute).
    pose proof (child_value_strict _ _ _ _ Hnz Hnw Hclose eq_refl E4). lia. }
  by apply add_child_fuel in Ea.
Qed.

(** [p_lazy_load] and the resolver always come to an outcome of the code. *)
Lemma lazy_load_fuel j h : p_lazy_load j h <> NoFuel.
Proof.
  unfold p_lazy_load. destruct j as [j|]; [|done].
  destruct (h !! j) as [nd|]; [|done].
  destruct (negb _); [done|].
  change (node_type (set_children_count 0 nd)) with (node_type nd).
  change (backing_data (set_children_count 0 nd)) with (backing_data nd).
  destruct (node_type nd); try done.
  - destruct (p_is_valid_json _ _); [|done].
    destruct (p_eat_whitespace _); [|done]. apply load_object_fuel. lia.
  - destruct (p_is_valid_json _ _); [|done].
    destruct (p_eat_whitespace _); [|done]. apply load_array_fuel. lia.
  - by destruct (p_is_valid_number _).
  - by destruct (p_is_valid_string _).
Qed.

Lemma name_end_suffix path : name_end path `suffix_of` path.
Proof.
  induction path as [|c path IH]; [done|]. simpl.
  destruct (negb _ && negb _ && negb _); [|done].
  by apply suffix_cons_r.
Qed.

Lemma traverse_fuel n : forall j path h,
  (length path < n)%nat -> p_traverse_json_fuel n j path h <> NoFuel.
Proof.
  induction n as [|n IH]; intros j path h Hn; [lia|].
  cbn [p_traverse_json_fuel].
  destruct (deref path =? 0) eqn:Hnz; [done|]. apply Z.eqb_neq in Hnz.
  pose proof (tl_length_lt _ Hnz) as Lp.
  destruct j as [j|]; [|done].
  destruct (h !! j) as [nd|]; [|done].
  destruct (strcmp_eq path (cs "..")); [done|].
  destruct (starts_with (cs "../") path || starts_with (cs "..[") path).
  { apply IH. rewrite length_drop. destruct path; simpl in *; [congruence|lia]. }
  destruct (if children_count nd =? -1 then _ else _) as [[] h1| | |] eqn:El;
    try done.
  2:{ destruct (children_count nd =? -1); [|done]. by apply lazy_load_fuel in El. }
  destruct (h1 !! j) as [nd1|]; [|done].
  destruct (children nd1) as [|c0 kids]; [done|].
  destruct (node_type nd1); try done.
  - destruct (find_child _ _ _ _); [|done|done].
    destruct (deref (name_end path) =? 0) eqn:Hd; [done|]. apply Z.eqb_neq in Hd.
    apply IH. pose proof (tl_length_lt _ Hd).
    pose proof (suffix_length _ _ (name_end_suffix path)). lia.
  - by rewrite index_end_none.
Qed.

Lemma traverse_total j path h : p_traverse_json j path h <> NoFuel.
Proof. apply traverse_fuel. lia. Qed.

(** ** What [json_parse] accepts *)

(** [json_parse] returns a tree exactly when the length is not zero, the
    byte at [s + length] is NUL and none between is, something remains
    after trimming, it starts with ['{'] or ['['], and the validator
    returns a cursor; where that cursor stands is not looked at. *)
Lemma json_parse_accepts s len :
  is_Some (json_parse s len) <->
  len <> 0%nat /\ nth len s 0 = 0 /\ has_inner_nul s (len - 1) = false
  /\ exists data t,
       p_trim_whitespace s len = Some data
       /\ (deref data = chr "{" /\ t = JSON_OBJECT
           \/ deref data = chr "[" /\ t = JSON_ARRAY)
       /\ is_Some (p_is_valid_json data t).
Proof.
  unfold json_parse. split.
  - destruct (Nat.eqb_spec len 0); [by intros [? ?]|].
    destruct (Z.eqb_spec (nth len s 0) 0); simpl; [|by intros [? ?]].
    destruct (has_inner_nul s (len - 1)); [by intros [? ?]|].
    destruct (p_trim_whitespace s len) as [data|]; [|by intros [? ?]].
    destruct (Z.eqb_spec (deref data) (chr "{")) as [Ho|Ho]; simpl.
    + rewrite Ho. change (chr "{" =? chr "[") with false. cbv iota.
      destruct (p_is_valid_json data JSON_OBJECT) eqn:E; [|by intros [? ?]].
      intros _. repeat (split; [done|]). exists data, JSON_OBJECT.
      split; [done|]. split; [by left|by rewrite E].
    + destruct (Z.eqb_spec (deref data) (chr "[")) as [Ha|Ha]; simpl;
        [|by intros [? ?]].
      destruct (p_is_valid_json data JSON_ARRAY) eqn:E; [|by intros [? ?]].
      intros _. repeat (split; [done|]). exists data, JSON_ARRAY.
      split; [done|]. split; [by right|by rewrite E].
  - intros (Hlen & Hnul & Hinner & data & t & Htrim & Ht & [e He]).
    apply Nat.eqb_neq in Hlen. apply Z.eqb_eq in Hnul.
    rewrite Hlen, Hnul, Hinner, Htrim. simpl.
    destruct Ht as [[Hd ->]|[Hd ->]]; rewrite Hd.
    + change (chr "{" =? chr "{") with true. change (chr "{" =? chr "[") with false.
      simpl. by rewrite He.
    + change (chr "[" =? chr "{") with false. change (chr "[" =? chr "[") with true.
      simpl. by rewrite He.
Qed.

(** ** Worked examples *)

Example number_then_comma : p_is_valid_number (cs "12,3") = Some (cs ",3").
Proof. reflexivity. Qed.

Example number_with_exponent : p_is_valid_number (cs "-12e+3 ") = Some (cs " ").
Proof. reflexivity. Qed.

Example number_then_bracket : p_is_valid_number (cs "3]") = None.
Proof. reflexivity. Qed.

Example number_zero : p_is_valid_number (cs "0,") = None.
Proof. reflexivity. Qed.

Example key_then_colon : p_is_valid_string (dq "'a\n':1") = Some (cs ":1").
Proof. reflexivity. Qed.

Example nested_document :
  p_is_valid_json (dq "{'a':[1 ,true, 'x'], 'b' : {} }x") JSON_OBJECT = Some (cs "x").
Proof. vm_compute. reflexivity. Qed.

Example missing_value : json_parse (dq "{'a':}") 6 = None.
Proof. vm_compute. reflexivity. Qed.

Example unescape_newline : p_unescape_string (cs "a\nb") = [chr "a"; 10; chr "b"].
Proof. reflexivity. Qed.

Example unescape_euro : p_unescape_string (cs "\u20AC") = [0xE2; 0x82; 0xAC].
Proof. reflexivity. Qed.

Example sample_member_a :
  json_traverse (Some 0%nat) (cs "a") sample_store = Ok (Some 1%nat) sample_store
  /\ json_value_as_int (Some 1%nat) sample_store
     = Ok (round (atof (cs "1")))
          (<[1%nat := set_value_number (atof (cs "1")) (round (atof (cs "1")))
                        (set_children_count 0
                           (p_build_child_json_node 0%nat 0%nat
                              (dq "1 ,'b':[true ] }") (Some (cs "a")) JSON_NUMBER))]>
             sample_store).
Proof. split; vm_compute; reflexivity. Qed.

(** White space between a key and its colon passes validation but makes
    the loader abort. *)
Example space_before_colon :
  match json_parse (dq "{'a' :1 }") 9 with
  | Some (h, r) => json_children_count (Some r) h
  | None => Fault
  end = Abort.
Proof. vm_compute. reflexivity. Qed.

(** * More of the code *)

(** ** Every operation is a sequence of loads *)

Lemma lazy_load_if_steps j (nd : json) h h' :
  (if children_count nd =? -1 then p_lazy_load (Some j) h else Ok tt h) = Ok tt h' ->
  rtc lazy_step h h'.
Proof.
  destruct (children_count nd =? -1).
  - intros H. apply rtc_once. by exists j.
  - by intros [= <-].
Qed.

Lemma loaded_steps j h nd h' :
  loaded j h = Ok nd h' -> rtc lazy_step h h' /\ h' !! j = Some nd.
Proof.
  unfold loaded. destruct (h !! j) as [x|]; [|discriminate].
  destruct (if children_count x =? -1 then _ else _) as [[] h1| | |] eqn:El;
    try discriminate.
  destruct (h1 !! j) as [y|] eqn:Hy; [|discriminate].
  intros [= <- <-]. split; [by eapply lazy_load_if_steps|done].
Qed.

Lemma traverse_steps n : forall j path h v h',
  p_traverse_json_fuel n j path h = Ok v h' -> rtc lazy_step h h'.
Proof.
  induction n as [|n IH]; intros j path h v h'; [discriminate|].
  cbn [p_traverse_json_fuel].
  destruct (deref path =? 0); [by intros [= <- <-]|].
  destruct j as [j|]; [|by intros [= <- <-]].
  destruct (h !! j) as [nd|]; [|discriminate].
  destruct (strcmp_eq path (cs "..")); [by intros [= <- <-]|].
  destruct (starts_with (cs "../") path || starts_with (cs "..[") path);
    [by apply IH|].
  destruct (if children_count nd =? -1 then _ else _) as [[] h1| | |] eqn:El;
    try discriminate.
  pose proof (lazy_load_if_steps _ _ _ _ El) as H1.
  assert (Hrec : forall c p, p_traverse_json_fuel n c p h1 = Ok v h' ->
            rtc lazy_step h h').
  { intros c p H. etrans; [exact H1|]. by eapply IH. }
  destruct (h1 !! j) as [nd1|]; [|discriminate].
  destruct (children nd1) as [|c0 kids]; [by intros [= <- <-]|].
  destruct (node_type nd1); try (by intros [= <- <-]).
  - destruct (find_child _ _ _ _); [|by intros [= <- <-]|discriminate].
    destruct (deref (name_end path) =? 0); [by intros [= <- <-]|apply Hrec].
  - by rewrite index_end_none.
Qed.

Lemma exec_steps o h h' : exec o h = Some h' -> rtc lazy_step h h'.
Proof.
  assert (Hl : forall A j (f : json -> A) (r : res A),
            match loaded j h with
            | Ok nd h1 => Ok (f nd) h1
            | Abort => Abort
            | Fault => Fault
            | NoFuel => NoFuel
            end = r -> store_of r = Some h' -> rtc lazy_step h h').
  { intros A j f r <-. destruct (loaded j h) as [nd h1| | |] eqn:E; try discriminate.
    intros [= <-]. by destruct (loaded_steps _ _ _ _ E). }
  assert (Hsame : forall A (v : A), store_of (Ok v h) = Some h' -> rtc lazy_step h h').
  { by intros A v [= <-]. }
  destruct o as [j path|j|j|j|j|j n|j|j|j]; simpl.
  - unfold json_traverse, p_traverse_json.
    destruct j as [j|]; [|apply Hsame].
    destruct (h !! j); [|discriminate].
    destruct (deref path =? chr "/");
      (destruct (p_traverse_json_fuel _ _ _ _) as [v h1| | |] eqn:E; try discriminate;
       intros [= <-]; by eapply traverse_steps).
  - unfold json_value_as_string. destruct j as [j|]; [|apply Hsame].
    destruct (h !! j) as [nd|]; [|discriminate].
    destruct (negb _); [apply Hsame|]. by eapply Hl.
  - unfold json_value_as_double. destruct j as [j|]; [|apply Hsame].
    destruct (h !! j) as [nd|]; [|discriminate].
    destruct (negb _); [apply Hsame|]. by eapply Hl.
  - unfold json_value_as_int. destruct j as [j|]; [|apply Hsame].
    destruct (h !! j) as [nd|]; [|discriminate].
    destruct (node_type_eqb _ _); [apply Hsame|].
    destruct (negb _); [apply Hsame|]. by eapply Hl.
  - unfold json_children_count. destruct j as [j|]; [|apply Hsame]. by eapply Hl.
  - unfold json_get_child. destruct j as [j|]; [|apply Hsame].
    destruct (loaded j h) as [nd h1| | |] eqn:E; try discriminate.
    destruct (loaded_steps _ _ _ _ E) as [Hp _].
    destruct (_ || _); [by intros [= <-]|].
    destruct (_ !! _); [by intros [= <-]|discriminate].
  - unfold json_get_name. destruct j as [j|]; [|apply Hsame].
    destruct (h !! j); [apply Hsame|discriminate].
  - unfold json_get_data. destruct j as [j|]; [|apply Hsame].
    destruct (h !! j) as [nd|]; [|discriminate].
    destruct (h !! root nd); [apply Hsame|discriminate].
  - unfold json_get_type. destruct j as [j|]; [|apply Hsame].
    destruct (h !! j); [apply Hsame|discriminate].
Qed.

(** A property of stores that each returning load keeps is kept by every
    sequence of operations. *)
Lemma steps_invariant (P : list json -> Prop) h h' :
  (forall g g' j, P g -> p_lazy_load (Some j) g = Ok tt g' -> P g') ->
  P h -> rtc step h h' -> P h'.
Proof.
  intros Hload HP Hsteps. induction Hsteps as [h|h1 h2 h3 [o Ho] _ IH]; [done|].
  apply IH. pose proof (exec_steps _ _ _ Ho) as Hl. clear Ho IH.
  induction Hl as [g|g1 g2 g3 [j Hj] _ IHl]; [done|].
  apply IHl. by eapply Hload.
Qed.

(** The two loops of the loader, for any property that adding a validated
    child at a position of the text keeps. *)
Lemma load_object_generic (I : list json -> Prop) j D :
  (forall h h1 data pn, I h -> data `suffix_of` D ->
     is_Some (value_end (value_type data) data) ->
     add_child j data pn (value_type data) h = Ok tt h1 -> I h1) ->
  forall n e s h h', s `suffix_of` D -> I h ->
    load_object n j e s h = Ok tt h' -> I h'.
Proof.
  intros Hadd. induction n as [|n IH]; intros e s h h' Hs HI; [discriminate|].
  simpl.
  destruct (before s e); simpl; [|by intros [= <-]].
  destruct (deref s =? chr "}"); [by intros [= <-]|].
  destruct (deref s =? quote); [|discriminate].
  destruct (p_is_valid_string s) as [s1|] eqn:E1; [|discriminate].
  destruct (negb (deref s1 =? chr ":")); [discriminate|].
  destruct (p_eat_whitespace (tl s1)) as [s2|] eqn:E2; [|discriminate].
  assert (Hs2 : s2 `suffix_of` D).
  { etrans; [exact (eat_whitespace_suffix _ _ E2)|].
    etrans; [apply tl_suffix_of|].
    etrans; [exact (proj1 (valid_string_suffix _ _ E1))|exact Hs]. }
  destruct (add_child j s2 _ (value_type s2) h) as [[] h1| | |] eqn:Eadd;
    try discriminate.
  destruct (value_end (value_type s2) s2) as [s3|] eqn:E3; [|discriminate].
  destruct (load_after_value (chr "}") (Some s3)) as [s4|] eqn:E4; [|discriminate].
  apply IH.
  - etrans; [exact (load_after_value_suffix _ _ _ E4)|].
    etrans; [exact (value_end_suffix _ _ _ E3)|exact Hs2].
  - eapply Hadd; [exact HI|exact Hs2| |exact Eadd]. by rewrite E3.
Qed.

Lemma load_array_generic (I : list json -> Prop) j D :
  (forall h h1 data pn, I h -> data `suffix_of` D ->
     is_Some (value_end (value_type data) data) ->
     add_child j data pn (value_type data) h = Ok tt h1 -> I h1) ->
  forall n e s h h', s `suffix_of` D -> I h ->
    load_array n j e s h = Ok tt h' -> I h'.
Proof.
  intros Hadd. induction n as [|n IH]; intros e s h h' Hs HI; [discriminate|].
  simpl.
  destruct (before s e); simpl; [|by intros [= <-]].
  destruct (deref s =? chr "]"); [by intros [= <-]|].
  destruct (p_eat_whitespace s) as [s1|] eqn:E1; [|discriminate].
  assert (Hs1 : s1 `suffix_of` D)
    by (etrans; [exact (eat_whitespace_suffix _ _ E1)|exact Hs]).
  destruct (add_child j s1 None (value_type s1) h) as [[] h1| | |] eqn:Eadd;
    try discriminate.
  destruct (value_end (value_type s1) s1) as [s3|] eqn:E3; [|discriminate].
  destruct (load_after_value (chr "]") (Some s3)) as [s4|] eqn:E4; [|discriminate].
  apply IH.
  - etrans; [exact (load_after_value_suffix _ _ _ E4)|].
    etrans; [exact (value_end_suffix _ _ _ E3)|exact Hs1].
  - eapply Hadd; [exact HI|exact Hs1| |exact Eadd]. by rewrite E3.
Qed.

(** ** The shape of the store *)

Lemma node_ok_mono rt D n m j nd :
  node_ok rt D n j nd -> (n <= m)%nat -> node_ok rt D m j nd.
Proof.
  intros (H1 & H2 & H3 & H4 & H5 & H6 & H7 & H8) Hle. repeat (split; [done|]).
  split; [|done]. eapply Forall_impl; [exact H6|]. simpl. intros c Hc. lia.
Qed.

Lemma shape_update rt D (h new : list json) j nd nd' :
  shape rt D h -> h !! j = Some nd ->
  backing_data nd' = backing_data nd ->
  node_ok rt D (length h + length new) j nd' ->
  (forall i cn, new !! i = Some cn ->
     node_ok rt D (length h + length new) (length h + i) cn) ->
  shape rt D (<[j := nd']> h ++ new).
Proof.
  intros [(r & Hr & HD) Hall] Hj Hdata Hnd' Hnew.
  assert (Hlen : length (<[j := nd']> h ++ new) = (length h + length new)%nat)
    by (by rewrite length_app, length_insert).
  split.
  - eexists. split; [by apply lookup_update_old|].
    destruct (decide (rt = j)) as [->|_]; [|done]. congruence.
  - intros k x Hk. rewrite Hlen.
    destruct (lookup_update_inv _ _ _ _ _ _ Hk) as [(-> & -> & _)|[(Hne & Hk')|(Hge & Hk')]].
    + done.
    + eapply node_ok_mono; [by apply Hall|lia].
    + replace k with (length h + (k - length h))%nat by lia. by apply Hnew.
Qed.

Lemma add_child_filling rt D j h h1 data pn :
  filling rt D j h -> data `suffix_of` D ->
  is_Some (value_end (value_type data) data) ->
  add_child j data pn (value_type data) h = Ok tt h1 ->
  filling rt D j h1.
Proof.
  intros [Hsh (nd & Hj & Hcount)] Hdata Hval. unfold add_child.
  rewrite Hj. intros [= <-].
  pose proof (lookup_lt_Some _ _ _ Hj) as Hlt.
  destruct (proj2 Hsh _ _ Hj) as (H1 & H2 & H3 & H4 & H5 & H6 & H7 & H8).
  set (nd' := set_children _ _).
  set (child := p_build_child_json_node _ _ _ _ _).
  assert (Hcount' : children_count nd' = Z.of_nat (length (children nd'))).
  { simpl. rewrite length_app. simpl. lia. }
  split.
  - apply (shape_update rt D h [child] j nd nd'); [done|done|done| |].
    + repeat (split; [done|]). split; [by right|]. split; [|split; [done|]].
      * simpl. apply Forall_app. split.
        -- eapply Forall_impl; [exact H6|]. simpl. intros c Hc. lia.
        -- repeat constructor; simpl; lia.
      * intros _. apply H8. lia.
    + intros i cn Hi. destruct i as [|i]; [|done]. inversion Hi; subst cn.
      rewrite Nat.add_0_r. unfold node_ok, child. simpl.
      split; [done|]. split; [done|]. split; [done|]. split; [done|].
      split; [by left|]. split; [constructor|]. split; [lia|done].
  - exists nd'. split; [|done].
    rewrite (lookup_update_old _ _ _ _ _ nd Hj). by destruct (decide (j = j)).
Qed.

Lemma lazy_load_shape rt D j h h' :
  shape rt D h -> p_lazy_load (Some j) h = Ok tt h' -> shape rt D h'.
Proof.
  intros Hsh. unfold p_lazy_load.
  destruct (h !! j) as [nd|] eqn:Hj; [|discriminate].
  destruct (children_count nd =? -1) eqn:Ec; cbn [negb]; [|by intros [= <-]].
  apply Z.eqb_eq in Ec.
  destruct (proj2 Hsh _ _ Hj) as (H1 & H2 & H3 & H4 & H5 & H6 & H7 & _).
  assert (Hkids : children nd = []) by (destruct H5 as [[_ ?]|?]; [done|lia]).
  set (nd0 := set_children_count 0 nd).
  assert (Hset : forall x, same_id nd x -> children x = [] -> children_count x = 0 ->
            cached x -> shape rt D (<[j := x]> h)).
  { intros x (I1 & I2 & I3 & I4 & I5) Hx Hcx Hcached.
    rewrite <- (app_nil_r (<[j := x]> h)).
    apply (shape_update rt D h [] j nd x); [done|done|done| |done].
    unfold node_ok. rewrite <- I1, <- I2, <- I3, <- I4, Hx, Hcx.
    split; [done|]. split; [done|]. split; [done|]. split; [done|].
    split; [by right|]. split; [constructor|done]. }
  assert (Hfill : cached nd0 -> filling rt D j (<[j := nd0]> h)).
  { intros Hcached. split; [apply Hset; [by repeat split|exact Hkids|done|done]|].
    exists nd0. split; [|simpl; by rewrite Hkids].
    apply list_lookup_insert_eq. by eapply lookup_lt_Some. }
  change (node_type nd0) with (node_type nd).
  change (backing_data nd0) with (backing_data nd).
  destruct (node_type nd) eqn:HT;
    try (intros [= <-]; apply Hfill; unfold cached; simpl; by rewrite HT).
  - destruct (p_is_valid_json _ _) as [e|]; [|discriminate].
    destruct (p_eat_whitespace _) as [s|] eqn:Ews; [|discriminate].
    intros Hload.
    assert (Hc0 : cached nd0) by (unfold cached; simpl; by rewrite HT).
    refine (proj1 (load_object_generic (filling rt D j) j D _ _ _ _ _ _ _ (Hfill Hc0) Hload)).
    + intros g g1 data pn. apply add_child_filling.
    + etrans; [exact (eat_whitespace_suffix _ _ Ews)|].
      etrans; [apply tl_suffix_of|exact H2].
  - destruct (p_is_valid_json _ _) as [e|]; [|discriminate].
    destruct (p_eat_whitespace _) as [s|] eqn:Ews; [|discriminate].
    intros Hload.
    assert (Hc0 : cached nd0) by (unfold cached; simpl; by rewrite HT).
    refine (proj1 (load_array_generic (filling rt D j) j D _ _ _ _ _ _ _ (Hfill Hc0) Hload)).
    + intros g g1 data pn. apply add_child_filling.
    + etrans; [exact (eat_whitespace_suffix _ _ Ews)|].
      etrans; [apply tl_suffix_of|exact H2].
  - destruct (p_is_valid_number _) as [e|] eqn:E; [|discriminate].
    intros [= <-]. rewrite list_insert_insert_eq.
    apply Hset; [by repeat split|done|done|].
    unfold cached. simpl. rewrite HT. by exists e.
  - destruct (p_is_valid_string _) as [e|] eqn:E; [|discriminate].
    intros [= <-]. rewrite list_insert_insert_eq.
    apply Hset; [by repeat split|done|done|].
    unfold cached. simpl. rewrite HT. by exists e.
Qed.

Lemma json_parse_shape s len h rt :
  json_parse s len = Some (h, rt) ->
  exists D, p_trim_whitespace s len = Some D /\ shape rt D h.
Proof.
  unfold json_parse.
  destruct (len =? 0)%nat; [discriminate|].
  destruct (negb (nth len s 0 =? 0)); [discriminate|].
  destruct (has_inner_nul s (len - 1)); [discriminate|].
  destruct (p_trim_whitespace s len) as [data|]; [|discriminate].
  destruct (deref data =? chr "{") eqn:Eo; simpl.
  - assert (Ea : (deref data =? chr "[") = false).
    { apply Z.eqb_eq in Eo. by rewrite Eo. }
    rewrite Ea. destruct (p_is_valid_json data JSON_OBJECT) as [e|] eqn:E; [|discriminate].
    intros [= <- <-]. exists data. split; [done|]. split; [by eexists|].
    intros j nd Hj. destruct j as [|j]; [|done]. inversion Hj; subst nd.
    unfold node_ok. simpl. rewrite E. unfold value_type. rewrite Eo.
    split; [done|]. split; [done|]. split; [done|]. split; [done|].
    split; [by left|]. split; [constructor|]. split; [done|]. intros Hc. by destruct Hc.
  - destruct (deref data =? chr "[") eqn:Ea; simpl; [|discriminate].
    destruct (p_is_valid_json data JSON_ARRAY) as [e|] eqn:E; [|discriminate].
    intros [= <- <-]. exists data. split; [done|]. split; [by eexists|].
    intros j nd Hj. destruct j as [|j]; [|done]. inversion Hj; subst nd.
    unfold node_ok. simpl. rewrite E. unfold value_type. rewrite Eo, Ea.
    split; [done|]. split; [done|]. split; [done|]. split; [done|].
    split; [by left|]. split; [constructor|]. split; [done|]. intros Hc. by destruct Hc.
Qed.

Lemma steps_shape rt D h h' : shape rt D h -> rtc step h h' -> shape rt D h'.
Proof.
  intros Hsh. apply (steps_invariant (shape rt D)); [|done].
  intros g g' j Hg. by apply lazy_load_shape.
Qed.

Lemma reachable_shape rt h : reachable rt h -> exists D, shape rt D h.
Proof.
  intros (s & len & h0 & Hparse & Hsteps).
  destruct (json_parse_shape _ _ _ _ Hparse) as (D & _ & Hsh).
  exists D. by eapply steps_shape.
Qed.

(** ** The loader reads no node but the one it fills *)

Lemma add_child_keeps j data pn t (h h1 : list json) :
  add_child j data pn t h = Ok tt h1 -> is_Some (h1 !! j).
Proof.
  unfold add_child. destruct (h !! j) as [nd|] eqn:Hj; [|discriminate].
  intros [= <-]. rewrite (lookup_update_old _ _ _ _ _ nd Hj). by eexists.
Qed.

Lemma load_object_no_fault n : forall j e s (h : list json),
  is_Some (h !! j) -> load_object n j e s h <> Fault.
Proof.
  induction n as [|n IH]; intros j e s h Hj; [done|]. simpl.
  destruct (negb (before s e)); [done|].
  destruct (deref s =? chr "}"); [done|].
  destruct (deref s =? quote); [|done].
  destruct (p_is_valid_string s) as [s1|]; [|done].
  destruct (negb (deref s1 =? chr ":")); [done|].
  destruct (p_eat_whitespace (tl s1)) as [s2|]; [|done].
  destruct (add_child j s2 _ (value_type s2) h) as [[] h1| | |] eqn:Ea; try done.
  - destruct (load_after_value _ _); [|done]. apply IH. by eapply add_child_keeps.
  - unfold add_child in Ea. destruct Hj as [nd Hnd]. by rewrite Hnd in Ea.
Qed.

Lemma load_array_no_fault n : forall j e s (h : list json),
  is_Some (h !! j) -> load_array n j e s h <> Fault.
Proof.
  induction n as [|n IH]; intros j e s h Hj; [done|]. simpl.
  destruct (negb (before s e)); [done|].
  destruct (deref s =? chr "]"); [done|].
  destruct (p_eat_whitespace s) as [s1|]; [|done].
  destruct (add_child j s1 None (value_type s1) h) as [[] h1| | |] eqn:Ea; try done.
  - destruct (load_after_value _ _); [|done]. apply IH. by eapply add_child_keeps.
  - unfold add_child in Ea. destruct Hj as [nd Hnd]. by rewrite Hnd in Ea.
Qed.

Lemma lazy_load_no_fault j (h : list json) :
  is_Some (h !! j) -> p_lazy_load (Some j) h <> Fault.
Proof.
  intros [nd Hj]. unfold p_lazy_load. rewrite Hj.
  destruct (negb _); [done|].
  change (node_type (set_children_count 0 nd)) with (node_type nd).
  change (backing_data (set_children_count 0 nd)) with (backing_data nd).
  assert (Hj0 : is_Some (<[j := set_children_count 0 nd]> h !! j)).
  { rewrite list_lookup_insert_eq; [by eexists|by eapply lookup_lt_Some]. }
  destruct (node_type nd); try done.
  - destruct (p_is_valid_json _ _); [|done].
    destruct (p_eat_whitespace _); [|done]. by apply load_object_no_fault.
  - destruct (p_is_valid_json _ _); [|done].
    destruct (p_eat_whitespace _); [|done]. by apply load_array_no_fault.
  - by destruct (p_is_valid_number _).
  - by destruct (p_is_valid_string _).
Qed.

Lemma lazy_steps_shape rt D h h' :
  shape rt D h -> rtc lazy_step h h' -> shape rt D h'.
Proof.
  intros Hsh Hl. induction Hl as [g|g1 g2 g3 [j Hj] _ IH]; [done|].
  apply IH. by eapply lazy_load_shape.
Qed.

(** Loading a node of the tree ends with the node loaded or with
    [abort()]. *)
Lemma loaded_outcome rt D j h nd :
  wf rt h -> shape rt D h -> h !! j = Some nd ->
  loaded j h = Abort
  \/ exists nd' h', loaded j h = Ok nd' h' /\ h' !! j = Some nd'
                    /\ children_count nd' <> -1
                    /\ wf rt h' /\ shape rt D h' /\ keeps_loaded h h'.
Proof.
  intros Hwf Hsh Hj.
  destruct (loaded j h) as [nd' h'| | |] eqn:El.
  - right. exists nd', h'. split; [done|].
    destruct (loaded_spec _ _ _ _ _ Hwf El) as ([? ?] & ? & ?).
    destruct (loaded_steps _ _ _ _ El) as [Hl _].
    repeat (split; [done|]). split; [by eapply lazy_steps_shape|done].
  - by left.
  - exfalso. unfold loaded in El. rewrite Hj in El.
    destruct (children_count nd =? -1) eqn:Ec.
    + destruct (p_lazy_load (Some j) h) as [[] h1| | |] eqn:Ep; try discriminate.
      * destruct (lazy_load_spec _ _ _ _ Hwf Ep) as (_ & _ & x & Hx & _).
        by rewrite Hx in El.
      * by apply (lazy_load_no_fault j h); [eexists|].
    + by rewrite Hj in El.
  - exfalso. unfold loaded in El. rewrite Hj in El.
    destruct (children_count nd =? -1) eqn:Ec.
    + destruct (p_lazy_load (Some j) h) as [[] h1| | |] eqn:Ep; try discriminate.
      * by destruct (h1 !! j).
      * by apply (lazy_load_fuel (Some j) h).
    + by rewrite Hj in El.
Qed.

(** A loaded node of the tree: its count is the number of its children,
    each of which is a node of the store whose parent it is. *)
Lemma loaded_children rt D (h : list json) j nd :
  wf rt h -> shape rt D h -> h !! j = Some nd -> children_count nd <> -1 ->
  children_count nd = Z.of_nat (length (children nd))
  /\ forall i c, children nd !! i = Some c ->
       exists cn, h !! c = Some cn /\ parent cn = Some j.
Proof.
  intros Hwf Hsh Hj Hc.
  destruct (proj2 Hsh _ _ Hj) as (_ & _ & _ & _ & H5 & _).
  split; [destruct H5 as [[? _]|?]; [done|done]|].
  intros i c Hi.
  destruct (wf_children _ _ Hwf j nd c Hj) as (cn & Hcn & Hp & _);
    [by eapply list_elem_of_lookup_2|].
  by exists cn.
Qed.

(** X1: [json_get_child] on a node of the tree stays within the array of
    children. It ends with [abort()] in the loader or it returns; when it
    returns, the node is loaded, its count is the number of its children,
    and the result is NULL exactly for an index below 0 or not below that
    number, and otherwise the child at that index, a node whose parent is
    the node asked. *)
Theorem get_child_within_bounds rt h j nd n :
  reachable rt h -> h !! j = Some nd ->
  json_get_child (Some j) n h = Abort
  \/ exists v h' nd',
       json_get_child (Some j) n h = Ok v h'
       /\ h' !! j = Some nd'
       /\ children_count nd' = Z.of_nat (length (children nd'))
       /\ match v with
          | None => n < 0 \/ Z.of_nat (length (children nd')) <= n
          | Some c =>
              0 <= n < Z.of_nat (length (children nd'))
              /\ children nd' !! Z.to_nat n = Some c
              /\ exists cn, h' !! c = Some cn /\ parent cn = Some j
          end.
Proof.
  intros Hreach Hj. pose proof (reachable_wf _ _ Hreach) as Hwf.
  destruct (reachable_shape _ _ Hreach) as [D Hsh].
  unfold json_get_child.
  destruct (loaded_outcome _ _ _ _ _ Hwf Hsh Hj)
    as [->|(nd' & h' & -> & Hj' & Hc & Hwf' & Hsh' & _)]; [by left|right].
  destruct (loaded_children _ _ _ _ _ Hwf' Hsh' Hj' Hc) as [Hcount Hkids].
  rewrite Hcount.
  destruct (Z.ltb_spec n 0) as [Hneg|Hpos]; simpl.
  { exists None, h', nd'. repeat (split; [done|]). by left. }
  destruct (Z.geb_spec n (Z.of_nat (length (children nd')))) as [Hge|Hlt].
  { exists None, h', nd'. repeat (split; [done|]). right. lia. }
  destruct (children nd' !! Z.to_nat n) as [c|] eqn:Hn.
  - exists (Some c), h', nd'. split; [done|]. split; [done|]. split; [done|].
    split; [lia|]. split; [done|]. by eapply Hkids.
  - apply lookup_ge_None in Hn. lia.
Qed.

Lemma get_child_within_bounds_witness :
  json_get_child (Some 0%nat) 1 sample_store = Ok (Some 2%nat) sample_store
  /\ json_get_child (Some 0%nat) 2 sample_store = Ok None sample_store
  /\ (json_get_child (Some 0%nat) (-1) sample_store = Abort
      \/ exists v h' nd',
           json_get_child (Some 0%nat) (-1) sample_store = Ok v h'
           /\ h' !! 0%nat = Some nd'
           /\ children_count nd' = Z.of_nat (length (children nd'))
           /\ match v with
              | None => -1 < 0 \/ Z.of_nat (length (children nd')) <= -1
              | Some c =>
                  0 <= -1 < Z.of_nat (length (children nd'))
                  /\ children nd' !! Z.to_nat (-1) = Some c
                  /\ exists cn, h' !! c = Some cn /\ parent cn = Some 0%nat
              end).
Proof.
  split; [vm_compute; reflexivity|]. split; [vm_compute; reflexivity|].
  destruct (sample_store !! 0%nat) as [nd|] eqn:E; [|vm_compute in E; discriminate].
  exact (get_child_within_bounds 0 sample_store 0 nd (-1) sample_reachable E).
Defined.

Lemma parsed_shape s len h0 rt h :
  json_parse s len = Some (h0, rt) -> rtc step h0 h ->
  exists D, p_trim_whitespace s len = Some D /\ shape rt D h.
Proof.
  intros Hparse Hsteps.
  destruct (json_parse_shape _ _ _ _ Hparse) as (D & Htrim & Hsh).
  exists D. split; [done|]. by eapply steps_shape.
Qed.

(** X2: the loop of the demonstration program, [json_get_child(j, i)] for
    [i] from 0 below [json_children_count(j)], meets a child at every
    turn: after a count [n] is returned for a node of the tree, every
    index from 0 below [n] gives a node of the store, and leaves the
    store as it is. The count is the number of children as an [int]. *)
Theorem counted_children_exist rt h j nd n h' :
  reachable rt h -> h !! j = Some nd ->
  json_children_count (Some j) h = Ok n h' ->
  (exists nd', h' !! j = Some nd'
               /\ n = to_int (Z.of_nat (length (children nd'))))
  /\ forall i, 0 <= i < n ->
       exists c, json_get_child (Some j) i h' = Ok (Some c) h'
                 /\ is_Some (h' !! c).
Proof.
  intros Hreach Hj. pose proof (reachable_wf _ _ Hreach) as Hwf.
  destruct (reachable_shape _ _ Hreach) as [D Hsh].
  unfold json_children_count, json_get_child.
  destruct (loaded_outcome _ _ _ _ _ Hwf Hsh Hj)
    as [->|(nd' & g & Hl & Hj' & Hc & Hwf' & Hsh' & _)]; [discriminate|].
  rewrite Hl. intros [= <- <-].
  destruct (loaded_children _ _ _ _ _ Hwf' Hsh' Hj' Hc) as [Hcount Hkids].
  split; [exists nd'; by rewrite Hcount|].
  intros i Hi.
  assert (Hlen : to_int (children_count nd') <= children_count nd').
  { unfold to_int. rewrite Hcount.
    pose proof (Z.mod_pos_bound (Z.of_nat (length (children nd')) + 2 ^ 31) (2 ^ 32)
                  ltac:(lia)).
    destruct (Z.lt_ge_cases (Z.of_nat (length (children nd'))) (2 ^ 31));
      [rewrite Z.mod_small by lia|]; lia. }
  assert (Hload : loaded j g = Ok nd' g).
  { unfold loaded. rewrite Hj'. apply Z.eqb_neq in Hc. by rewrite Hc, Hj'. }
  rewrite Hload.
  destruct (Z.ltb_spec i 0) as [?|_]; [lia|].
  assert (Hge : (i >=? children_count nd') = false) by (rewrite Z.geb_leb; lia).
  rewrite Hge. simpl.
  destruct (children nd' !! Z.to_nat i) as [c|] eqn:Hn.
  - exists c. split; [done|]. destruct (Hkids _ _ Hn) as (cn & -> & _). by eexists.
  - apply lookup_ge_None in Hn. lia.
Qed.

Lemma counted_children_exist_witness :
  json_children_count (Some 0%nat) sample_parsed = Ok 2 sample_root_loaded
  /\ exists c, json_get_child (Some 0%nat) 1 sample_root_loaded
               = Ok (Some c) sample_root_loaded
               /\ is_Some (sample_root_loaded !! c).
Proof.
  assert (Hreach : reachable 0 sample_parsed).
  { exists sample_doc, (length sample_doc), sample_parsed. by split. }
  destruct (sample_parsed !! 0%nat) as [nd|] eqn:E; [|vm_compute in E; discriminate].
  assert (Hcount : json_children_count (Some 0%nat) sample_parsed
                   = Ok 2 sample_root_loaded) by (vm_compute; reflexivity).
  split; [exact Hcount|].
  apply (proj2 (counted_children_exist 0 sample_parsed 0 nd 2 sample_root_loaded
                  Hreach E Hcount)). lia.
Defined.

(** X3: whatever the node of the tree it is asked on, after any
    operations, [json_get_data] returns the text given to [json_parse]
    with its surrounding white space trimmed off. *)
Theorem get_data_is_trimmed_document s len h0 rt h j nd :
  json_parse s len = Some (h0, rt) -> rtc step h0 h -> h !! j = Some nd ->
  exists D, p_trim_whitespace s len = Some D
            /\ json_get_data (Some j) h = Ok D h.
Proof.
  intros Hparse Hsteps Hj.
  destruct (parsed_shape _ _ _ _ _ Hparse Hsteps) as (D & Htrim & (r & Hr & HD) & Hall).
  exists D. split; [done|].
  destruct (Hall _ _ Hj) as (Hroot & _).
  unfold json_get_data. by rewrite Hj, Hroot, Hr, HD.
Qed.

Lemma get_data_is_trimmed_document_witness :
  exists D, p_trim_whitespace sample_doc (length sample_doc) = Some D
            /\ json_get_data (Some 3%nat) sample_store = Ok D sample_store.
Proof.
  destruct (sample_store !! 3%nat) as [nd|] eqn:E; [|vm_compute in E; discriminate].
  refine (get_data_is_trimmed_document sample_doc (length sample_doc)
            sample_parsed 0 sample_store 3 nd eq_refl _ E).
  apply (rtc_l _ _ sample_root_loaded);
    [by exists (ChildrenCount (Some 0%nat))|].
  apply rtc_once. by exists (ChildrenCount (Some 2%nat)).
Defined.

(** X4: a path that starts with ['/'] resolves the same from every node
    of the tree: it is the rest of the path resolved from the root. *)
Theorem absolute_path_from_any_node rt h j nd path :
  reachable rt h -> h !! j = Some nd ->
  json_traverse (Some j) (chr "/" :: path) h = p_traverse_json (Some rt) path h
  /\ json_traverse (Some j) (chr "/" :: path) h
     = json_traverse (Some rt) (chr "/" :: path) h.
Proof.
  intros Hreach Hj. destruct (reachable_shape _ _ Hreach) as (D & (r & Hr & _) & Hall).
  destruct (Hall _ _ Hj) as (Hroot & _). destruct (Hall _ _ Hr) as (Hroot' & _).
  unfold json_traverse. rewrite Hj, Hr, Hroot, Hroot'.
  by change (deref (chr "/" :: path) =? chr "/") with true.
Qed.

Lemma absolute_path_from_any_node_witness :
  json_traverse (Some 3%nat) (cs "/a") sample_store
  = json_traverse (Some 0%nat) (cs "/a") sample_store.
Proof.
  destruct (sample_store !! 3%nat) as [nd|] eqn:E; [|vm_compute in E; discriminate].
  exact (proj2 (absolute_path_from_any_node 0 sample_store 3 nd (cs "a")
                  sample_reachable E)).
Defined.

(** ** Values of the leaves *)

Lemma string_between_quotes (body r : list char) :
  take (length (tl (quote :: body ++ quote :: r)) - length r - 1)
    (tl (quote :: body ++ quote :: r)) = body.
Proof.
  simpl tl. rewrite length_app. simpl length.
  replace (length body + S (length r) - length r - 1)%nat with (length body) by lia.
  by rewrite take_app_length.
Qed.

Lemma span_prefix (txt e : list char) : span (txt ++ e) e = txt.
Proof.
  unfold span. rewrite length_app.
  replace (length txt + length e - length e)%nat with (length txt) by lia.
  by rewrite take_app_length.
Qed.

(** A string or number node of the tree, once asked, is loaded with its
    values: loading it never ends in [abort()]. *)
Lemma loaded_leaf rt D (h : list json) j nd :
  shape rt D h -> h !! j = Some nd ->
  node_type nd = JSON_STRING \/ node_type nd = JSON_NUMBER ->
  exists nd' h', loaded j h = Ok nd' h' /\ cached nd'
                 /\ node_type nd' = node_type nd
                 /\ backing_data nd' = backing_data nd.
Proof.
  intros Hsh Hj HT.
  destruct (proj2 Hsh _ _ Hj) as (_ & _ & Hval & _ & _ & _ & _ & Hcached).
  pose proof (lookup_lt_Some _ _ _ Hj) as Hlt.
  unfold loaded. rewrite Hj.
  destruct (children_count nd =? -1) eqn:Ec.
  - unfold p_lazy_load. rewrite Hj, Ec. cbn [negb].
    change (node_type (set_children_count 0 nd)) with (node_type nd).
    change (backing_data (set_children_count 0 nd)) with (backing_data nd).
    destruct HT as [HT|HT]; rewrite HT in Hval |- *; simpl in Hval;
      destruct Hval as [e He]; rewrite He;
      rewrite list_insert_insert_eq, list_lookup_insert_eq by done;
      eexists; eexists; (split; [reflexivity|]);
      (split; [unfold cached; simpl; rewrite HT; by exists e|done]).
  - rewrite Hj. apply Z.eqb_neq in Ec. exists nd, h. split; [done|].
    split; [by apply Hcached|done].
Qed.

(** X5: the string accessor on a string node of the tree always returns:
    its result is the decoding, read as a C string, of the bytes that
    stand between the quotes of the node's text. *)
Theorem string_value_is_decoded_body rt h j nd :
  reachable rt h -> h !! j = Some nd -> node_type nd = JSON_STRING ->
  exists body r h',
    backing_data nd = quote :: body ++ quote :: r
    /\ p_is_valid_string (backing_data nd) = Some r
    /\ json_value_as_string (Some j) h
       = Ok (Some (c_str (p_unescape_string body))) h'.
Proof.
  intros Hreach Hj HT. destruct (reachable_shape _ _ Hreach) as [D Hsh].
  destruct (loaded_leaf _ _ _ _ _ Hsh Hj (or_introl HT))
    as (nd' & h' & Hl & Hc & HT' & HD').
  unfold cached in Hc. rewrite HT', HT, HD' in Hc. destruct Hc as (r & Hr & Hv).
  destruct (valid_string_spec _ _ Hr) as (body & Hbody & _).
  exists body, r, h'. split; [done|]. split; [done|].
  unfold json_value_as_string. rewrite Hj, HT, Hl, Hv. simpl.
  by rewrite Hbody, string_between_quotes.
Qed.

Lemma string_value_is_decoded_body_witness :
  let doc := dq "['a\nb' ]" in
  let nd := p_build_child_json_node 0%nat 0%nat (dq "'a\nb' ]") None JSON_STRING in
  let h := [set_children [1%nat]
              (set_children_count 1 (p_build_root_json_node 0%nat doc JSON_ARRAY)); nd] in
  exists body r h',
    backing_data nd = quote :: body ++ quote :: r
    /\ p_is_valid_string (backing_data nd) = Some r
    /\ json_value_as_string (Some 1%nat) h
       = Ok (Some (c_str (p_unescape_string body))) h'.
Proof.
  intros doc nd h.
  apply (string_value_is_decoded_body 0 h 1 nd); [|reflexivity|reflexivity].
  exists doc, 9%nat, [p_build_root_json_node 0%nat doc JSON_ARRAY].
  split; [vm_compute; reflexivity|].
  apply rtc_once. exists (GetChild (Some 0%nat) 0). vm_compute. reflexivity.
Defined.

(** X6: the number accessors on a number node of the tree whose numeral
    is an optional minus sign and at most eighteen digits, so that its
    value lies within the range of [int64_t] and the conversion of what
    [round] returns is defined: both accessors return. What they hand to
    libc's [atof] is the node's text up to the cursor of the number
    validator, which stands on a comma or on white space; the double is
    what [atof] returns for it and the integer is libc's [round] of that
    double. *)
Theorem number_value_is_numeral rt h j nd :
  reachable rt h -> h !! j = Some nd -> node_type nd = JSON_NUMBER ->
  small_numeral (numeral (backing_data nd)) = true ->
  exists txt e h',
    txt = numeral (backing_data nd)
    /\ backing_data nd = txt ++ e
    /\ p_is_valid_number (backing_data nd) = Some e
    /\ is_number_end (deref e) = true
    /\ json_value_as_double (Some j) h = Ok (atof txt) h'
    /\ json_value_as_int (Some j) h = Ok (round (atof txt)) h'.
Proof.
  intros Hreach Hj HT _. destruct (reachable_shape _ _ Hreach) as [D Hsh].
  destruct (loaded_leaf _ _ _ _ _ Hsh Hj (or_intror HT))
    as (nd' & h' & Hl & Hc & HT' & HD').
  unfold cached in Hc. rewrite HT', HT, HD' in Hc.
  destruct Hc as (e & He & Hd & Hi).
  destruct (valid_number_spec _ _ He) as (Hend & txt & Htxt).
  exists txt, e, h'.
  split; [unfold numeral; by rewrite He, Htxt, span_prefix|].
  split; [done|]. split; [done|]. split; [done|].
  unfold json_value_as_double, json_value_as_int.
  rewrite Hj, HT, Hl, Hd, Hi. simpl. by rewrite Htxt, span_prefix.
Qed.

Lemma number_value_is_numeral_witness :
  let nd := p_build_child_json_node 0%nat 0%nat (dq "1 ,'b':[true ] }")
              (Some (cs "a")) JSON_NUMBER in
  small_numeral (numeral (backing_data nd)) = true
  /\ exists txt e h',
       txt = numeral (backing_data nd)
       /\ backing_data nd = txt ++ e
       /\ p_is_valid_number (backing_data nd) = Some e
       /\ is_number_end (deref e) = true
       /\ json_value_as_double (Some 1%nat) sample_store = Ok (atof txt) h'
       /\ json_value_as_int (Some 1%nat) sample_store = Ok (round (atof txt)) h'.
Proof.
  intros nd. split; [vm_compute; reflexivity|].
  apply (number_value_is_numeral 0 sample_store 1 nd sample_reachable);
    [vm_compute| |vm_compute]; reflexivity.
Defined.

(** X7: every node of the tree is a view into the document. Its text is
    a position inside the trimmed text given to [json_parse]; its kind, as
    [json_get_type] returns it, is the one the first bytes of that text
    decide; and the text starts with a value that the validator of that
    kind accepts. *)
Theorem node_is_view_of_document s len h0 rt h j nd :
  json_parse s len = Some (h0, rt) -> rtc step h0 h -> h !! j = Some nd ->
  exists D, p_trim_whitespace s len = Some D
    /\ backing_data nd `suffix_of` D
    /\ json_get_type (Some j) h = Ok (value_type (backing_data nd)) h
    /\ is_Some (value_end (value_type (backing_data nd)) (backing_data nd)).
Proof.
  intros Hparse Hsteps Hj.
  destruct (parsed_shape _ _ _ _ _ Hparse Hsteps) as (D & Htrim & _ & Hall).
  destruct (Hall _ _ Hj) as (_ & Hsuf & Hval & HT & _).
  exists D. split; [done|]. split; [done|].
  unfold json_get_type. rewrite Hj, <- HT. by split.
Qed.

Lemma node_is_view_of_document_witness :
  let nd := p_build_child_json_node 0%nat 2%nat (dq "true ] }") None JSON_TRUE in
  exists D, p_trim_whitespace sample_doc (length sample_doc) = Some D
    /\ backing_data nd `suffix_of` D
    /\ json_get_type (Some 3%nat) sample_store
       = Ok (value_type (backing_data nd)) sample_store
    /\ is_Some (value_end (value_type (backing_data nd)) (backing_data nd)).
Proof.
  intros nd.
  refine (node_is_view_of_document sample_doc (length sample_doc)
            sample_parsed 0 sample_store 3 nd eq_refl _ _).
  - apply (rtc_l _ _ sample_root_loaded);
      [by exists (ChildrenCount (Some 0%nat))|].
    apply rtc_once. by exists (ChildrenCount (Some 2%nat)).
  - vm_compute. reflexivity.
Defined.

(** ** Paths of several keys *)

Lemma list_eqb_eq a b : list_eqb a b = true <-> a = b.
Proof.
  revert b. induction a as [|x a IH]; destruct b as [|y b]; simpl; try done.
  rewrite andb_true_iff, Z.eqb_eq, IH. split; [by intros [-> ->]|by intros [= -> ->]].
Qed.

Lemma c_str_plain a s :
  Forall (fun c => c <> 0) a -> c_str (a ++ s) = a ++ c_str s.
Proof.
  induction 1 as [|c a Hc _ IH]; [done|]. simpl.
  apply Z.eqb_neq in Hc. by rewrite Hc, IH.
Qed.

Lemma c_str_no_nul a : Forall (fun c => c <> 0) a -> c_str a = a.
Proof.
  intros H. rewrite <- (app_nil_r a) at 1. rewrite c_str_plain by done.
  simpl. by rewrite app_nil_r.
Qed.

(** The bytes of a key: none is ['/'], ['['] or NUL. *)
Lemma key_bytes_spec a :
  forallb (fun c => negb (c =? chr "/") && negb (c =? chr "[") && negb (c =? 0)) a = true ->
  Forall (fun c => c <> chr "/" /\ c <> chr "[" /\ c <> 0) a.
Proof.
  rewrite forallb_forall, Forall_forall. intros H c Hc.
  apply list_elem_of_In in Hc. specialize (H c Hc).
  rewrite !andb_true_iff, !negb_true_iff, !Z.eqb_neq in H. tauto.
Qed.

Lemma name_end_key a b :
  Forall (fun c => c <> chr "/" /\ c <> chr "[" /\ c <> 0) a ->
  name_end (a ++ chr "/" :: b) = chr "/" :: b.
Proof.
  induction 1 as [|c a (H1 & H2 & H3) _ IH]; [done|]. simpl.
  apply Z.eqb_neq in H1, H2, H3. by rewrite H1, H2, H3.
Qed.

Lemma plain_key_spec a :
  plain_key a = true ->
  a <> [] /\ a <> cs ".."
  /\ Forall (fun c => c <> chr "/" /\ c <> chr "[" /\ c <> 0) a.
Proof.
  unfold plain_key. rewrite !andb_true_iff, !negb_true_iff.
  intros [[Hnz Hdots] Hall]. apply key_bytes_spec in Hall.
  split; [by intros ->|]. split; [|done].
  intros ->. by vm_compute in Hdots.
Qed.

(** How a path made of a key, a ['/'] and more reads at its start. *)
Lemma key_path_start a b :
  plain_key a = true ->
  (deref (a ++ chr "/" :: b) =? 0) = false
  /\ strcmp_eq (a ++ chr "/" :: b) (cs "..") = false
  /\ starts_with (cs "../") (a ++ chr "/" :: b)
     || starts_with (cs "..[") (a ++ chr "/" :: b) = false.
Proof.
  intros Hkey. destruct (plain_key_spec _ Hkey) as (Hne & Hdots & Hall).
  split; [|split].
  - destruct a as [|c a]; [done|]. simpl. apply Forall_cons in Hall as [(_ & _ & Hc) _].
    by apply Z.eqb_neq.
  - destruct (strcmp_eq _ _) eqn:E; [|done]. exfalso.
    unfold strcmp_eq in E. apply list_eqb_eq in E.
    rewrite c_str_plain in E by (eapply Forall_impl; [exact Hall|]; simpl; tauto).
    destruct a as [|a0 [|a1 a]]; [done| |]; vm_compute in E; inversion E; subst.
    destruct a; discriminate.
  - apply orb_false_iff. split.
    + destruct (starts_with (cs "../") _) eqn:E; [|done]. exfalso.
      apply starts_with_app in E as [rest E].
      destruct a as [|a0 [|a1 [|a2 a]]]; [done| | |];
        vm_compute in E; inversion E; subst.
      * by apply Hdots.
      * apply Forall_cons in Hall as [_ Hall]. apply Forall_cons in Hall as [_ Hall].
        apply Forall_cons in Hall as [(H & _) _]. by apply H.
    + destruct (starts_with (cs "..[") _) eqn:E; [|done]. exfalso.
      apply starts_with_app in E as [rest E].
      destruct a as [|a0 [|a1 [|a2 a]]]; [done| | |];
        vm_compute in E; inversion E; subst.
      apply Forall_cons in Hall as [_ Hall]. apply Forall_cons in Hall as [_ Hall].
      apply Forall_cons in Hall as [(_ & H & _) _]. by apply H.
Qed.

(** The resolver's result does not depend on the fuel, once there is more
    of it than bytes in the path. *)
Lemma traverse_fuel_irrelevant n : forall m j path h,
  (length path < n)%nat -> (length path < m)%nat ->
  p_traverse_json_fuel n j path h = p_traverse_json_fuel m j path h.
Proof.
  induction n as [|n IH]; intros m j path h Hn Hm; [lia|].
  destruct m as [|m]; [lia|]. cbn [p_traverse_json_fuel].
  destruct (deref path =? 0) eqn:Hnz; [done|]. apply Z.eqb_neq in Hnz.
  pose proof (tl_length_lt _ Hnz) as Lp.
  destruct j as [j|]; [|done].
  destruct (h !! j) as [nd|]; [|done].
  destruct (strcmp_eq path (cs "..")); [done|].
  destruct (starts_with (cs "../") path || starts_with (cs "..[") path).
  { apply IH; rewrite length_drop; destruct path; simpl in *; try congruence; lia. }
  destruct (if children_count nd =? -1 then _ else _) as [[] h1| | |]; try done.
  destruct (h1 !! j) as [nd1|]; [|done].
  destruct (children nd1) as [|c0 kids]; [done|].
  destruct (node_type nd1); try done.
  - destruct (find_child _ _ _ _); [|done|done].
    destruct (deref (name_end path) =? 0) eqn:Hd; [done|]. apply Z.eqb_neq in Hd.
    pose proof (tl_length_lt _ Hd).
    pose proof (suffix_length _ _ (name_end_suffix path)).
    apply IH; lia.
  - by rewrite index_end_none.
Qed.

Lemma find_child_valid (h : list json) name kids count c :
  find_child h name kids count = Found c -> is_Some (h !! c).
Proof.
  revert kids. induction count as [|count IH]; intros [|k kids]; simpl;
    try discriminate.
  destruct (h !! k) as [cn|] eqn:Hk; [|discriminate].
  destruct (path_name cn) as [pn|]; [|discriminate].
  destruct (strcmp_eq name pn); [|by apply IH].
  intros [= <-]. by rewrite Hk.
Qed.

(** X8: a path of a key, a ['/'] and a rest resolves as the rest resolved
    from what the key alone resolves to, in the store the first step
    leaves: [traverse(r, "a/b") = traverse(traverse(r, "a"), "b")]. *)
Theorem traverse_key_then_rest r a b (h : list json) :
  plain_key a = true -> deref b <> chr "/" ->
  json_traverse (Some r) (a ++ chr "/" :: b) h
  = match json_traverse (Some r) a h with
    | Ok v h1 => json_traverse v b h1
    | Abort => Abort
    | Fault => Fault
    | NoFuel => NoFuel
    end.
Proof.
  intros Hkey Hb. destruct (plain_key_spec _ Hkey) as (Hne & Hdots & Hall).
  destruct (key_path_start a b Hkey) as (Hnz & Hnd & Hup).
  assert (Hnz' : (deref a =? 0) = false).
  { destruct a as [|c a]; [done|]. apply Forall_cons in Hall as [(_ & _ & Hc) _].
    by apply Z.eqb_neq. }
  assert (Hslash : forall s, (deref (a ++ s) =? chr "/") = false).
  { intros s. destruct a as [|c a]; [done|]. apply Forall_cons in Hall as [(Hc & _) _].
    by apply Z.eqb_neq. }
  assert (Hslash' : (deref a =? chr "/") = false).
  { specialize (Hslash []). by rewrite app_nil_r in Hslash. }
  assert (Hnd' : strcmp_eq a (cs "..") = false).
  { unfold plain_key in Hkey. rewrite !andb_true_iff, !negb_true_iff in Hkey. tauto. }
  assert (Hup' : starts_with (cs "../") a || starts_with (cs "..[") a = false).
  { apply plain_key_no_parent. unfold plain_key in Hkey.
    rewrite !andb_true_iff in Hkey. tauto. }
  assert (Hend : name_end a = []).
  { apply name_end_plain. unfold plain_key in Hkey.
    rewrite !andb_true_iff in Hkey. tauto. }
  unfold json_traverse at 1 2. destruct (h !! r) as [nd|] eqn:Hr; [|done].
  rewrite Hslash, Hslash'. unfold p_traverse_json.
  cbn [p_traverse_json_fuel]. rewrite Hnz, Hnz', Hr, Hnd, Hnd', Hup, Hup'.
  destruct (if children_count nd =? -1 then _ else _) as [[] h1| | |]; try done.
  destruct (h1 !! r) as [nd1|]; [|done].
  destruct (children nd1) as [|c0 kids]; [done|].
  destruct (node_type nd1); try done.
  - rewrite (name_end_key a b Hall), Hend, span_prefix.
    unfold span. simpl length. rewrite Nat.sub_0_r, firstn_all.
    destruct (find_child _ _ _ _) as [c| |] eqn:Ef; [|done|done].
    change (deref [] =? 0) with true. cbv iota.
    change (deref (chr "/" :: b) =? 0) with false. cbv iota. simpl tl.
    unfold json_traverse. destruct (find_child_valid _ _ _ _ _ Ef) as [cn ->].
    apply Z.eqb_neq in Hb. rewrite Hb. unfold p_traverse_json.
    apply traverse_fuel_irrelevant; rewrite ?length_app; simpl; lia.
  - by rewrite !index_end_none.
Qed.

Lemma traverse_key_then_rest_witness :
  let doc := dq "{'x':{'y':5 } }" in
  let h := [p_build_root_json_node 0%nat doc JSON_OBJECT] in
  json_parse doc 15 = Some (h, 0%nat)
  /\ json_traverse (Some 0%nat) (cs "x/y") h
     = match json_traverse (Some 0%nat) (cs "x") h with
       | Ok v h1 => json_traverse v (cs "y") h1
       | Abort => Abort
       | Fault => Fault
       | NoFuel => NoFuel
       end
  /\ exists h', json_traverse (Some 0%nat) (cs "x/y") h = Ok (Some 2%nat) h'.
Proof.
  intros doc h. split; [vm_compute; reflexivity|]. split.
  - apply (traverse_key_then_rest 0 (cs "x") (cs "y") h); [reflexivity|discriminate].
  - eexists. vm_compute. reflexivity.
Defined.

(** ** Handles stay valid *)

Lemma same_id_trans a b c : same_id a b -> same_id b c -> same_id a c.
Proof.
  intros (A1 & A2 & A3 & A4 & A5) (B1 & B2 & B3 & B4 & B5).
  repeat split; congruence.
Qed.

Lemma lazy_load_same_id j (h h' : list json) :
  p_lazy_load (Some j) h = Ok tt h' ->
  forall k x, h !! k = Some x -> exists x', h' !! k = Some x' /\ same_id x x'.
Proof.
  unfold p_lazy_load.
  destruct (h !! j) as [nd|] eqn:Hj; [|discriminate].
  destruct (children_count nd =? -1); cbn [negb].
  2:{ intros [= <-] k x Hk. exists x. split; [done|apply same_id_refl]. }
  set (nd0 := set_children_count 0 nd).
  pose proof (lookup_lt_Some _ _ _ Hj) as Hlt.
  assert (Hw : forall y (g : list json), same_id nd y ->
            (forall k x, h !! k = Some x -> exists x', g !! k = Some x' /\ same_id x x') ->
            forall k x, h !! k = Some x ->
              exists x', (<[j := y]> g ++ []) !! k = Some x' /\ same_id x x').
  { intros y g Hy Hg k x Hk. destruct (Hg _ _ Hk) as (x' & Hx' & Hid).
    rewrite (lookup_update_old _ _ _ _ _ _ Hx').
    destruct (decide (k = j)) as [->|_]; [|by exists x'].
    exists y. split; [done|]. congruence. }
  assert (H0 : forall k x, h !! k = Some x ->
            exists x', <[j := nd0]> h !! k = Some x' /\ same_id x x').
  { intros k x Hk. rewrite <- (app_nil_r (<[j := nd0]> h)).
    apply (Hw nd0 h); [by repeat split| |done].
    intros k' y Hk'. exists y. split; [done|apply same_id_refl]. }
  assert (Hadd : forall g g1 data pn,
            (forall k x, h !! k = Some x -> exists x', g !! k = Some x' /\ same_id x x') ->
            data `suffix_of` backing_data nd ->
            is_Some (value_end (value_type data) data) ->
            add_child j data pn (value_type data) g = Ok tt g1 ->
            forall k x, h !! k = Some x -> exists x', g1 !! k = Some x' /\ same_id x x').
  { intros g g1 data pn Hg _ _. unfold add_child.
    destruct (g !! j) as [y|] eqn:Hy; [|discriminate]. intros [= <-] k x Hk.
    destruct (Hg _ _ Hk) as (x' & Hx' & Hid).
    rewrite (lookup_update_old _ _ _ _ _ _ Hx').
    destruct (decide (k = j)) as [->|_]; [|by exists x'].
    eexists. split; [done|]. rewrite Hy in Hx'. inversion Hx'; subst x'.
    eapply same_id_trans; [exact Hid|]. by repeat split. }
  change (node_type nd0) with (node_type nd).
  change (backing_data nd0) with (backing_data nd).
  destruct (node_type nd); try (by intros [= <-]).
  - destruct (p_is_valid_json _ _) as [e|]; [|discriminate].
    destruct (p_eat_whitespace _) as [s|] eqn:Ews; [|discriminate].
    intros Hload.
    refine (load_object_generic _ j (backing_data nd) Hadd _ _ _ _ _ _ H0 Hload).
    etrans; [exact (eat_whitespace_suffix _ _ Ews)|]. apply tl_suffix_of.
  - destruct (p_is_valid_json _ _) as [e|]; [|discriminate].
    destruct (p_eat_whitespace _) as [s|] eqn:Ews; [|discriminate].
    intros Hload.
    refine (load_array_generic _ j (backing_data nd) Hadd _ _ _ _ _ _ H0 Hload).
    etrans; [exact (eat_whitespace_suffix _ _ Ews)|]. apply tl_suffix_of.
  - destruct (p_is_valid_number _) as [e|]; [|discriminate].
    intros [= <-] k x Hk. rewrite list_insert_insert_eq.
    rewrite <- (app_nil_r (<[j := _]> h)).
    apply (Hw _ h); [by repeat split| |done].
    intros k' y Hk'. exists y. split; [done|apply same_id_refl].
  - destruct (p_is_valid_string _) as [e|]; [|discriminate].
    intros [= <-] k x Hk. rewrite list_insert_insert_eq.
    rewrite <- (app_nil_r (<[j := _]> h)).
    apply (Hw _ h); [by repeat split| |done].
    intros k' y Hk'. exists y. split; [done|apply same_id_refl].
Qed.

Lemma steps_same_id (h h' : list json) :
  rtc step h h' ->
  forall k x, h !! k = Some x -> exists x', h' !! k = Some x' /\ same_id x x'.
Proof.
  apply (steps_invariant
           (fun g => forall k x, h !! k = Some x ->
                       exists x', g !! k = Some x' /\ same_id x x')).
  - intros g g' j Hg Hload k x Hk. destruct (Hg _ _ Hk) as (y & Hy & Hid).
    destruct (lazy_load_same_id _ _ _ Hload _ _ Hy) as (z & Hz & Hid').
    exists z. split; [done|]. by eapply same_id_trans.
  - intros k x Hk. exists x. split; [done|apply same_id_refl].
Qed.

(** X9: no operation invalidates a node or changes what it is: a node of
    the store is still there after any operations, with the kind, the
    name and the parent it had. *)
Theorem handles_stay_valid (h h' : list json) k x :
  rtc step h h' -> h !! k = Some x ->
  json_get_type (Some k) h' = Ok (node_type x) h'
  /\ json_get_name (Some k) h' = Ok (option_map c_str (path_name x)) h'
  /\ json_traverse (Some k) (cs "..") h' = Ok (parent x) h'.
Proof.
  intros Hsteps Hk.
  destruct (steps_same_id _ _ Hsteps _ _ Hk) as (x' & Hx' & _ & Hp & Ht & _ & Hn).
  unfold json_get_type, json_get_name, json_traverse, p_traverse_json.
  rewrite Hx', Ht, Hn. split; [done|]. split; [done|].
  change (deref (cs "..") =? chr "/") with false. cbn [p_traverse_json_fuel].
  change (deref (cs "..") =? 0) with false. rewrite Hx'.
  change (strcmp_eq (cs "..") (cs "..")) with true. by rewrite Hp.
Qed.

Lemma handles_stay_valid_witness :
  json_get_type (Some 2%nat) sample_store = Ok JSON_ARRAY sample_store
  /\ json_get_name (Some 2%nat) sample_store = Ok (Some (cs "b")) sample_store
  /\ json_traverse (Some 2%nat) (cs "..") sample_store = Ok (Some 0%nat) sample_store.
Proof.
  refine (handles_stay_valid sample_root_loaded sample_store 2
            (p_build_child_json_node 0%nat 0%nat (dq "[true ] }") (Some (cs "b"))
               JSON_ARRAY) _ _).
  - apply rtc_once. by exists (ChildrenCount (Some 2%nat)).
  - vm_compute. reflexivity.
Defined.

(** ** Looking a key up *)

Lemma find_child_spec (h : list json) name count : forall kids,
  match find_child h name kids count with
  | Found c =>
      exists i, kids !! i = Some c /\ (i < count)%nat /\ named h name c
        /\ forall i' c', (i' < i)%nat -> kids !! i' = Some c' -> ~ named h name c'
  | Missing =>
      forall i c', (i < count)%nat -> kids !! i = Some c' -> ~ named h name c'
  | BadRead =>
      exists i, (i < count)%nat
        /\ match kids !! i with
           | None => True
           | Some c =>
               match h !! c with
               | None => True
               | Some cn => path_name cn = None
               end
           end
  end.
Proof.
  induction count as [|count IH]; intros [|k kids]; simpl; try (intros; lia).
  { exists 0%nat. split; [lia|done]. }
  destruct (h !! k) as [cn|] eqn:Hk; [|exists 0%nat; split; [lia|simpl; by rewrite Hk]].
  destruct (path_name cn) as [pn|] eqn:Hpn;
    [|exists 0%nat; split; [lia|simpl; by rewrite Hk]].
  assert (Hname : named h name k <-> strcmp_eq name pn = true).
  { unfold named, json_get_name, strcmp_eq. rewrite Hk, Hpn. simpl.
    rewrite list_eqb_eq. split; [by intros [= ->]|by intros ->]. }
  destruct (strcmp_eq name pn) eqn:E.
  - exists 0%nat. split; [done|]. split; [lia|]. split; [by apply Hname|]. intros; lia.
  - specialize (IH kids). destruct (find_child h name kids count) as [c| |].
    + destruct IH as (i & Hi & Hlt & Hn & Hfirst). exists (S i).
      split; [done|]. split; [lia|]. split; [done|].
      intros [|i'] c' Hlt' Hc'.
      * inversion Hc'; subst c'. rewrite Hname. congruence.
      * apply (Hfirst i'); [lia|done].
    + intros [|i] c' Hlt Hc'.
      * inversion Hc'; subst c'. rewrite Hname. congruence.
      * apply (IH i); [lia|done].
    + destruct IH as (i & Hlt & Hbad). exists (S i). split; [lia|done].
Qed.

(** X10: resolving a key on an object node of the tree never faults. The
    loader ends with [abort()], or the call returns with the node loaded:
    either the first of its children, in order, that bears that name, or
    NULL, and then no child of the node bears that name. *)
Theorem key_lookup_first_match rt h r nd seg :
  reachable rt h -> h !! r = Some nd -> node_type nd = JSON_OBJECT ->
  plain_key seg = true ->
  json_traverse (Some r) seg h = Abort
  \/ exists v h' nd',
       json_traverse (Some r) seg h = Ok v h'
       /\ h' !! r = Some nd' /\ children_count nd' <> -1
       /\ match v with
          | Some c =>
              exists i, children nd' !! i = Some c
                /\ json_get_name (Some c) h' = Ok (Some seg) h'
                /\ forall i' c', (i' < i)%nat -> children nd' !! i' = Some c' ->
                     json_get_name (Some c') h' <> Ok (Some seg) h'
          | None =>
              forall i c', children nd' !! i = Some c' ->
                json_get_name (Some c') h' <> Ok (Some seg) h'
          end.
Proof.
  intros Hreach Hr HT Hkey. pose proof (reachable_wf _ _ Hreach) as Hwf.
  destruct (reachable_shape _ _ Hreach) as [D Hsh].
  destruct (plain_key_spec _ Hkey) as (Hne & Hdots & Hall).
  assert (Hcstr : c_str seg = seg).
  { apply c_str_no_nul. eapply Forall_impl; [exact Hall|]. simpl. tauto. }
  pose proof Hkey as Hkey'. unfold plain_key in Hkey'.
  rewrite !andb_true_iff, !negb_true_iff in Hkey'. destruct Hkey' as [[Hnz Hnd] Hfor].
  assert (Hslash : (deref seg =? chr "/") = false).
  { destruct seg as [|c seg]; [done|]. apply Forall_cons in Hall as [(Hc & _) _].
    by apply Z.eqb_neq. }
  unfold json_traverse, p_traverse_json. rewrite Hr, Hslash.
  cbn [p_traverse_json_fuel].
  rewrite Hnz, Hr, Hnd, (plain_key_no_parent _ Hfor).
  destruct (loaded_outcome _ _ _ _ _ Hwf Hsh Hr)
    as [Ha|(nd' & h' & Hl & Hr' & Hc & Hwf' & Hsh' & _)].
  { left. unfold loaded in Ha. rewrite Hr in Ha.
    destruct (if children_count nd =? -1 then _ else _) as [[] h1| | |]; try done.
    by destruct (h1 !! r). }
  right. unfold loaded in Hl. rewrite Hr in Hl.
  destruct (if children_count nd =? -1 then _ else _) as [[] h1| | |] eqn:El;
    try discriminate.
  assert (h1 = h' /\ h1 !! r = Some nd') as [-> Hr1].
  { destruct (h1 !! r) as [y|]; [|discriminate]. by inversion Hl. }
  rewrite Hr1.
  assert (HT' : node_type nd' = JSON_OBJECT).
  { assert (Hstep : rtc lazy_step h h') by (by eapply lazy_load_if_steps).
    clear -Hstep Hr Hr1 HT.
    revert nd Hr HT. induction Hstep as [g|g1 g2 g3 [j Hj] _ IH]; intros nd Hr HT.
    - congruence.
    - destruct (lazy_load_same_id _ _ _ Hj _ _ Hr) as (y & Hy & _ & _ & Hty & _).
      apply (IH Hr1 y Hy). congruence. }
  destruct (loaded_children _ _ _ _ _ Hwf' Hsh' Hr1 Hc) as [Hcount Hkids].
  destruct (children nd') as [|c0 kids] eqn:Ekids.
  { exists None, h', nd'. repeat (split; [done|]). rewrite Ekids.
    intros i c' Hi. by rewrite lookup_nil in Hi. }
  rewrite HT', (name_end_plain _ Hfor).
  unfold span. simpl length at 2. rewrite Nat.sub_0_r, firstn_all.
  rewrite Hcount, Nat2Z.id.
  pose proof (find_child_spec h' seg (length (c0 :: kids)) (c0 :: kids)) as Hfind.
  unfold named in Hfind. rewrite Hcstr in Hfind.
  destruct (find_child h' seg (c0 :: kids) (length (c0 :: kids))) as [c| |].
  - destruct Hfind as (i & Hi & _ & Hn & Hfirst).
    exists (Some c), h', nd'. change (deref [] =? 0) with true. cbv iota.
    repeat (split; [done|]). rewrite Ekids. by exists i.
  - exists None, h', nd'. repeat (split; [done|]). rewrite Ekids.
    intros i c' Hi. apply (Hfind i); [|done]. by eapply lookup_lt_Some.
  - exfalso. destruct Hfind as (i & Hlt & Hbad).
    destruct ((c0 :: kids) !! i) as [c|] eqn:Hi;
      [|apply lookup_ge_None in Hi; lia].
    destruct (wf_children _ _ Hwf' r nd' c Hr1) as (cn & Hcn & _ & Hm).
    { rewrite Ekids. by eapply list_elem_of_lookup_2. }
    rewrite Hcn in Hbad. unfold member_key in Hm. rewrite HT' in Hm.
    destruct Hm as (_ & raw & _ & _ & _ & _ & Hpn). congruence.
Qed.

Lemma key_lookup_first_match_witness :
  json_traverse (Some 0%nat) (cs "b") sample_parsed = Ok (Some 2%nat) sample_root_loaded
  /\ json_traverse (Some 0%nat) (cs "zz") sample_parsed = Ok None sample_root_loaded
  /\ (json_traverse (Some 0%nat) (cs "zz") sample_parsed = Abort
      \/ exists v h' nd',
           json_traverse (Some 0%nat) (cs "zz") sample_parsed = Ok v h'
           /\ h' !! 0%nat = Some nd' /\ children_count nd' <> -1
           /\ match v with
              | Some c =>
                  exists i, children nd' !! i = Some c
                    /\ json_get_name (Some c) h' = Ok (Some (cs "zz")) h'
                    /\ forall i' c', (i' < i)%nat -> children nd' !! i' = Some c' ->
                         json_get_name (Some c') h' <> Ok (Some (cs "zz")) h'
              | None =>
                  forall i c', children nd' !! i = Some c' ->
                    json_get_name (Some c') h' <> Ok (Some (cs "zz")) h'
              end).
Proof.
  split; [vm_compute; reflexivity|]. split; [vm_compute; reflexivity|].
  refine (key_lookup_first_match 0 sample_parsed 0
            (p_build_root_json_node 0%nat sample_doc JSON_OBJECT) (cs "zz")
            _ eq_refl eq_refl eq_refl).
  exists sample_doc, (length sample_doc), sample_parsed. by split.
Defined.

(** ** White space around the document *)

Lemma trim_loop_white w : white w -> trim_loop w = None.
Proof.
  induction w as [|a w IH]; [done|]. intros H. apply Forall_cons in H as [Ha Hw].
  simpl. rewrite Ha. destruct w; [done|]. by apply IH.
Qed.

Lemma trim_loop_app w x :
  white w -> x <> [] -> p_is_whitespace (deref x) = false ->
  trim_loop (w ++ x) = Some x.
Proof.
  intros Hw Hx Hd. induction w as [|a w IH].
  - destruct x as [|c x]; [done|]. simpl in *. by rewrite Hd.
  - apply Forall_cons in Hw as [Ha Hw]. simpl. rewrite Ha.
    destruct (w ++ x) as [|b y] eqn:E.
    + apply app_eq_nil in E as [_ ->]. done.
    + by apply IH.
Qed.

Lemma trim_core w1 core w2 :
  w1 ++ core ++ w2 <> [] ->
  white w1 -> white w2 -> Forall (fun c => c <> 0) core ->
  p_is_whitespace (deref core) = false ->
  p_is_whitespace (deref (rev core)) = false ->
  p_trim_whitespace (w1 ++ core ++ w2) (length (w1 ++ core ++ w2))
  = match core with
    | [] => None
    | _ :: _ => Some core
    end.
Proof.
  intros _ H1 H2 Hnz Hfirst Hlast. unfold p_trim_whitespace.
  rewrite take_app_length.
  destruct core as [|c core].
  { simpl. rewrite trim_loop_white; [done|]. by apply Forall_app. }
  rewrite (trim_loop_app w1); [|done|done|done].
  rewrite rev_app_distr.
  rewrite (trim_loop_app (rev w2)); [| |by intros E%(f_equal (@length _)); rewrite length_rev in E|done].
  - by rewrite rev_involutive, c_str_no_nul.
  - by apply Forall_rev.
Qed.

(** X11: [p_trim_whitespace] on a text that is not empty and is made
    of white space, a core that neither starts nor ends with white space
    and holds no NUL, and white space again, returns a copy of the core;
    when the core is empty, that is when the text is all white space, it
    returns NULL. *)
Theorem trim_strips_both_ends w1 core w2 :
  w1 ++ core ++ w2 <> [] ->
  white w1 -> white w2 -> Forall (fun c => c <> 0) core ->
  p_is_whitespace (deref core) = false ->
  p_is_whitespace (deref (rev core)) = false ->
  p_trim_whitespace (w1 ++ core ++ w2) (length (w1 ++ core ++ w2))
  = match core with
    | [] => None
    | _ :: _ => Some core
    end.
Proof.
  intros Hne H1 H2 Hnz Hfirst Hlast.
  destruct core as [|c core]; by rewrite trim_core.
Qed.

Lemma trim_strips_both_ends_witness :
  p_trim_whitespace ([chr " "; 9] ++ dq "{ }" ++ [10; chr " "]) 7 = Some (dq "{ }")
  /\ p_trim_whitespace ([chr " "; 9] ++ [] ++ [10; chr " "]) 4 = None.
Proof.
  split.
  - apply (trim_strips_both_ends [chr " "; 9] (dq "{ }") [10; chr " "]);
      try (vm_compute; reflexivity); try discriminate; repeat constructor; done.
  - apply (trim_strips_both_ends [chr " "; 9] [] [10; chr " "]);
      try (vm_compute; reflexivity); try discriminate; repeat constructor; done.
Defined.

Lemma no_inner_nul s : forall i,
  Forall (fun c => c <> 0) s -> (i < length s)%nat -> has_inner_nul s i = false.
Proof.
  induction i as [|i IH]; intros Hs Hi; [done|]. cbn [has_inner_nul].
  destruct (nth (S i) s 0 =? 0) eqn:E.
  - apply Z.eqb_eq in E. rewrite Forall_forall in Hs. exfalso.
    apply (Hs (nth (S i) s 0)); [|done]. by apply list_elem_of_In, nth_In.
  - apply IH; [done|lia].
Qed.

(** X12: white space around a document makes no difference to
    [json_parse]: the text with white space before and after is accepted
    when the bare document is, and the tree built is the same, over the
    same trimmed copy. *)
Theorem parse_ignores_outer_space w1 core w2 :
  white w1 -> white w2 -> Forall (fun c => c <> 0) core -> core <> [] ->
  p_is_whitespace (deref core) = false ->
  p_is_whitespace (deref (rev core)) = false ->
  json_parse (w1 ++ core ++ w2) (length (w1 ++ core ++ w2))
  = json_parse core (length core).
Proof.
  intros H1 H2 Hnz Hne Hfirst Hlast.
  assert (Hwz : forall w, white w -> Forall (fun c => c <> 0) w).
  { intros w Hw. eapply Forall_impl; [exact Hw|]. simpl. by intros c Hc ->. }
  assert (Hparse : forall s D, s <> [] -> Forall (fun c => c <> 0) s ->
            p_trim_whitespace s (length s) = Some D ->
            json_parse s (length s)
            = if negb (deref D =? chr "{") && negb (deref D =? chr "[") then None
              else match p_is_valid_json D
                           (if deref D =? chr "[" then JSON_ARRAY else JSON_OBJECT) with
                   | None => None
                   | Some _ =>
                       Some ([p_build_root_json_node 0%nat D
                                (if deref D =? chr "[" then JSON_ARRAY else JSON_OBJECT)],
                             0%nat)
                   end).
  { intros s D Hs Hz HD. unfold json_parse.
    destruct s as [|c s]; [done|]. cbn [length Nat.eqb].
    rewrite nth_overflow; [|simpl; lia]. cbn [Z.eqb negb].
    rewrite no_inner_nul; [|done|simpl; lia]. cbn [length] in HD. by rewrite HD. }
  assert (Hne1 : w1 ++ core ++ w2 <> []).
  { intros E. apply app_eq_nil in E as [_ E]. by apply app_eq_nil in E as [E _]. }
  assert (Hne0 : [] ++ core ++ [] <> []) by (by rewrite app_nil_l, app_nil_r).
  pose proof (trim_core w1 core w2 Hne1 H1 H2 Hnz Hfirst Hlast) as Ht.
  pose proof (trim_core [] core [] Hne0 (Forall_nil_2 _) (Forall_nil_2 _)
                Hnz Hfirst Hlast) as Ht0.
  rewrite app_nil_l, app_nil_r in Ht0.
  destruct core as [|c core]; [done|].
  rewrite (Hparse _ (c :: core)); [|by destruct w1|..]; [|repeat apply Forall_app_2; auto|done].
  by rewrite (Hparse (c :: core) (c :: core)).
Qed.

Lemma parse_ignores_outer_space_witness :
  json_parse ([chr " "; 9] ++ dq "{'a':[] }" ++ [10; chr " "]) 13
  = json_parse (dq "{'a':[] }") 9
  /\ is_Some (json_parse (dq "{'a':[] }") 9).
Proof.
  split.
  - apply (parse_ignores_outer_space [chr " "; 9] (dq "{'a':[] }") [10; chr " "]);
      try (vm_compute; reflexivity); try (repeat constructor; done).
  - vm_compute. by eexists.
Defined.

(** ** The grammar of string literals *)

Lemma string_body_chars body : forall r,
  string_chars body -> deref r <> 0 ->
  string_body (body ++ quote :: r) = Some r.
Proof.
  intros r Hb Hr.
  assert (Hnz : forall x, is_hex x = true -> (x =? 0) = false).
  { intros x Hx. destruct (x =? 0) eqn:E; [|done].
    apply Z.eqb_eq in E. by subst x. }
  induction Hb as [|c s Hz Hq Hbs _ IH|e s He _ IH
                  |h1 h2 h3 h4 s H1 H2 H3 H4 _ IH].
  - apply Z.eqb_neq in Hr. simpl. by rewrite Hr.
  - apply Z.eqb_neq in Hz, Hq, Hbs.
    change (string_body (c :: (s ++ quote :: r)) = Some r).
    cbn [string_body]. by rewrite Hz, Hq, Hbs.
  - change (string_body (backslash :: e :: (s ++ quote :: r)) = Some r).
    cbn [string_body]. change (backslash =? 0) with false.
    change (backslash =? quote) with false. rewrite Z.eqb_refl.
    destruct (e =? 0) eqn:E; [apply Z.eqb_eq in E; by subst e|]. by rewrite He.
  - change (string_body (backslash :: chr "u" :: h1 :: h2 :: h3 :: h4
                           :: (s ++ quote :: r)) = Some r).
    cbn [string_body]. change (backslash =? 0) with false.
    change (backslash =? quote) with false. rewrite Z.eqb_refl.
    change (chr "u" =? 0) with false.
    change (is_simple_escape (chr "u")) with false. rewrite Z.eqb_refl.
    by rewrite (Hnz _ H1), (Hnz _ H2), (Hnz _ H3), (Hnz _ H4), H1, H2, H3, H4.
Qed.

Lemma string_body_items n : forall s r,
  (length s <= n)%nat -> string_body s = Some r ->
  exists body, s = body ++ quote :: r /\ string_chars body /\ deref r <> 0.
Proof.
  induction n as [|n IH]; intros [|c s] r Hn; simpl in *; try discriminate; try lia.
  destruct (c =? 0) eqn:Ez; [discriminate|].
  destruct (c =? quote) eqn:Eq.
  { apply Z.eqb_eq in Eq. subst c.
    destruct (deref s =? 0) eqn:Ed; [discriminate|]. intros [= ->].
    exists []. split; [done|]. split; [constructor|by apply Z.eqb_neq]. }
  destruct (c =? backslash) eqn:Eb.
  - apply Z.eqb_eq in Eb. subst c.
    destruct s as [|e s2]; [discriminate|].
    destruct (e =? 0); [discriminate|].
    destruct (is_simple_escape e) eqn:Ee.
    { intros H. destruct (IH s2 r) as (b & -> & Hb & Hr); [simpl in Hn; lia|done|].
      exists (backslash :: e :: b). split; [done|]. split; [by constructor|done]. }
    destruct (e =? chr "u") eqn:Eu; [|discriminate].
    apply Z.eqb_eq in Eu. subst e.
    destruct s2 as [|h1 [|h2 [|h3 [|h4 s6]]]]; try discriminate.
    destruct ((h1 =? 0) || (h2 =? 0) || (h3 =? 0) || (h4 =? 0)); [discriminate|].
    destruct (is_hex h1) eqn:E1; [|discriminate].
    destruct (is_hex h2) eqn:E2; [|discriminate].
    destruct (is_hex h3) eqn:E3; [|discriminate].
    destruct (is_hex h4) eqn:E4; [|discriminate]. simpl.
    intros H. destruct (IH s6 r) as (b & -> & Hb & Hr); [simpl in Hn; lia|done|].
    exists (backslash :: chr "u" :: h1 :: h2 :: h3 :: h4 :: b).
    split; [done|]. split; [by constructor|done].
  - intros H. destruct (IH s r) as (b & -> & Hb & Hr); [lia|done|].
    exists (c :: b). split; [done|]. split; [|done].
    apply Z.eqb_neq in Ez, Eq, Eb. by constructor.
Qed.

(** X13: [p_is_valid_string] returns a cursor exactly on a quote, a
    sequence of items (a byte other than NUL, quote and backslash; a
    backslash with one of the eight simple escapes; a backslash, [u] and
    four hexadecimal digits), a quote, and at least one more byte; the
    cursor stands on that byte. Raw control bytes in the literal are
    accepted. *)
Theorem valid_string_grammar s r :
  p_is_valid_string s = Some r
  <-> exists body, s = quote :: body ++ quote :: r
                   /\ string_chars body /\ deref r <> 0.
Proof.
  unfold p_is_valid_string. split.
  - destruct s as [|c s]; [discriminate|]. simpl.
    destruct (c =? quote) eqn:E; [|discriminate]. apply Z.eqb_eq in E. subst c.
    simpl. intros H.
    destruct (string_body_items (length s) s r (le_n _) H) as (b & -> & Hb & Hr).
    by exists b.
  - intros (body & -> & Hb & Hr).
    change (string_body (body ++ quote :: r) = Some r).
    by apply string_body_chars.
Qed.

(** ** The grammar of numbers *)

Lemma eat_digits_app ds x :
  digits ds -> is_digit (deref x) = false -> eat_digits (ds ++ x) = x.
Proof.
  intros Hds Hx. induction Hds as [|d ds Hd _ IH].
  - destruct x as [|c x]; [done|]. simpl in *. by rewrite Hx.
  - simpl. by rewrite Hd.
Qed.

Lemma eat_digits_split s :
  exists ds, s = ds ++ eat_digits s /\ digits ds
             /\ is_digit (deref (eat_digits s)) = false.
Proof.
  induction s as [|c s (ds & IH & Hds & Hnd)].
  { exists []. split; [done|]. split; [constructor|done]. }
  simpl. destruct (is_digit c) eqn:E.
  - exists (c :: ds). split; [simpl; congruence|]. split; [by constructor|done].
  - exists []. split; [done|]. split; [constructor|done].
Qed.

Lemma number_end_cases c :
  is_number_end c = true ->
  c <> 0 /\ is_digit c = false /\ c <> chr "-" /\ c <> chr "+" /\ c <> chr "."
  /\ c <> chr "0" /\ c <> chr "e" /\ c <> chr "E".
Proof.
  unfold is_number_end, p_is_whitespace. rewrite !orb_true_iff, !Z.eqb_eq.
  intros [->|[[[->| ->]| ->]| ->]]; repeat split; done.
Qed.

(** What [p_is_valid_number] does from the cursor [x] that follows the
    digits of the integer part, when [x] is not on a ['.']. *)
Lemma number_after_digits s x :
  eat_digits (integer_part s) = x ->
  (deref (integer_part s) =? 0) = false ->
  (deref (integer_part s) =? chr "0")
    && negb (deref (tl (integer_part s)) =? chr ".") = false ->
  (deref x =? chr ".") = false ->
  p_is_valid_number s
  = if deref x =? 0 then None
    else if is_number_end (deref x) then Some x
    else if (deref x =? chr "e") || (deref x =? chr "E") then
      if deref (tl x) =? 0 then None
      else
        match (if (deref (tl x) =? chr "-") || (deref (tl x) =? chr "+")
               then if deref (tl (tl x)) =? 0 then None else Some (tl (tl x))
               else Some (tl x)) with
        | None => None
        | Some y =>
            if deref (eat_digits y) =? 0 then None
            else if is_number_end (deref (eat_digits y)) then Some (eat_digits y)
            else None
        end
    else None.
Proof.
  intros Hx H0 Hz Hdot. unfold p_is_valid_number.
  change (if deref s =? chr "-" then tl s else s) with (integer_part s).
  cbv zeta. rewrite H0, Hz, Hx, Hdot. reflexivity.
Qed.

Lemma deref_digits_app ds x (P : Z -> Prop) :
  digits ds -> (forall d, is_digit d = true -> P d) -> P (deref x) ->
  P (deref (ds ++ x)).
Proof.
  intros Hds Hd Hx. destruct Hds as [|d ds Hd0 _]; [done|]. simpl. by apply Hd.
Qed.

(** X14: [p_is_valid_number] returns a cursor exactly on an optional
    ['-'], a run of digits that does not start with ['0'], an optional
    exponent ([e] or [E], an optional sign, a run of digits), and then a
    comma or a white space byte, on which the cursor stands. Both runs of
    digits may be empty, and there is no fractional part: [0] is refused,
    and a lone minus sign before a comma is accepted. *)
Theorem valid_number_grammar s r :
  p_is_valid_number s = Some r
  <-> exists sg ds ex,
        s = sg ++ ds ++ ex ++ r
        /\ (sg = [] \/ sg = [chr "-"])
        /\ digits ds /\ deref ds <> chr "0"
        /\ exponent_part ex
        /\ is_number_end (deref r) = true.
Proof.
  split.
  - intros H.
    destruct (deref (eat_digits (integer_part s)) =? chr ".") eqn:Edot.
    { apply Z.eqb_eq in Edot. by rewrite number_with_fraction_rejected in H. }
    assert (Hsg : exists sg, s = sg ++ integer_part s
                             /\ (sg = [] \/ sg = [chr "-"])).
    { unfold integer_part. destruct (deref s =? chr "-") eqn:E.
      - destruct s as [|c s]; [done|]. apply Z.eqb_eq in E. simpl in E. subst c.
        exists [chr "-"]. split; [done|by right].
      - exists []. split; [done|by left]. }
    destruct Hsg as (sg & Hs & Hsg).
    pose proof H as H'. unfold p_is_valid_number in H'.
    change (if deref s =? chr "-" then tl s else s) with (integer_part s) in H'.
    cbv zeta in H'.
    destruct (deref (integer_part s) =? 0) eqn:E0; [done|].
    destruct ((deref (integer_part s) =? chr "0")
              && negb (deref (tl (integer_part s)) =? chr ".")) eqn:Ez; [done|].
    clear H'. rewrite (number_after_digits s _ eq_refl E0 Ez Edot) in H.
    destruct (eat_digits_split (integer_part s)) as (ds & Hs1 & Hds & Hnd).
    remember (integer_part s) as s1 eqn:Es1. clear Es1.
    remember (eat_digits s1) as x eqn:Ex. clear Ex. subst s1.
    assert (Hlead : deref ds <> chr "0").
    { destruct ds as [|d [|d' ds']]; [done| |]; simpl in Ez |- *; intros ->.
      - simpl in Ez. by rewrite Edot in Ez.
      - simpl in Ez. apply negb_false_iff, Z.eqb_eq in Ez. subst d'.
        apply Forall_cons in Hds as [_ Hds]. by apply Forall_cons in Hds as [Hd _]. }
    destruct (deref x =? 0) eqn:Ex0; [done|].
    destruct (is_number_end (deref x)) eqn:Eend.
    { injection H as <-. exists sg, ds, []. rewrite Hs. repeat (split; [done|]).
      split; [by left|done]. }
    destruct ((deref x =? chr "e") || (deref x =? chr "E")) eqn:Ee; [|done].
    destruct x as [|e x1]; [done|]. cbn [deref hd tl] in H, Ee.
    assert (He : e = chr "e" \/ e = chr "E").
    { apply orb_true_iff in Ee as [Ee|Ee]; apply Z.eqb_eq in Ee; auto. }
    destruct (deref x1 =? 0) eqn:E10; [done|].
    destruct ((deref x1 =? chr "-") || (deref x1 =? chr "+")) eqn:Es.
    + destruct x1 as [|c x2]; [done|]. cbn [hd tl] in H, Es.
      destruct (deref x2 =? 0); [done|].
      destruct (eat_digits_split x2) as (ds2 & Hx2 & Hds2 & _).
      destruct (deref (eat_digits x2) =? 0); [done|].
      destruct (is_number_end (deref (eat_digits x2))) eqn:En; [|done].
      injection H as <-. exists sg, ds, (e :: [c] ++ ds2).
      split; [rewrite Hs; simpl; by rewrite <- Hx2|].
      repeat (split; [done|]). split; [|done]. right. exists e, [c], ds2.
      repeat (split; [done|]). split; [|done].
      apply orb_true_iff in Es as [Es|Es]; apply Z.eqb_eq in Es; simpl in Es;
        subst c; auto.
    + destruct (eat_digits_split x1) as (ds2 & Hx1 & Hds2 & _).
      destruct (deref (eat_digits x1) =? 0); [done|].
      destruct (is_number_end (deref (eat_digits x1))) eqn:En; [|done].
      injection H as <-. exists sg, ds, (e :: [] ++ ds2).
      split; [rewrite Hs; simpl; by rewrite <- Hx1|].
      repeat (split; [done|]). split; [|done]. right. exists e, [], ds2.
      repeat (split; [done|]). split; [auto|done].
  - intros (sg & ds & ex & -> & Hsg & Hds & Hlead & Hex & Hend).
    destruct (number_end_cases _ Hend) as (Hr0 & Hrd & Hrm & Hrp & Hrdot & Hrz & _).
    assert (Hdig : forall d, is_digit d = true ->
              d <> 0 /\ d <> chr "-" /\ d <> chr "+").
    { intros d Hd. repeat split; intros ->; done. }
    assert (Hx : deref (ex ++ r) <> 0 /\ is_digit (deref (ex ++ r)) = false
                 /\ deref (ex ++ r) <> chr "-" /\ deref (ex ++ r) <> chr "."
                 /\ deref (ex ++ r) <> chr "0").
    { destruct Hex as [->|(e & sg2 & ds2 & -> & [->| ->] & _)]; simpl;
        repeat split; done. }
    destruct Hx as (Hx0 & Hxd & Hxm & Hxdot & Hxz).
    assert (Hy : deref (ds ++ ex ++ r) <> 0 /\ deref (ds ++ ex ++ r) <> chr "-"
                 /\ deref (ds ++ ex ++ r) <> chr "0").
    { destruct ds as [|d ds]; [done|]. apply Forall_cons in Hds as [Hd _].
      simpl in *. destruct (Hdig d Hd) as (? & ? & ?). done. }
    destruct Hy as (Hy0 & Hym & Hyz).
    assert (Hip : integer_part (sg ++ ds ++ ex ++ r) = ds ++ ex ++ r).
    { unfold integer_part. destruct Hsg as [->| ->]; [|done]. simpl.
      apply Z.eqb_neq in Hym. by rewrite Hym. }
    rewrite (number_after_digits _ (ex ++ r)).
    2:{ rewrite Hip. by apply eat_digits_app. }
    2:{ rewrite Hip. by apply Z.eqb_neq. }
    2:{ rewrite Hip. apply Z.eqb_neq in Hyz. by rewrite Hyz. }
    2:{ by apply Z.eqb_neq. }
    apply Z.eqb_neq in Hx0. rewrite Hx0.
    assert (Htail : forall ds2, digits ds2 ->
              (if deref (eat_digits (ds2 ++ r)) =? 0 then None
               else if is_number_end (deref (eat_digits (ds2 ++ r)))
                    then Some (eat_digits (ds2 ++ r)) else None) = Some r).
    { intros ds2 Hds2. rewrite eat_digits_app; [|done|done].
      apply Z.eqb_neq in Hr0. by rewrite Hr0, Hend. }
    destruct Hex as [->|(e & sg2 & ds2 & -> & He & Hsg2 & Hds2)].
    { simpl. by rewrite Hend. }
    assert (Hne : is_number_end e = false) by (by destruct He as [->| ->]).
    assert (Hee : (e =? chr "e") || (e =? chr "E") = true)
      by (by destruct He as [->| ->]).
    change (deref ((e :: sg2 ++ ds2) ++ r)) with e.
    change (tl ((e :: sg2 ++ ds2) ++ r)) with ((sg2 ++ ds2) ++ r).
    rewrite Hne, Hee, <- app_assoc.
    assert (Hz2 : deref (ds2 ++ r) <> 0 /\ deref (ds2 ++ r) <> chr "-"
                  /\ deref (ds2 ++ r) <> chr "+").
    { destruct ds2 as [|d ds2]; [done|]. apply Forall_cons in Hds2 as [Hd _].
      simpl. by apply Hdig. }
    destruct Hz2 as (Hz20 & Hz2m & Hz2p).
    apply Z.eqb_neq in Hz20, Hz2m, Hz2p.
    destruct Hsg2 as [->|[->| ->]]; simpl app; cbn [deref hd tl].
    + change (hd 0 (ds2 ++ r)) with (deref (ds2 ++ r)).
      rewrite Hz20, Hz2m, Hz2p. simpl orb. cbv iota. by apply Htail.
    + change (hd 0 (ds2 ++ r)) with (deref (ds2 ++ r)).
      rewrite Hz20. simpl. by apply Htail.
    + change (hd 0 (ds2 ++ r)) with (deref (ds2 ++ r)).
      rewrite Hz20. simpl. by apply Htail.
Qed.

(** ** The decoder works in place *)

Lemma unicode_bytes_length code : (length (unicode_bytes code) <= 3)%nat.
Proof.
  unfold unicode_bytes. destruct (code <=? 127); [simpl; lia|].
  destruct (code <=? 2047); simpl; lia.
Qed.

Lemma unescape_length n : forall s,
  (length s <= n)%nat -> (length (p_unescape_string s) <= length s)%nat.
Proof.
  induction n as [|n IH]; intros [|c s1] Hn; simpl in Hn; try (simpl; lia).
  rewrite unescape_cons. destruct (c =? 0); [simpl; lia|].
  destruct (c =? backslash).
  2:{ cbn [length]. specialize (IH s1). lia. }
  cbv zeta. destruct s1 as [|e s2]; [simpl; lia|].
  assert (Hsimple : (length (if (e =? 0)%Z then [c]
                             else simple_escape e :: p_unescape_string s2)
                     <= length (c :: e :: s2))%nat).
  { destruct (e =? 0); cbn [length]; [lia|]. simpl in Hn. specialize (IH s2). lia. }
  destruct s2 as [|h1 [|h2 [|h3 [|h4 rest]]]]; try exact Hsimple.
  destruct ((e =? chr "u") && negb (h1 =? 0) && negb (h2 =? 0)
            && negb (h3 =? 0) && negb (h4 =? 0)); [|exact Hsimple].
  rewrite length_app. pose proof (unicode_bytes_length (strtol16 [h1; h2; h3; h4])).
  simpl in Hn. specialize (IH rest). cbn [length]. lia.
Qed.

(** X15: the decoder can work in place: what [p_unescape_string] writes
    is never longer than what it has read, whatever the bytes, so the
    result fits the buffer that held the literal. *)
Theorem unescape_never_grows s :
  (length (p_unescape_string s) <= length s)%nat.
Proof. by eapply unescape_length. Qed.

(** X16: bytes outside escapes are copied as they are: a run of bytes
    free of backslash and NUL comes out unchanged, followed by the
    decoding of what comes after it; a text with no backslash at all is
    its own decoding. *)
Theorem unescape_plain_text a b :
  Forall (fun c => c <> 0 /\ c <> backslash) a ->
  p_unescape_string (a ++ b) = a ++ p_unescape_string b
  /\ p_unescape_string a = a.
Proof.
  intros Ha.
  assert (H : forall x, p_unescape_string (a ++ x) = a ++ p_unescape_string x).
  { intros x. induction Ha as [|c a [Hz Hb] _ IH]; [done|].
    change (p_unescape_string (c :: (a ++ x)) = c :: (a ++ p_unescape_string x)).
    rewrite unescape_cons. apply Z.eqb_neq in Hz, Hb. by rewrite Hz, Hb, IH. }
  split; [apply H|]. specialize (H []). by rewrite !app_nil_r in H.
Qed.

Lemma unescape_plain_text_witness :
  p_unescape_string (cs "abc" ++ backslash :: cs "n!")
  = cs "abc" ++ p_unescape_string (backslash :: cs "n!")
  /\ p_unescape_string (cs "abc") = cs "abc".
Proof.
  apply (unescape_plain_text (cs "abc") (backslash :: cs "n!")).
  repeat constructor; done.
Defined.

(** ** Where the validator stops *)

Lemma after_value_closed close v y :
  p_after_value close v = Closed y ->
  exists x, v = Some x /\ (close :: y) `suffix_of` x.
Proof.
  unfold p_after_value. destruct v as [x|]; [|discriminate].
  destruct (p_eat_whitespace x) as [s1|] eqn:E1; [|discriminate].
  destruct (eat_whitespace_spec _ _ E1) as (ws & -> & _ & Hnz & _).
  destruct (deref s1 =? close) eqn:Ec.
  - intros [= <-]. exists (ws ++ s1). split; [done|]. exists ws.
    destruct s1 as [|c s1]; [done|]. apply Z.eqb_eq in Ec. simpl in Ec. by subst c.
  - destruct (deref s1 =? chr ","); [|discriminate].
    destruct (p_eat_whitespace (tl s1)) as [s2|]; [|discriminate].
    destruct (deref s2 =? close); discriminate.
Qed.

Lemma after_value_continue close v y :
  p_after_value close v = Continue y ->
  exists x, v = Some x /\ y `suffix_of` x.
Proof.
  intros H. pose proof (after_value_spec close v) as Hs. rewrite H in Hs.
  destruct Hs as (x & -> & Hy & _). by exists x.
Qed.

Lemma valid_json_closing n :
  (forall s t e, p_is_valid_json_fuel n s t = Done (Some e) ->
     t = JSON_OBJECT /\ deref s = chr "{" /\ (chr "}" :: e) `suffix_of` tl s
     \/ t = JSON_ARRAY /\ deref s = chr "[" /\ (chr "]" :: e) `suffix_of` tl s)
  /\ (forall s e, p_is_valid_value n s = Done (Some e) -> e `suffix_of` s)
  /\ (forall s e, object_members n s = Done (Some e) ->
        (chr "}" :: e) `suffix_of` s)
  /\ (forall s e, array_elements n s = Done (Some e) ->
        (chr "]" :: e) `suffix_of` s).
Proof.
  assert (Hloop : forall close (loop : list char -> run (option (list char))) s v e,
    (forall x, v = Some x -> x `suffix_of` s) ->
    (forall y, loop y = Done (Some e) -> (close :: e) `suffix_of` y) ->
    match p_after_value close v with
    | Closed y => Done (Some y)
    | Continue y => loop y
    | Malformed => Done None
    end = Done (Some e) ->
    (close :: e) `suffix_of` s).
  { intros close loop s v e Hv Hl.
    destruct (p_after_value close v) as [y|y|] eqn:E; [| |discriminate].
    - intros [= ->]. destruct (after_value_closed _ _ _ E) as (x & -> & Hx).
      etrans; [exact Hx|]. by apply Hv.
    - intros H. destruct (after_value_continue _ _ _ E) as (x & -> & Hx).
      etrans; [by apply Hl|]. etrans; [exact Hx|]. by apply Hv. }
  induction n as [|n (IHj & IHv & IHo & IHa)]; [repeat split; discriminate|].
  repeat split.
  - intros s t e. rewrite valid_json_fuel_S. destruct t; try discriminate.
    + destruct (deref s =? chr "{") eqn:Eo; simpl; [|discriminate].
      destruct (p_eat_whitespace (tl s)) as [s0|] eqn:E; [|discriminate].
      intros H. left. split; [done|]. split; [by apply Z.eqb_eq|].
      etrans; [by apply IHo|]. by eapply eat_whitespace_suffix.
    + destruct (deref s =? chr "[") eqn:Eo; simpl; [|discriminate].
      destruct (p_eat_whitespace (tl s)) as [s0|] eqn:E; [|discriminate].
      intros H. right. split; [done|]. split; [by apply Z.eqb_eq|].
      etrans; [by apply IHa|]. by eapply eat_whitespace_suffix.
  - intros s e. rewrite valid_value_S.
    assert (Hj : forall t, p_is_valid_json_fuel n s t = Done (Some e) ->
              e `suffix_of` s).
    { intros t H.
      destruct (IHj _ _ _ H) as [(_ & _ & Hs)|(_ & _ & Hs)];
        (etrans; [apply suffix_cons_r; reflexivity|]);
        (etrans; [exact Hs|apply tl_suffix_of]). }
    destruct (deref s =? chr "{"); [apply Hj|].
    destruct (deref s =? chr "["); [apply Hj|].
    destruct (starts_with (cs "true") s || starts_with (cs "null") s).
    { intros [= <-]. apply drop_suffix_of. }
    destruct (starts_with (cs "false") s).
    { intros [= <-]. apply drop_suffix_of. }
    destruct (deref s =? quote); intros [= H].
    + by apply valid_string_suffix.
    + by apply valid_number_suffix.
  - intros s e. rewrite object_members_S.
    destruct (deref s =? chr "}") eqn:Ec.
    { intros [= <-]. destruct s as [|c s]; [done|].
      apply Z.eqb_eq in Ec. simpl in Ec. by subst c. }
    destruct (deref s =? quote); [|discriminate].
    destruct (p_is_valid_string s) as [s1|] eqn:E1; [|discriminate].
    destruct (p_eat_whitespace s1) as [s2|] eqn:E2; [|discriminate].
    destruct (deref s2 =? chr ":"); simpl; [|discriminate].
    destruct (p_eat_whitespace (tl s2)) as [s3|] eqn:E3; [|discriminate].
    destruct (p_is_valid_value n s3) as [v|] eqn:E4; [|discriminate].
    assert (Hs3 : s3 `suffix_of` s).
    { etrans; [by eapply eat_whitespace_suffix|].
      etrans; [apply tl_suffix_of|].
      etrans; [by eapply eat_whitespace_suffix|]. by apply valid_string_suffix. }
    intros H. etrans; [|exact Hs3].
    apply (Hloop (chr "}") (object_members n) s3 v e);
      [|intros y; apply IHo|exact H].
    intros x ->. by apply IHv.
  - intros s e. rewrite array_elements_S.
    destruct (deref s =? chr "]") eqn:Ec.
    { intros [= <-]. destruct s as [|c s]; [done|].
      apply Z.eqb_eq in Ec. simpl in Ec. by subst c. }
    destruct (p_is_valid_value n s) as [v|] eqn:E4; [|discriminate].
    apply (Hloop (chr "]") (array_elements n) s v e); [|intros y; apply IHa].
    intros x ->. by apply IHv.
Qed.

(** X17: [p_is_valid_json] only accepts the two kinds of container, and a
    cursor it returns stands right after a closing bracket of that kind:
    the text is ['{'], some bytes, ['}'] and the cursor for an object,
    ['['], some bytes, [']'] and the cursor for an array. *)
Theorem valid_json_stops_after_bracket s t e :
  p_is_valid_json s t = Some e ->
  exists mid,
    t = JSON_OBJECT /\ s = chr "{" :: mid ++ chr "}" :: e
    \/ t = JSON_ARRAY /\ s = chr "[" :: mid ++ chr "]" :: e.
Proof.
  unfold p_is_valid_json.
  destruct (p_is_valid_json_fuel (json_fuel s) s t) as [v|] eqn:E; [|discriminate].
  intros ->. destruct (valid_json_closing (json_fuel s)) as (Hj & _).
  destruct (Hj _ _ _ E) as [(-> & Ho & [mid Hs])|(-> & Ho & [mid Hs])];
    exists mid; [left|right]; (split; [done|]);
    destruct s as [|c s]; try done; simpl in Ho, Hs; by subst.
Qed.

Lemma valid_json_stops_after_bracket_witness :
  exists mid,
    JSON_ARRAY = JSON_OBJECT /\ dq "[1 ,'a' ]x" = chr "{" :: mid ++ chr "}" :: cs "x"
    \/ JSON_ARRAY = JSON_ARRAY /\ dq "[1 ,'a' ]x" = chr "[" :: mid ++ chr "]" :: cs "x".
Proof.
  apply (valid_json_stops_after_bracket (dq "[1 ,'a' ]x") JSON_ARRAY (cs "x")).
  vm_compute. reflexivity.
Defined.

(** ** Each node is listed once *)

Lemma linked_update (h new : list json) j nd nd' :
  linked h -> h !! j = Some nd ->
  parent nd' = parent nd ->
  NoDup (children nd') ->
  (forall c, elem_of c (children nd) -> elem_of c (children nd')) ->
  (forall i cn, new !! i = Some cn ->
     children cn = []
     /\ parent cn = Some j /\ elem_of (length h + i)%nat (children nd')) ->
  linked (<[j := nd']> h ++ new).
Proof.
  intros Hl Hj Hpar Hnd Hsub Hnew.
  assert (Hup : forall p pn k, h !! p = Some pn -> elem_of k (children pn) ->
            exists pn', (<[j := nd']> h ++ new) !! p = Some pn'
                        /\ elem_of k (children pn')).
  { intros p pn k Hp Hk. eexists. split; [by apply lookup_update_old|].
    destruct (decide (p = j)) as [->|_]; [|done].
    apply Hsub. by replace nd with pn by congruence. }
  intros k x Hk.
  destruct (lookup_update_inv _ _ _ _ _ _ Hk) as [(-> & -> & _)|[(Hne & Hk')|(Hge & Hk')]].
  - split; [done|]. intros p Hp. rewrite Hpar in Hp.
    destruct (proj2 (Hl _ _ Hj) _ Hp) as (pn & Hpn & Hin). by eapply Hup.
  - destruct (Hl _ _ Hk') as [Hn Hp]. split; [done|]. intros p Hpp.
    destruct (Hp _ Hpp) as (pn & Hpn & Hin). by eapply Hup.
  - destruct (Hnew _ _ Hk') as (Hc & Hp & Hin). split; [rewrite Hc; constructor|].
    intros p Hpp. assert (p = j) as -> by congruence.
    exists nd'. split.
    + rewrite (lookup_update_old _ _ _ _ _ nd Hj). by destruct (decide (j = j)).
    + by replace k with (length h + (k - length h))%nat by lia.
Qed.

Lemma add_child_linked rt D j h h1 data pn t :
  filling rt D j h -> linked h ->
  add_child j data pn t h = Ok tt h1 -> linked h1.
Proof.
  intros [Hsh _] Hl. unfold add_child.
  destruct (h !! j) as [nd|] eqn:Hj; [|discriminate]. intros [= <-].
  destruct (proj2 Hsh _ _ Hj) as (_ & _ & _ & _ & _ & H6 & _).
  eapply linked_update; [done|done|done| | |].
  - simpl. apply NoDup_app. split; [apply (Hl _ _ Hj)|]. split; [|apply NoDup_singleton].
    intros c Hc ->%list_elem_of_singleton.
    rewrite Forall_forall in H6. specialize (H6 _ Hc). lia.
  - simpl. intros c Hc. apply elem_of_app. by left.
  - intros i cn Hi. destruct i as [|i]; [|done]. inversion Hi; subst cn. simpl.
    repeat split. rewrite Nat.add_0_r. apply elem_of_app. right.
    by apply list_elem_of_singleton.
Qed.

Lemma linked_set (h : list json) j nd nd' :
  linked h -> h !! j = Some nd ->
  parent nd' = parent nd -> children nd' = children nd ->
  linked (<[j := nd']> h).
Proof.
  intros Hl Hj Hp Hc. rewrite <- (app_nil_r (<[j := nd']> h)).
  eapply linked_update; [done|done|done| | |done].
  - rewrite Hc. apply (Hl _ _ Hj).
  - by rewrite Hc.
Qed.

Lemma lazy_load_linked rt D j h h' :
  shape rt D h -> linked h -> p_lazy_load (Some j) h = Ok tt h' -> linked h'.
Proof.
  intros Hsh Hl. unfold p_lazy_load.
  destruct (h !! j) as [nd|] eqn:Hj; [|discriminate].
  destruct (children_count nd =? -1) eqn:Ec; cbn [negb]; [|by intros [= <-]].
  apply Z.eqb_eq in Ec.
  destruct (proj2 Hsh _ _ Hj) as (H1 & H2 & H3 & H4 & H5 & H6 & H7 & _).
  assert (Hkids : children nd = []) by (destruct H5 as [[_ ?]|?]; [done|lia]).
  set (nd0 := set_children_count 0 nd).
  assert (Hl0 : linked (<[j := nd0]> h)) by (by eapply linked_set).
  assert (Hfill : cached nd0 -> filling rt D j (<[j := nd0]> h)).
  { intros Hcached. split.
    - rewrite <- (app_nil_r (<[j := nd0]> h)).
      apply (shape_update rt D h [] j nd nd0); [done|done|done| |done].
      unfold node_ok. simpl. rewrite Hkids.
      split; [done|]. split; [done|]. split; [done|]. split; [done|].
      split; [by right|]. split; [constructor|done].
    - exists nd0. split; [|simpl; by rewrite Hkids].
      apply list_lookup_insert_eq. by eapply lookup_lt_Some. }
  assert (Hadd : forall g g1 data pn,
            filling rt D j g /\ linked g -> data `suffix_of` D ->
            is_Some (value_end (value_type data) data) ->
            add_child j data pn (value_type data) g = Ok tt g1 ->
            filling rt D j g1 /\ linked g1).
  { intros g g1 data pn [Hf Hg] Hd Hv Ha. split.
    - by eapply add_child_filling.
    - by eapply add_child_linked. }
  change (node_type nd0) with (node_type nd).
  change (backing_data nd0) with (backing_data nd).
  destruct (node_type nd) eqn:HT; try (by intros [= <-]).
  - destruct (p_is_valid_json _ _) as [e|]; [|discriminate].
    destruct (p_eat_whitespace _) as [s|] eqn:Ews; [|discriminate].
    intros Hload.
    assert (Hc0 : cached nd0) by (unfold cached; simpl; by rewrite HT).
    refine (proj2 (load_object_generic (fun g => filling rt D j g /\ linked g)
                     j D Hadd _ _ _ _ _ _ (conj (Hfill Hc0) Hl0) Hload)).
    etrans; [exact (eat_whitespace_suffix _ _ Ews)|].
    etrans; [apply tl_suffix_of|exact H2].
  - destruct (p_is_valid_json _ _) as [e|]; [|discriminate].
    destruct (p_eat_whitespace _) as [s|] eqn:Ews; [|discriminate].
    intros Hload.
    assert (Hc0 : cached nd0) by (unfold cached; simpl; by rewrite HT).
    refine (proj2 (load_array_generic (fun g => filling rt D j g /\ linked g)
                     j D Hadd _ _ _ _ _ _ (conj (Hfill Hc0) Hl0) Hload)).
    etrans; [exact (eat_whitespace_suffix _ _ Ews)|].
    etrans; [apply tl_suffix_of|exact H2].
  - destruct (p_is_valid_number _) as [e|] eqn:E; [|discriminate].
    intros [= <-]. rewrite list_insert_insert_eq. by eapply linked_set.
  - destruct (p_is_valid_string _) as [e|] eqn:E; [|discriminate].
    intros [= <-]. rewrite list_insert_insert_eq. by eapply linked_set.
Qed.

Lemma reachable_linked rt h :
  reachable rt h -> exists D, shape rt D h /\ linked h.
Proof.
  intros (s & len & h0 & Hparse & Hsteps).
  destruct (json_parse_shape _ _ _ _ Hparse) as (D & _ & Hsh).
  exists D. apply (steps_invariant (fun g => shape rt D g /\ linked g) h0 h);
    [| |done].
  - intros g g' j [Hg Hlg] Hload. split.
    + by eapply lazy_load_shape.
    + by eapply lazy_load_linked.
  - split; [done|].
    destruct (json_parse_spec _ _ _ _ Hparse) as (_ & data & type & e & _ & _ & _ & ->).
    intros k nd Hk. destruct k as [|k]; [|done]. inversion Hk; subst nd. simpl.
    split; [constructor|done].
Qed.

(** ** Freeing the tree *)

Lemma is_freed_spec j F : is_freed j F = true <-> elem_of j F.
Proof.
  unfold is_freed. rewrite existsb_exists, list_elem_of_In. split.
  - by intros (x & Hx & ->%Nat.eqb_eq).
  - intros Hj. exists j. split; [done|apply Nat.eqb_refl].
Qed.

Lemma is_freed_false j F : ~ elem_of j F -> is_freed j F = false.
Proof.
  intros Hj. destruct (is_freed j F) eqn:E; [|done]. by apply is_freed_spec in E.
Qed.

Section free.
Variables (rt : ptr) (D : list char) (h : list json).
Hypothesis Hwf : wf rt h.
Hypothesis Hsh : shape rt D h.
Hypothesis Hl : linked h.

Lemma child_above j nd c :
  h !! j = Some nd -> elem_of c (children nd) -> (j < c < length h)%nat.
Proof.
  intros Hj Hc. destruct (proj2 Hsh _ _ Hj) as (_ & _ & _ & _ & _ & H6 & _).
  rewrite Forall_forall in H6. by apply H6.
Qed.

Lemma count_of_children j nd :
  h !! j = Some nd -> Z.to_nat (children_count nd) = length (children nd).
Proof.
  intros Hj. destruct (proj2 Hsh _ _ Hj) as (_ & _ & _ & _ & H5 & _).
  destruct H5 as [[-> ->]| ->]; [done|apply Nat2Z.id].
Qed.

Lemma up_le k a : up h k a -> (a <= k)%nat.
Proof.
  induction 1 as [k|k nd p a Hk Hp _ IH]; [done|].
  destruct (proj2 Hsh _ _ Hk) as (_ & _ & _ & _ & _ & _ & H7 & _).
  rewrite Hp in H7. lia.
Qed.

Lemma up_valid k a : up h k a -> is_Some (h !! a) -> is_Some (h !! k).
Proof. destruct 1; [done|]. by eexists. Qed.

Lemma up_trans k a b : up h k a -> up h a b -> up h k b.
Proof.
  induction 1 as [k|k nd p a Hk Hp _ IH]; [done|]. intros Hab.
  eapply up_step; [done|done|]. by apply IH.
Qed.

Lemma up_comparable k a b : up h k a -> up h k b -> up h a b \/ up h b a.
Proof.
  induction 1 as [k|k nd p a Hk Hp Hpa IH]; [by left|]. intros Hkb.
  inversion Hkb as [|k' nd' p' b' Hk' Hp' Hpb]; subst.
  - right. by eapply up_step.
  - apply IH. by replace p with p' by congruence.
Qed.

Lemma up_child j nd c :
  h !! j = Some nd -> elem_of c (children nd) -> up h c j.
Proof.
  intros Hj Hc. destruct (wf_children _ _ Hwf _ _ _ Hj Hc) as (cn & Hcn & Hp & _).
  eapply up_step; [done|done|constructor].
Qed.

Lemma up_cases k j nd :
  up h k j -> h !! j = Some nd ->
  k = j \/ exists c, elem_of c (children nd) /\ up h k c.
Proof.
  induction 1 as [k|k x p a Hk Hp Hpa IH]; [by left|]. intros Ha. right.
  destruct (IH Ha) as [->|(c & Hc & Hpc)].
  - destruct (proj2 (Hl _ _ Hk) _ Hp) as (pn & Hpn & Hin).
    exists k. split; [by replace nd with pn by congruence|constructor].
  - exists c. split; [done|]. by eapply up_step.
Qed.

Lemma siblings_apart j nd c c' k :
  h !! j = Some nd -> elem_of c (children nd) -> elem_of c' (children nd) ->
  c <> c' -> up h k c -> up h k c' -> False.
Proof.
  intros Hj Hc Hc' Hne Hkc Hkc'.
  assert (Hside : forall a b, elem_of a (children nd) -> elem_of b (children nd) ->
            a <> b -> up h a b -> False).
  { intros a b Ha Hb Hab Hup.
    destruct (wf_children _ _ Hwf _ _ _ Hj Ha) as (an & Han & Hp & _).
    inversion Hup as [|a' x p b' Hx Hpx Hpb]; subst; [done|].
    assert (p = j) as -> by congruence.
    pose proof (up_le _ _ Hpb). pose proof (child_above _ _ _ Hj Hb). lia. }
  destruct (up_comparable _ _ _ Hkc Hkc') as [H|H].
  - by apply (Hside c c').
  - by apply (Hside c' c).
Qed.

Lemma up_root k : (k < length h)%nat -> up h k rt.
Proof.
  induction (lt_wf k) as [k _ IH]. intros Hk.
  destruct (lookup_lt_is_Some_2 h k Hk) as [nd Hnd].
  destruct (proj2 Hsh _ _ Hnd) as (_ & _ & _ & _ & _ & _ & H7 & _).
  destruct (parent nd) as [p|] eqn:Hp; [|subst k; constructor].
  eapply up_step; [done|done|]. apply IH; lia.
Qed.

(** The loop over the children of [j], when freeing a child frees what
    lies below that child and nothing else. *)
Lemma free_children_spec
  (f : ptr -> list ptr -> run (option (list ptr))) j nd :
  h !! j = Some nd ->
  (forall c F, elem_of c (children nd) ->
     (forall k, up h k c -> ~ elem_of k F) ->
     exists L, f c F = Done (Some (F ++ L)) /\ NoDup L
               /\ forall k, elem_of k L <-> up h k c) ->
  forall ks, NoDup ks -> (forall c, elem_of c ks -> elem_of c (children nd)) ->
  forall F, ~ elem_of j F ->
    (forall c k, elem_of c ks -> up h k c -> ~ elem_of k F) ->
    exists L, free_children f j ks (length ks) F = Done (Some (F ++ L))
              /\ NoDup L
              /\ forall k, elem_of k L <-> exists c, elem_of c ks /\ up h k c.
Proof.
  intros Hj Hf. induction ks as [|c ks IH]; intros Hnd Hsub F HjF HF.
  { exists []. simpl. rewrite is_freed_false, app_nil_r by done.
    split; [done|]. split; [constructor|]. intros k. split.
    - by intros ?%elem_of_nil.
    - by intros (c & ?%elem_of_nil & _). }
  apply NoDup_cons in Hnd as [Hc Hnd]. cbn [length free_children].
  rewrite is_freed_false by done.
  assert (Hcin : elem_of c (children nd)) by (apply Hsub; left).
  destruct (Hf c F Hcin) as (Lc & -> & HLc & Hin).
  { intros k. apply HF. left. }
  destruct (IH Hnd) with (F := F ++ Lc) as (L & -> & HL & HinL).
  - intros c' Hc'. apply Hsub. by right.
  - intros [?|HjL]%elem_of_app; [done|]. apply Hin, up_le in HjL.
    pose proof (child_above _ _ _ Hj Hcin). lia.
  - intros c' k Hc' Hk [HkF|HkL]%elem_of_app.
    + eapply HF; [|exact Hk|exact HkF]. by right.
    + apply Hin in HkL.
      apply (siblings_apart j nd c c' k); try done.
      * apply Hsub. by right.
      * by intros ->.
  - exists (Lc ++ L). rewrite app_assoc. split; [done|]. split.
    + apply NoDup_app. split; [done|]. split; [|done].
      intros k HkLc HkL. apply Hin in HkLc.
      apply HinL in HkL as (c' & Hc' & Hkc').
      apply (siblings_apart j nd c c' k); try done.
      * apply Hsub. by right.
      * by intros ->.
    + intros k. rewrite elem_of_app, Hin, HinL. split.
      * intros [Hk|(c' & Hc' & Hk)]; [exists c; split; [left|done]|].
        exists c'. split; [by right|done].
      * intros (c' & [->|Hc']%elem_of_cons & Hk); [by left|].
        right. by exists c'.
Qed.

(** Freeing a node frees the node and all that lies below it, each
    block once, the node itself last. *)
Lemma free_node_spec n : forall j F,
  (length h - j <= n)%nat -> is_Some (h !! j) ->
  (forall k, up h k j -> ~ elem_of k F) ->
  exists L, p_free_json_node_fuel n h j F = Done (Some (F ++ L))
            /\ NoDup L /\ forall k, elem_of k L <-> up h k j.
Proof.
  induction n as [|n IH]; intros j F Hn [nd Hj] HF.
  { pose proof (lookup_lt_Some _ _ _ Hj). lia. }
  cbn [p_free_json_node_fuel]. rewrite Hj, (count_of_children _ _ Hj).
  destruct (free_children_spec (p_free_json_node_fuel n h) j nd Hj)
    with (ks := children nd) (F := F) as (L & -> & HL & Hin).
  - intros c F' Hc HF'. apply IH; [|by destruct (wf_children _ _ Hwf _ _ _ Hj Hc) as (cn & -> & _)|done].
    pose proof (child_above _ _ _ Hj Hc). lia.
  - apply (Hl _ _ Hj).
  - done.
  - apply HF. constructor.
  - intros c k Hc Hk. apply HF. eapply up_trans; [exact Hk|]. by eapply up_child.
  - exists (L ++ [j]). rewrite app_assoc. split; [done|]. split.
    + apply NoDup_app. split; [done|]. split; [|apply NoDup_singleton].
      intros k HkL ->%list_elem_of_singleton.
      apply Hin in HkL as (c & Hc & Hjc). apply up_le in Hjc.
      pose proof (child_above _ _ _ Hj Hc). lia.
    + intros k. rewrite elem_of_app, Hin, list_elem_of_singleton. split.
      * intros [(c & Hc & Hk)| ->]; [|constructor].
        eapply up_trans; [exact Hk|]. by eapply up_child.
      * intros Hk. destruct (up_cases _ _ _ Hk Hj) as [->|?]; [by right|by left].
Qed.

Lemma json_free_root :
  exists fs, json_free (Some rt) h = Done (Some (1, fs))
             /\ Permutation fs (seq 0 (length h)).
Proof.
  destruct (proj1 Hsh) as (r & Hr & _).
  destruct (proj2 Hsh _ _ Hr) as (Hroot & _).
  unfold json_free. rewrite Hr, Hroot, Nat.eqb_refl, (count_of_children _ _ Hr).
  cbn [negb].
  destruct (free_children_spec (p_free_json_node h) rt r Hr)
    with (ks := children r) (F := @nil nat) as (L & -> & HL & Hin).
  - intros c F Hc HF. apply free_node_spec; [lia| |done].
    by destruct (wf_children _ _ Hwf _ _ _ Hr Hc) as (cn & -> & _).
  - apply (Hl _ _ Hr).
  - done.
  - by intros ?%elem_of_nil.
  - intros c k _ _. by intros ?%elem_of_nil.
  - exists (L ++ [rt]). split; [done|]. apply NoDup_Permutation.
    + apply NoDup_app. split; [done|]. split; [|apply NoDup_singleton].
      intros k HkL ->%list_elem_of_singleton.
      apply Hin in HkL as (c & Hc & Hjc). apply up_le in Hjc.
      pose proof (child_above _ _ _ Hr Hc). lia.
    + apply NoDup_seq.
    + intros k. rewrite elem_of_app, Hin, list_elem_of_singleton, elem_of_seq.
      split.
      * intros [(c & Hc & Hk)| ->].
        -- assert (Hup : up h k rt).
           { eapply up_trans; [exact Hk|]. by eapply up_child. }
           destruct (up_valid _ _ Hup) as [x Hx]; [by eexists|].
           pose proof (lookup_lt_Some _ _ _ Hx). lia.
        -- pose proof (lookup_lt_Some _ _ _ Hr). lia.
      * intros [_ Hk]. simpl in Hk.
        destruct (up_cases _ _ _ (up_root k Hk) Hr) as [->|?]; [by right|by left].
Qed.

Lemma json_free_inner j :
  j <> rt -> is_Some (h !! j) -> json_free (Some j) h = Done (Some (0, [])).
Proof.
  intros Hne [nd Hj]. destruct (proj2 Hsh _ _ Hj) as (Hroot & _).
  unfold json_free. rewrite Hj, Hroot.
  by destruct (Nat.eqb_spec rt j) as [->|_].
Qed.
End free.

(** X18: [json_free] on the root of a tree, after any operations, runs
    without a fault (no node is read after it was freed, none is freed
    twice), returns 1 and has freed every node of the store exactly once:
    none is left. On a node that is not the root it frees nothing and
    returns 0. *)
Theorem free_releases_every_node rt h :
  reachable rt h ->
  (exists fs, json_free (Some rt) h = Done (Some (1, fs))
              /\ Permutation fs (seq 0 (length h)))
  /\ forall j, j <> rt -> is_Some (h !! j) ->
       json_free (Some j) h = Done (Some (0, [])).
Proof.
  intros Hreach. pose proof (reachable_wf _ _ Hreach) as Hwf.
  destruct (reachable_linked _ _ Hreach) as (D & Hsh & Hl). split.
  - by eapply json_free_root.
  - intros j. by eapply json_free_inner.
Qed.

Lemma free_releases_every_node_witness :
  json_free (Some 0%nat) sample_store = Done (Some (1, [1; 3; 2; 0]%nat))
  /\ (exists fs, json_free (Some 0%nat) sample_store = Done (Some (1, fs))
                 /\ Permutation fs (seq 0 (length sample_store)))
  /\ forall j, j <> 0%nat -> is_Some (sample_store !! j) ->
       json_free (Some j) sample_store = Done (Some (0, [])).
Proof.
  split; [vm_compute; reflexivity|].
  apply (free_releases_every_node 0 sample_store).
  exists sample_doc, (length sample_doc), sample_parsed. split; [reflexivity|].
  apply (rtc_l _ _ sample_root_loaded);
    [by exists (ChildrenCount (Some 0%nat))|].
  apply rtc_once. by exists (ChildrenCount (Some 2%nat)).
Defined.

(** ** Skipping white space *)

(** X19: [p_eat_whitespace] returns the first position that holds
    neither white space nor the terminator, and NULL when the terminator
    comes first: a cursor is returned exactly when the text is a run of
    white space followed by the cursor, which stands on a byte that is
    no white space and not NUL. *)
Theorem eat_whitespace_first_black s r :
  p_eat_whitespace s = Some r
  <-> exists ws, s = ws ++ r /\ white ws
                 /\ deref r <> 0 /\ p_is_whitespace (deref r) = false.
Proof.
  split; [apply eat_whitespace_spec|].
  intros (ws & -> & Hws & Hnz & Hnw). induction Hws as [|c ws Hc _ IH].
  - destruct r as [|c r]; [done|]. simpl in *.
    apply Z.eqb_neq in Hnz. by rewrite Hnz, Hnw.
  - simpl. rewrite Hc. destruct (c =? 0) eqn:E; [|done].
    apply Z.eqb_eq in E. by subst c.
Qed.

(** ** Children stand in the order of the text *)

(** The two loops of the loader, for a property of the cursor and the
    store that adding the child found at the cursor keeps. *)
Lemma load_object_cursor (I : list char -> list json -> Prop) j :
  (forall s h h1 data pn s', I s h -> data `suffix_of` s ->
     deref data <> 0 -> p_is_whitespace (deref data) = false ->
     load_after_value (chr "}") (value_end (value_type data) data) = Some s' ->
     add_child j data pn (value_type data) h = Ok tt h1 -> I s' h1) ->
  forall n e s h h', I s h ->
    load_object n j e s h = Ok tt h' -> exists s', I s' h'.
Proof.
  intros Hadd. induction n as [|n IH]; intros e s h h' HI; [discriminate|].
  simpl.
  destruct (before s e); simpl; [|intros [= <-]; by exists s].
  destruct (deref s =? chr "}"); [intros [= <-]; by exists s|].
  destruct (deref s =? quote); [|discriminate].
  destruct (p_is_valid_string s) as [s1|] eqn:E1; [|discriminate].
  destruct (negb (deref s1 =? chr ":")); [discriminate|].
  destruct (p_eat_whitespace (tl s1)) as [s2|] eqn:E2; [|discriminate].
  assert (Hs2 : s2 `suffix_of` s).
  { etrans; [exact (eat_whitespace_suffix _ _ E2)|].
    etrans; [apply tl_suffix_of|exact (proj1 (valid_string_suffix _ _ E1))]. }
  destruct (eat_whitespace_spec _ _ E2) as (ws & _ & _ & Hnz & Hnw).
  destruct (add_child j s2 _ (value_type s2) h) as [[] h1| | |] eqn:Eadd;
    try discriminate.
  destruct (load_after_value (chr "}") (value_end (value_type s2) s2))
    as [s4|] eqn:E4; [|discriminate].
  apply IH. by eapply Hadd.
Qed.

Lemma load_array_cursor (I : list char -> list json -> Prop) j :
  (forall s h h1 data pn s', I s h -> data `suffix_of` s ->
     deref data <> 0 -> p_is_whitespace (deref data) = false ->
     load_after_value (chr "]") (value_end (value_type data) data) = Some s' ->
     add_child j data pn (value_type data) h = Ok tt h1 -> I s' h1) ->
  forall n e s h h', I s h ->
    load_array n j e s h = Ok tt h' -> exists s', I s' h'.
Proof.
  intros Hadd. induction n as [|n IH]; intros e s h h' HI; [discriminate|].
  simpl.
  destruct (before s e); simpl; [|intros [= <-]; by exists s].
  destruct (deref s =? chr "]"); [intros [= <-]; by exists s|].
  destruct (p_eat_whitespace s) as [s1|] eqn:E1; [|discriminate].
  pose proof (eat_whitespace_suffix _ _ E1) as Hs1.
  destruct (eat_whitespace_spec _ _ E1) as (ws & _ & _ & Hnz & Hnw).
  destruct (add_child j s1 None (value_type s1) h) as [[] h1| | |] eqn:Eadd;
    try discriminate.
  destruct (load_after_value (chr "]") (value_end (value_type s1) s1))
    as [s4|] eqn:E4; [|discriminate].
  apply IH. by eapply Hadd.
Qed.

Lemma valid_json_opens_with_bracket s t e :
  p_is_valid_json s t = Some e -> deref s = chr "{" \/ deref s = chr "[".
Proof.
  unfold p_is_valid_json.
  destruct (p_is_valid_json_fuel (json_fuel s) s t) as [v|] eqn:E; [|discriminate].
  intros ->. destruct (valid_json_closing (json_fuel s)) as (Hj & _).
  destruct (Hj _ _ _ E) as [(_ & Ho & _)|(_ & Ho & _)]; auto.
Qed.

Lemma later_suffix a b c :
  a `suffix_of` b -> strictly_later b c -> strictly_later a c.
Proof.
  intros Hab [Hbc Hl]. split; [by etrans|]. apply suffix_length in Hab. lia.
Qed.

Lemma lookup_update_data (h new : list json) j nd nd' c cn1 :
  h !! j = Some nd -> backing_data nd' = backing_data nd ->
  (c < length h)%nat -> (<[j := nd']> h ++ new) !! c = Some cn1 ->
  exists cn, h !! c = Some cn /\ backing_data cn1 = backing_data cn.
Proof.
  intros Hj Hd Hc Hc1.
  destruct (lookup_update_inv _ _ _ _ _ _ Hc1) as [(-> & -> & _)|[(Hne & Hk)|(Hge & _)]].
  - by exists nd.
  - by exists cn1.
  - lia.
Qed.

Lemma ordered_frame rt D (h new : list json) j nd nd' :
  shape rt D h -> ordered h -> h !! j = Some nd ->
  backing_data nd' = backing_data nd ->
  (forall i c cn, children nd' !! i = Some c ->
     (<[j := nd']> h ++ new) !! c = Some cn ->
     strictly_later (backing_data cn) (backing_data nd')
     /\ forall i' c' cn', (i < i')%nat -> children nd' !! i' = Some c' ->
          (<[j := nd']> h ++ new) !! c' = Some cn' ->
          strictly_later (backing_data cn') (backing_data cn)) ->
  (forall i x, new !! i = Some x -> children x = []) ->
  ordered (<[j := nd']> h ++ new).
Proof.
  intros Hsh Ho Hj Hd Hmine Hnew k x Hk.
  destruct (lookup_update_inv _ _ _ _ _ _ Hk) as [(-> & -> & _)|[(Hne & Hk')|(Hge & Hk')]].
  - exact Hmine.
  - destruct (proj2 Hsh _ _ Hk') as (_ & _ & _ & _ & _ & H6 & _).
    rewrite Forall_forall in H6.
    intros i c cn Hi Hc.
    destruct (lookup_update_data h new j nd nd' c cn Hj Hd) as (cn0 & Hc0 & Hdc);
      [by apply H6; eapply list_elem_of_lookup_2|done|].
    destruct (Ho _ _ Hk' _ _ _ Hi Hc0) as [Hp Hafter]. rewrite Hdc. split; [done|].
    intros i' c' cn' Hlt Hi' Hc'.
    destruct (lookup_update_data h new j nd nd' c' cn' Hj Hd) as (cn0' & Hc0' & Hdc');
      [by apply H6; eapply list_elem_of_lookup_2|done|].
    rewrite Hdc'. by eapply Hafter.
  - intros i c cn Hi. by rewrite (Hnew _ _ Hk') in Hi.
Qed.

Lemma ordered_set rt D (h : list json) j nd nd' :
  shape rt D h -> ordered h -> h !! j = Some nd ->
  backing_data nd' = backing_data nd -> children nd' = children nd ->
  ordered (<[j := nd']> h).
Proof.
  intros Hsh Ho Hj Hd Hc. rewrite <- (app_nil_r (<[j := nd']> h)).
  eapply ordered_frame; [done|done|done|done| |done].
  destruct (proj2 Hsh _ _ Hj) as (_ & _ & _ & _ & _ & H6 & _).
  rewrite Forall_forall in H6. rewrite Hc, Hd.
  intros i c cn Hi Hcn.
  destruct (lookup_update_data h [] j nd nd' c cn Hj Hd) as (cn0 & Hc0 & Hdc);
    [by apply H6; eapply list_elem_of_lookup_2|done|].
  destruct (Ho _ _ Hj _ _ _ Hi Hc0) as [Hp Hafter]. rewrite Hdc. split; [done|].
  intros i' c' cn' Hlt Hi' Hc'.
  destruct (lookup_update_data h [] j nd nd' c' cn' Hj Hd) as (cn0' & Hc0' & Hdc');
    [by apply H6; eapply list_elem_of_lookup_2|done|].
  rewrite Hdc'. by eapply Hafter.
Qed.

Lemma add_child_ordering rt D j close s (h h1 : list json) data pn s' :
  close <> chr "," ->
  filling rt D j h -> ordering j s h -> data `suffix_of` s ->
  deref data <> 0 -> p_is_whitespace (deref data) = false ->
  load_after_value close (value_end (value_type data) data) = Some s' ->
  add_child j data pn (value_type data) h = Ok tt h1 ->
  ordering j s' h1.
Proof.
  intros Hclose [Hsh _] (Ho & nd & Hj & Hs & Hkids) Hdata Hnz Hnw Hafter.
  unfold add_child. rewrite Hj. intros [= <-].
  set (nd' := set_children _ _).
  set (child := p_build_child_json_node _ _ _ _ _).
  destruct (proj2 Hsh _ _ Hj) as (_ & _ & _ & _ & _ & H6 & _).
  rewrite Forall_forall in H6.
  assert (Hs'len : (length s' < length data)%nat)
    by (by eapply child_value_strict).
  assert (Hs'data : s' `suffix_of` data).
  { destruct (value_end (value_type data) data) as [e|] eqn:Ee; [|done].
    etrans; [by eapply load_after_value_suffix|by eapply value_end_suffix]. }
  assert (Hs's : strictly_later s' data) by done.
  assert (Hlook : forall i c cn, children nd' !! i = Some c ->
            (<[j := nd']> h ++ [child]) !! c = Some cn ->
            (exists cn0, children nd !! i = Some c /\ h !! c = Some cn0
                         /\ backing_data cn = backing_data cn0)
            \/ (i = length (children nd) /\ c = length h /\ cn = child)).
  { intros i c cn Hi Hc. simpl in Hi.
    destruct (lookup_app_Some (children nd) [length h] i c) as [[Hold|[Hge Hnew]] _];
      [exact Hi| |].
    - left. destruct (lookup_update_data h [child] j nd nd' c cn Hj eq_refl)
        as (cn0 & Hc0 & Hdc); [by apply H6; eapply list_elem_of_lookup_2|done|].
      by exists cn0.
    - right. apply list_lookup_singleton_Some in Hnew as [Hi0 <-].
      split; [lia|]. split; [done|].
      rewrite lookup_app_r in Hc by (by rewrite length_insert).
      rewrite length_insert, Nat.sub_diag in Hc. by inversion Hc. }
  split; [|exists nd'; split; [|split]].
  - eapply ordered_frame; [done|done|done|done| |].
    + intros i c cn Hi Hc.
      destruct (Hlook _ _ _ Hi Hc) as [(cn0 & Hi0 & Hc0 & Hd0)|(-> & -> & ->)].
      * destruct (Ho _ _ Hj _ _ _ Hi0 Hc0) as [Hp Hnext]. rewrite Hd0.
        split; [done|]. intros i' c' cn' Hlt Hi' Hc'.
        destruct (Hlook _ _ _ Hi' Hc') as [(cn0' & Hi0' & Hc0' & Hd0')|(-> & -> & ->)].
        -- rewrite Hd0'. by eapply Hnext.
        -- simpl. apply (later_suffix _ s); [done|].
           apply (Hkids c); [by eapply list_elem_of_lookup_2|done].
      * split; [simpl; by apply (later_suffix _ s)|].
        intros i' c' cn' Hlt Hi'. simpl in Hi'.
        apply lookup_lt_Some in Hi'. rewrite length_app in Hi'. simpl in Hi'. lia.
    + intros i x Hi. destruct i as [|i]; [|done]. by inversion Hi.
  - rewrite (lookup_update_old _ _ _ _ _ nd Hj). by destruct (decide (j = j)).
  - simpl. apply (later_suffix _ s); [by etrans|done].
  - intros c cn Hc Hcn. apply list_elem_of_lookup in Hc as [i Hi].
    destruct (Hlook _ _ _ Hi Hcn) as [(cn0 & Hi0 & Hc0 & Hd0)|(-> & -> & ->)].
    + rewrite Hd0. apply (later_suffix _ s); [by etrans|].
      apply (Hkids c); [by eapply list_elem_of_lookup_2|done].
    + done.
Qed.

Lemma lazy_load_ordered rt D j h h' :
  shape rt D h -> ordered h -> p_lazy_load (Some j) h = Ok tt h' -> ordered h'.
Proof.
  intros Hsh Ho. unfold p_lazy_load.
  destruct (h !! j) as [nd|] eqn:Hj; [|discriminate].
  destruct (children_count nd =? -1) eqn:Ec; cbn [negb]; [|by intros [= <-]].
  apply Z.eqb_eq in Ec.
  destruct (proj2 Hsh _ _ Hj) as (H1 & H2 & H3 & H4 & H5 & H6 & H7 & _).
  assert (Hkids : children nd = []) by (destruct H5 as [[_ ?]|?]; [done|lia]).
  set (nd0 := set_children_count 0 nd).
  assert (Ho0 : ordered (<[j := nd0]> h)) by (by eapply ordered_set).
  assert (Hj0 : <[j := nd0]> h !! j = Some nd0).
  { apply list_lookup_insert_eq. by eapply lookup_lt_Some. }
  assert (Hfill : cached nd0 -> filling rt D j (<[j := nd0]> h)).
  { intros Hcached. split.
    - rewrite <- (app_nil_r (<[j := nd0]> h)).
      apply (shape_update rt D h [] j nd nd0); [done|done|done| |done].
      unfold node_ok. simpl. rewrite Hkids.
      split; [done|]. split; [done|]. split; [done|]. split; [done|].
      split; [by right|]. split; [constructor|done].
    - exists nd0. split; [done|simpl; by rewrite Hkids]. }
  assert (Hstart : forall s, p_eat_whitespace (tl (backing_data nd)) = Some s ->
            deref (backing_data nd) <> 0 ->
            ordering j s (<[j := nd0]> h)).
  { intros s Hs Hnz. split; [done|]. exists nd0. split; [done|]. split.
    - split.
      + etrans; [by eapply eat_whitespace_suffix|apply tl_suffix_of].
      + pose proof (suffix_length _ _ (eat_whitespace_suffix _ _ Hs)).
        pose proof (tl_length_lt _ Hnz). simpl. lia.
    - simpl. rewrite Hkids. by intros c cn ?%elem_of_nil. }
  assert (Hadd : forall close, close <> chr "," ->
            forall s g g1 data pn s',
            filling rt D j g /\ ordering j s g -> data `suffix_of` s ->
            deref data <> 0 -> p_is_whitespace (deref data) = false ->
            load_after_value close (value_end (value_type data) data) = Some s' ->
            add_child j data pn (value_type data) g = Ok tt g1 ->
            filling rt D j g1 /\ ordering j s' g1).
  { intros close Hclose s g g1 data pn s' [Hf Hg] Hd Hnz Hnw Hafter Ha. split.
    - eapply add_child_filling; [done| | |done].
      + destruct Hg as (_ & x & Hx & [Hsx _] & _).
        destruct (proj2 (proj1 Hf) _ _ Hx) as (_ & Hx2 & _).
        etrans; [exact Hd|]. by etrans.
      + by destruct (value_end (value_type data) data).
    - by eapply add_child_ordering. }
  change (node_type nd0) with (node_type nd).
  change (backing_data nd0) with (backing_data nd).
  destruct (node_type nd) eqn:HT; try (by intros [= <-]).
  - destruct (p_is_valid_json _ _) as [e|] eqn:Ev; [|discriminate].
    destruct (p_eat_whitespace _) as [s|] eqn:Ews; [|discriminate].
    intros Hload.
    assert (Hc0 : cached nd0) by (unfold cached; simpl; by rewrite HT).
    assert (Hnz : deref (backing_data nd) <> 0).
    { destruct (valid_json_opens_with_bracket _ _ _ Ev) as [-> | ->]; done. }
    destruct (load_object_cursor (fun s g => filling rt D j g /\ ordering j s g)
                j (Hadd (chr "}") ltac:(done)) _ _ _ _ _
                (conj (Hfill Hc0) (Hstart _ eq_refl Hnz)) Hload) as (s' & _ & Hord & _).
    exact Hord.
  - destruct (p_is_valid_json _ _) as [e|] eqn:Ev; [|discriminate].
    destruct (p_eat_whitespace _) as [s|] eqn:Ews; [|discriminate].
    intros Hload.
    assert (Hc0 : cached nd0) by (unfold cached; simpl; by rewrite HT).
    assert (Hnz : deref (backing_data nd) <> 0).
    { destruct (valid_json_opens_with_bracket _ _ _ Ev) as [-> | ->]; done. }
    destruct (load_array_cursor (fun s g => filling rt D j g /\ ordering j s g)
                j (Hadd (chr "]") ltac:(done)) _ _ _ _ _
                (conj (Hfill Hc0) (Hstart _ eq_refl Hnz)) Hload) as (s' & _ & Hord & _).
    exact Hord.
  - destruct (p_is_valid_number _) as [e|] eqn:E; [|discriminate].
    intros [= <-]. rewrite list_insert_insert_eq. by eapply ordered_set.
  - destruct (p_is_valid_string _) as [e|] eqn:E; [|discriminate].
    intros [= <-]. rewrite list_insert_insert_eq. by eapply ordered_set.
Qed.

Lemma reachable_ordered rt h : reachable rt h -> ordered h.
Proof.
  intros (s & len & h0 & Hparse & Hsteps).
  destruct (json_parse_shape _ _ _ _ Hparse) as (D & _ & Hsh).
  apply (steps_invariant (fun g => shape rt D g /\ ordered g) h0 h); [| |done].
  - intros g g' j [Hg Hog] Hload. split.
    + by eapply lazy_load_shape.
    + by eapply lazy_load_ordered.
  - split; [done|].
    destruct (json_parse_spec _ _ _ _ Hparse) as (_ & data & type & e & _ & _ & _ & ->).
    intros k nd Hk. destruct k as [|k]; [|done]. inversion Hk; subst nd.
    by intros i c cn Hi.
Qed.

(** X20: the children of a node stand in the order of the text. When
    [json_get_child] has returned a child for an index and then a child
    for a greater index of the same node, the text of the second child
    begins after the beginning of the text of the first, and both lie
    inside the text of the node; the second call leaves the store as the
    first left it. *)
Theorem children_in_document_order rt h j nd i i' c c' h1 h2 :
  reachable rt h -> h !! j = Some nd ->
  json_get_child (Some j) i h = Ok (Some c) h1 ->
  json_get_child (Some j) i' h1 = Ok (Some c') h2 ->
  i < i' ->
  h2 = h1
  /\ exists nd1 cn cn',
       h1 !! j = Some nd1 /\ h1 !! c = Some cn /\ h1 !! c' = Some cn'
       /\ strictly_later (backing_data cn) (backing_data nd1)
       /\ strictly_later (backing_data cn') (backing_data nd1)
       /\ strictly_later (backing_data cn') (backing_data cn).
Proof.
  intros Hreach Hj H1 H2 Hlt.
  assert (Hreach1 : reachable rt h1).
  { destruct Hreach as (s & len & h0 & Hparse & Hsteps).
    exists s, len, h0. split; [done|]. eapply rtc_r; [exact Hsteps|].
    exists (GetChild (Some j) i). cbn [exec]. by rewrite H1. }
  pose proof (reachable_wf _ _ Hreach) as Hwf.
  pose proof (reachable_wf _ _ Hreach1) as Hwf1.
  destruct (reachable_shape _ _ Hreach) as [D Hsh].
  pose proof (reachable_ordered _ _ Hreach1) as Ho1.
  unfold json_get_child in H1.
  destruct (loaded_outcome _ _ _ _ _ Hwf Hsh Hj)
    as [Ha|(nd1 & g & Hl & Hj1 & Hc1 & _)]; [by rewrite Ha in H1|].
  rewrite Hl in H1.
  destruct ((i <? 0) || (i >=? children_count nd1)) eqn:Ei; [done|].
  destruct (children nd1 !! Z.to_nat i) as [x|] eqn:Hi; [|done].
  injection H1 as -> ->.
  assert (Hl1 : loaded j h1 = Ok nd1 h1).
  { unfold loaded. rewrite Hj1. apply Z.eqb_neq in Hc1. by rewrite Hc1, Hj1. }
  unfold json_get_child in H2. rewrite Hl1 in H2.
  destruct ((i' <? 0) || (i' >=? children_count nd1)); [done|].
  destruct (children nd1 !! Z.to_nat i') as [x'|] eqn:Hi'; [|done].
  injection H2 as -> ->. split; [done|].
  apply orb_false_iff in Ei as [Ei _]. apply Z.ltb_ge in Ei.
  destruct (wf_children _ _ Hwf1 _ _ c Hj1) as (cn & Hcn & _);
    [by eapply list_elem_of_lookup_2|].
  destruct (wf_children _ _ Hwf1 _ _ c' Hj1) as (cn' & Hcn' & _);
    [by eapply list_elem_of_lookup_2|].
  exists nd1, cn, cn'. repeat (split; [done|]).
  destruct (Ho1 _ _ Hj1 _ _ _ Hi Hcn) as [Hin Hnext].
  destruct (Ho1 _ _ Hj1 _ _ _ Hi' Hcn') as [Hin' _].
  repeat (split; [done|]). eapply Hnext; [|done|done]. lia.
Qed.

Lemma children_in_document_order_witness :
  json_get_child (Some 0%nat) 0 sample_parsed = Ok (Some 1%nat) sample_root_loaded
  /\ json_get_child (Some 0%nat) 1 sample_root_loaded
     = Ok (Some 2%nat) sample_root_loaded
  /\ sample_root_loaded = sample_root_loaded
  /\ exists nd1 cn cn',
       sample_root_loaded !! 0%nat = Some nd1
       /\ sample_root_loaded !! 1%nat = Some cn
       /\ sample_root_loaded !! 2%nat = Some cn'
       /\ strictly_later (backing_data cn) (backing_data nd1)
       /\ strictly_later (backing_data cn') (backing_data nd1)
       /\ strictly_later (backing_data cn') (backing_data cn).
Proof.
  split; [vm_compute; reflexivity|]. split; [vm_compute; reflexivity|].
  refine (children_in_document_order 0 sample_parsed 0
            (p_build_root_json_node 0%nat sample_doc JSON_OBJECT) 0 1 1 2
            sample_root_loaded sample_root_loaded _ eq_refl eq_refl eq_refl _);
    [|lia].
  exists sample_doc, (length sample_doc), sample_parsed. by split.
Defined.

(** ** The key accessor *)


















